(** * stripePay: the invoice collection and consolidation pipeline

    A shallow embedding of [api/generate-pdf.js].  The serverless handler
    talks to four outside parties (the billing provider, the HTTP server
    holding the invoice PDFs, the storage service and the mail transport)
    and to the local file system.  The outside parties are oracles
    collected in an environment [Env]; everything the handler changes or
    emits is a field of the state [World], threaded through a small
    state-and-exception monad [M]. *)

From Stdlib Require Import List String Ascii ZArith Lia Bool Arith PeanoNat.
From Stdlib Require Import DecimalString.
Import ListNotations.

Set Warnings "-register-all".
Open Scope string_scope.
Open Scope list_scope.

Infix "+++" := String.append (right associativity, at level 60).

(** ** Paths and the scratch file system *)

(** An absolute path is the list of its segments below the root:
    ["/tmp/x"] is [["tmp"; "x"]]. *)
Definition path := list string.

(** [path.join(directory, name)] for a [name] that [readdirSync] returned,
    the name of one directory entry: one more segment. *)
Definition path_join (directory : path) (name : string) : path :=
  directory ++ [name].

(** The pieces of [s] between its slashes, after the piece begun. *)
Fixpoint pieces (piece s : string) : list string :=
  match s with
  | EmptyString => [piece]
  | String a s' =>
      if Ascii.eqb a "/" then piece :: pieces "" s'
      else pieces (piece +++ String a "") s'
  end.

(** One piece further from [p]: an empty piece and ["."] stay, [".."]
    goes one segment up (the root is its own parent), any other piece is
    one more segment. *)
Definition walk (p : path) (piece : string) : path :=
  if String.eqb piece "" || String.eqb piece "." then p
  else if String.eqb piece ".." then removelast p
  else p ++ [piece].

(** [path.join(directory, s)] for an absolute [directory] and a string [s]
    that is not empty: the normalized path, the pieces of [s] walked from
    [directory]. *)
Definition path_join_any (directory : path) (s : string) : path :=
  fold_left walk (pieces "" s) directory.

(** [path.resolve(directory, s)] for an absolute [directory]: as
    [path.join], but an [s] that begins with a slash starts at the root. *)
Definition path_resolve (directory : path) (s : string) : path :=
  match s with
  | String a _ =>
      if Ascii.eqb a "/" then path_join_any [] s else path_join_any directory s
  | EmptyString => directory
  end.

(** A file holds bytes; a directory holds named entries (there are no
    symbolic links).  The first entry carrying a name is the live one. *)
Inductive node : Type :=
| File (data : string)
| Dir (entries : list (string * node)).

Fixpoint assoc (c : string) (es : list (string * node)) : option node :=
  match es with
  | [] => None
  | (c', n) :: es' => if String.eqb c c' then Some n else assoc c es'
  end.

Fixpoint replace_entry (c : string) (n : node) (es : list (string * node))
  : list (string * node) :=
  match es with
  | [] => [(c, n)]
  | (c', n') :: es' =>
      if String.eqb c c' then (c, n) :: es' else (c', n') :: replace_entry c n es'
  end.

Definition remove_entry (c : string) (es : list (string * node))
  : list (string * node) :=
  filter (fun e => negb (String.eqb c (fst e))) es.

Definition set_entry (c : string) (o : option node) (es : list (string * node))
  : list (string * node) :=
  match o with
  | Some n => replace_entry c n es
  | None => remove_entry c es
  end.

(** What sits at path [p] below [cur]: nothing, a file or a directory. *)
Fixpoint lookup (p : path) (cur : option node) : option node :=
  match p with
  | [] => cur
  | c :: p' =>
      match cur with
      | Some (Dir es) => lookup p' (assoc c es)
      | _ => None
      end
  end.

(** Put [new] at path [p] ([None] removes what is there).  Nothing changes
    when the parent of [p] is not an existing directory. *)
Fixpoint upd (p : path) (new : option node) (cur : option node) : option node :=
  match p with
  | [] => new
  | c :: p' =>
      match cur with
      | Some (Dir es) => Some (Dir (set_entry c (upd p' new (assoc c es)) es))
      | _ => cur
      end
  end.

(** The chain of fresh directories [mkdir -p] creates for a missing path. *)
Fixpoint chain (p : path) : node :=
  match p with
  | [] => Dir []
  | c :: p' => Dir [(c, chain p')]
  end.

Fixpoint height (n : node) : nat :=
  match n with
  | File _ => 0
  | Dir es => S (fold_right (fun e h => Nat.max (height (snd e)) h) 0 es)
  end.

(** ** Errors, results and the monad *)

Inductive error : Type :=
| ENOENT (p : path)
| ENOTDIR (p : path)
| EISDIR (p : path)
| EEXIST (p : path)
| EBUSY (p : path)
| MissingUrl (number : string)
| RequestFailed (url : string)
| StreamFailed (url : string)
| InvalidPdf (p : path)
| TypeError (what : string)
| ProviderError (what : string)
| UploadFailed (p : path)
| MailFailed (recipient : string).

(** [Hang]: the computation was cut off by its fuel (the JavaScript would
    still be running). *)
Inductive result (A : Type) : Type :=
| Ok (a : A)
| Throw (e : error)
| Hang.
Arguments Ok {A} a.
Arguments Throw {A} e.
Arguments Hang {A}.

(** [mkdirSync(p, {recursive: true})] on the tree: existing directories are
    kept, missing ones are created, a file in the way is an error. *)
Fixpoint mkdirp (whole p : path) (cur : option node) : error + option node :=
  match cur with
  | None => inr (Some (chain p))
  | Some (File _) =>
      inl (match p with [] => EEXIST whole | _ => ENOTDIR whole end)
  | Some (Dir es) =>
      match p with
      | [] => inr cur
      | c :: p' =>
          match mkdirp whole p' (assoc c es) with
          | inl e => inl e
          | inr new => inr (Some (Dir (set_entry c new es)))
          end
      end
  end.

(** ** What the outside world sends: invoices, links, responses *)

(** An invoice as the billing provider lists it (the fields the code
    reads).  [None] is JavaScript's [null]. *)
Module Invoice.
Record t : Type := mk {
  id : string;
  status : option string;
  invoice_pdf : option string;
  number : option string;
  amount_paid : Z;
  amount_due : Z }.
End Invoice.

(** The [pdfLink] objects built by [getInvoicesList]. *)
Module Link.
Record t : Type := mk {
  invoice_pdf : option string;
  invoice_number : option string;
  amount_paid : Z;
  amount_due : Z }.
End Link.

(** The argument of [stripe.invoices.list]; a date that is [NaN] is [None]. *)
Record ListParams : Type := mkListParams {
  limit : Z;
  starting_after : option string;
  created_gte : option Z;
  created_lte : option Z }.

(** What [stripe.invoices.list] settles to: a rejection, or a page whose
    [data] may be missing. *)
Inductive ListResponse : Type :=
| ListRejected (what : string)
| ListPage (data : option (list Invoice.t)) (has_more : bool).

(** What [http.get(url, {responseType: "stream"})] settles to: a rejection
    (network error, non-success status), or a response whose body stream
    delivers [body] and then either ends ([complete = true]) or breaks. *)
Inductive HttpResult : Type :=
| HttpRejected
| HttpResponse (body : string) (complete : bool).

(** A PDF page, by the text on it; a document is its list of pages. *)
Inductive page : Type := Page (text : string).

Record Mail : Type := mkMail {
  mail_to : option string;
  mail_subject : string;
  mail_text : string;
  mail_attachments : list (string * path) }.

(** The lines written with [console.log] and [console.error]. *)
Inductive line : Type :=
| FileDownloaded (dest : path)
| ErrorDownloading (number : string) (e : error)
| RetryingDownload (number : string) (attempt : nat)
| FailedToDownload (number : string) (attempt : nat)
| AllDownloaded (category : string)
| ErrorDownloadingFiles (e : error)
| PdfsMerged (outputPath : path)
| EmptyPdfCreated (outputPath : path)
| ErrorRetrievingList (e : error)
| EmailSentUser (email : string)
| EmailSentAdmin (email : option string)
| ErrorProcessing (e : error).

(** The consolidator operations entered, with their arguments (a ghost
    record: the code keeps no such list). *)
Inductive op : Type :=
| Merge (pdfPaths : list path) (outputPath : path)
| Placeholder (outputPath : path).

(** The oracles: every party outside the process, the PDF library's
    parser and printer, the time zone, and the configuration. *)
Record Env : Type := mkEnv {
  (** [stripe.invoices.list] of the client made from a secret: the answer
      to the [n]-th call of the request. *)
  invoices_list : option string -> nat -> ListParams -> ListResponse;
  (** the answer to the [n]-th [http.get] of the request *)
  http_get : nat -> string -> HttpResult;
  (** [PDFDocument.load]: [None] when the bytes are not a readable PDF *)
  pdf_load : string -> option (list page);
  (** [PDFDocument.save] *)
  pdf_save : list page -> string;
  (** [cloudinary.uploader.upload]: the secure URL, [None] on failure *)
  uploader_upload : path -> string -> option string;
  (** [transporter.sendMail]: does the send succeed *)
  sendMail : Mail -> bool;
  (** offset of local time from UTC, in seconds, at a local second *)
  tz_offset : Z -> Z;
  (** [config.json]: account key and the name of its secret's variable,
      in the order of [Object.keys] *)
  config : list (string * string);
  (** [process.env] *)
  process_env : string -> option string }.

(** Everything a request changes or emits. *)
Record World : Type := mkWorld {
  fs : node;
  console : list line;
  requests : list string;
  listCalls : list (ListParams * ListResponse);
  consolidations : list op;
  uploads : list path;
  mails : list Mail }.

Definition set_fs (r : node) (w : World) : World :=
  mkWorld r (console w) (requests w) (listCalls w) (consolidations w)
          (uploads w) (mails w).

Definition M (A : Type) : Type := World -> result A * World.

Definition ret {A} (a : A) : M A := fun w => (Ok a, w).
Definition throw {A} (e : error) : M A := fun w => (Throw e, w).
Definition hang {A} : M A := fun w => (Hang, w).

Definition bind {A B} (m : M A) (k : A -> M B) : M B :=
  fun w =>
    match m w with
    | (Ok a, w') => k a w'
    | (Throw e, w') => (Throw e, w')
    | (Hang, w') => (Hang, w')
    end.

(** [try { m } catch (error) { h error }] *)
Definition try_catch {A} (m : M A) (h : error -> M A) : M A :=
  fun w =>
    match m w with
    | (Throw e, w') => h e w'
    | r => r
    end.

Notation "x <- c1 ;; c2" := (bind c1 (fun x => c2))
  (at level 61, c1 at next level, right associativity).
Notation "c1 ;; c2" := (bind c1 (fun _ => c2))
  (at level 61, right associativity).

(** [console.log] and [console.error] *)
Definition say (l : line) : M unit :=
  fun w => (Ok tt, mkWorld (fs w) (console w ++ [l]) (requests w) (listCalls w)
                           (consolidations w) (uploads w) (mails w)).

Definition enter (o : op) : M unit :=
  fun w => (Ok tt, mkWorld (fs w) (console w) (requests w) (listCalls w)
                           (consolidations w ++ [o]) (uploads w) (mails w)).

(** [array.forEach] with a callback that may throw *)
Fixpoint forEach {A} (l : list A) (f : A -> M unit) : M unit :=
  match l with
  | [] => ret tt
  | x :: l' => f x ;; forEach l' f
  end.

(** ** The [fs] calls the code makes *)

Definition at_path (p : path) (w : World) : option node :=
  lookup p (Some (fs w)).

Definition store (p : path) (new : option node) (root : node) : node :=
  match upd p new (Some root) with
  | Some r => r
  | None => root
  end.

Definition existsSync (p : path) : M bool :=
  fun w => (Ok (match at_path p w with Some _ => true | None => false end), w).

(** Names as [readdirSync] orders them: by their bytes (the entries are
    read with [scandir], which sorts them with [strcmp]). *)
Fixpoint insert_name (c : string) (l : list string) : list string :=
  match l with
  | [] => [c]
  | d :: l' => if String.leb c d then c :: l else d :: insert_name c l'
  end.

Definition sort_names (l : list string) : list string :=
  fold_right insert_name [] l.

(** The names in a directory, each once, sorted. *)
Definition listing (es : list (string * node)) : list string :=
  sort_names (nodup string_dec (map fst es)).

Definition readdirSync (p : path) : M (list string) :=
  fun w =>
    match at_path p w with
    | Some (Dir es) => (Ok (listing es), w)
    | Some (File _) => (Throw (ENOTDIR p), w)
    | None => (Throw (ENOENT p), w)
    end.

(** [fs.lstatSync(p).isDirectory()] *)
Definition lstatSync_isDirectory (p : path) : M bool :=
  fun w =>
    match at_path p w with
    | Some (Dir _) => (Ok true, w)
    | Some (File _) => (Ok false, w)
    | None => (Throw (ENOENT p), w)
    end.

Definition unlinkSync (p : path) : M unit :=
  fun w =>
    match at_path p w with
    | Some (File _) => (Ok tt, set_fs (store p None (fs w)) w)
    | Some (Dir _) => (Throw (EISDIR p), w)
    | None => (Throw (ENOENT p), w)
    end.

(** [fs.rmSync(p, {recursive: true, force: true})]: removes the whole
    subtree, and a missing path is no error; the root cannot be removed. *)
Definition rmSync (p : path) : M unit :=
  fun w =>
    match p with
    | [] => (Throw (EBUSY p), w)
    | _ => (Ok tt, set_fs (store p None (fs w)) w)
    end.

(** [fs.mkdirSync(p, {recursive: true})] *)
Definition mkdirSync (p : path) : M unit :=
  fun w =>
    match mkdirp p p (Some (fs w)) with
    | inl e => (Throw e, w)
    | inr (Some r) => (Ok tt, set_fs r w)
    | inr None => (Throw (ENOENT p), w)
    end.

Definition readFile (p : path) : M string :=
  fun w =>
    match at_path p w with
    | Some (File data) => (Ok data, w)
    | Some (Dir _) => (Throw (EISDIR p), w)
    | None => (Throw (ENOENT p), w)
    end.

(** Opening [p] for writing creates or truncates the file; it needs an
    existing parent directory and no directory at [p]. *)
Definition open_w (p : path) (data : string) : M unit :=
  fun w =>
    match p with
    | [] => (Throw (EISDIR p), w)
    | _ =>
        match at_path (removelast p) w with
        | Some (Dir _) =>
            match at_path p w with
            | Some (Dir _) => (Throw (EISDIR p), w)
            | _ => (Ok tt, set_fs (store p (Some (File data)) (fs w)) w)
            end
        | Some (File _) => (Throw (ENOTDIR p), w)
        | None => (Throw (ENOENT p), w)
        end
    end.

Definition writeFile (p : path) (data : string) : M unit := open_w p data.

(** ** Directory Stager *)

Fixpoint clearDirectory (fuel : nat) (directory : path) : M unit :=
  match fuel with
  | O => hang
  | S fuel' =>
      (present <- existsSync directory ;;
       if present then
         files <- readdirSync directory ;;
         forEach files (fun file =>
           let curPath := path_join directory file in
           isDir <- lstatSync_isDirectory curPath ;;
           if isDir then clearDirectory fuel' curPath
           else unlinkSync curPath) ;;
         rmSync directory
       else ret tt) ;;
      mkdirSync directory
  end.

(** [clearDirectory] can stage [p]: no regular file sits at [p] or at one
    of its ancestors. *)
Fixpoint stageable (p : path) (cur : option node) : bool :=
  match cur with
  | None => true
  | Some (File _) => false
  | Some (Dir es) =>
      match p with
      | [] => true
      | c :: p' => stageable p' (assoc c es)
      end
  end.

Fixpoint assoc_string (k : string) (l : list (string * string)) : option string :=
  match l with
  | [] => None
  | (k', v) :: l' => if String.eqb k k' then Some v else assoc_string k l'
  end.

(** ** Strings as JavaScript prints them *)

(** [`${v}`] of a value that is a string or [null]. *)
Definition template (v : option string) : string :=
  match v with
  | Some s => s
  | None => "null"
  end.

(** [!v] for a value that is a string or [null]: true for [null] and for
    the empty string. *)
Definition falsy (v : option string) : bool :=
  match v with
  | None => true
  | Some s => String.eqb s ""
  end.

(** [toUpperCase] and [toLowerCase] on ASCII letters (other characters are
    kept; account keys are ASCII identifiers). *)
Definition upper_ascii (a : ascii) : ascii :=
  let n := nat_of_ascii a in
  if (Nat.leb 97 n && Nat.leb n 122)%bool then ascii_of_nat (n - 32) else a.

Definition lower_ascii (a : ascii) : ascii :=
  let n := nat_of_ascii a in
  if (Nat.leb 65 n && Nat.leb n 90)%bool then ascii_of_nat (n + 32) else a.

Fixpoint map_string (f : ascii -> ascii) (s : string) : string :=
  match s with
  | EmptyString => EmptyString
  | String a s' => String (f a) (map_string f s')
  end.

Definition toUpperCase : string -> string := map_string upper_ascii.
Definition toLowerCase : string -> string := map_string lower_ascii.

(** ** Numbers

    The numbers of the handler are integers or infinite: the results of
    [parseInt], and the JSON numbers of the request as far as they are
    integers.  A number is held as the [Z] it is equal to, [2^1024] and
    [-2^1024] standing for [Infinity] and [-Infinity]; what is computed is
    rounded to the nearest double. *)

(** The digits of an integer. *)
Definition string_of_Z (z : Z) : string := NilZero.string_of_int (Z.to_int z).

Definition Infinity : Z := 2 ^ 1024.

(** The double nearest to the integer [z], ties going to the even
    significand; beyond the largest double it is infinite. *)
Definition round_double (z : Z) : Z :=
  (let a := Z.abs z in
   if a <? 2 ^ 53 then z
   else
     let e := Z.log2 a - 52 in
     let q := a / 2 ^ e in
     let r := a mod 2 ^ e in
     let half := 2 ^ (e - 1) in
     let q' := if (half <? r) || ((half =? r) && Z.odd q) then q + 1 else q in
     Z.sgn z * Z.min (q' * 2 ^ e) Infinity)%Z.

(** The integer nearest to [x / p], ties going to the even one. *)
Definition nearest (x p : Z) : Z :=
  (let s := x / p in
   let r := x mod p in
   if 2 * r <? p then s
   else if p <? 2 * r then s + 1
   else if Z.even s then s else s + 1)%Z.

(** The [k]-digit integer [s] with [s * 10^(n-k)] rounding to [x], if any. *)
Definition shortest_try (x n k : Z) : option Z :=
  (let s := nearest x (10 ^ (n - k)) in
   if (10 ^ (k - 1) <=? s) && (s <? 10 ^ k) &&
      (round_double (s * 10 ^ (n - k)) =? x)
   then Some s else None)%Z.

(** The shortest digits [s] and the exponent [n] that [Number::toString]
    prints for [x], a double of [d] digits: the search goes up from [k]
    digits. *)
Fixpoint shortest_from (fuel : nat) (x d k : Z) : Z * Z :=
  match fuel with
  | O => (x, d)
  | S fuel' =>
      match shortest_try x d k with
      | Some s => (s, d)
      | None =>
          match shortest_try x (d + 1) k with
          | Some s => (s, (d + 1)%Z)
          | None => shortest_from fuel' x d (k + 1)%Z
          end
      end
  end.

Fixpoint zeros (n : nat) : string :=
  match n with
  | O => ""
  | S n' => "0" +++ zeros n'
  end.

(** [`${x}`] for a number [x]: an integer below [2^53] in magnitude is
    printed digit by digit; a larger double with its shortest digits,
    followed by zeros below [10^21] and in exponent form from there on. *)
Definition Number_toString (x : Z) : string :=
  (let a := Z.abs x in
   let sign := if x <? 0 then "-" else "" in
   if a <? 2 ^ 53 then string_of_Z x
   else if Infinity <=? a then sign +++ "Infinity"
   else
     let d := Z.of_nat (String.length (string_of_Z a)) in
     let (s, n) := shortest_from 17 a d 1 in
     let digits := string_of_Z s in
     let k := Z.of_nat (String.length digits) in
     if n <=? 21 then sign +++ digits +++ zeros (Z.to_nat (n - k))
     else
       match digits with
       | String first rest =>
           sign +++ String first (if k =? 1 then "" else "." +++ rest) +++
           "e+" +++ string_of_Z (n - 1)
       | EmptyString => sign
       end)%Z.

(** ** Request values *)

(** The primitive values a field of a JSON body can hold, and [undefined]
    for a field that is not there.  [JNum z] is the number a JSON parser
    reads from the integer literal [z].  Fractions, arrays and objects are
    outside the model. *)
Inductive jsval : Type :=
| JUndefined
| JNull
| JBool (b : bool)
| JNum (z : Z)
| JStr (s : string).

(** [!!v] *)
Definition truthy (v : jsval) : bool :=
  match v with
  | JUndefined => false
  | JNull => false
  | JBool b => b
  | JNum z => negb (Z.eqb z 0)
  | JStr s => negb (String.eqb s "")
  end.

Definition ToString (v : jsval) : string :=
  match v with
  | JUndefined => "undefined"
  | JNull => "null"
  | JBool true => "true"
  | JBool false => "false"
  | JNum z => Number_toString (round_double z)
  | JStr s => s
  end.

(** A string holds the UTF-8 encoding of a JavaScript string. *)
Definition utf8 (bytes : list nat) : string :=
  string_of_list_ascii (map ascii_of_nat bytes).

(** The white-space characters [parseInt] skips ([StrWhiteSpaceChar]):
    TAB, LF, VT, FF, CR, the space, U+00A0, U+1680, U+2000 to U+200A, the
    line and paragraph separators U+2028 and U+2029, U+202F, U+205F,
    U+3000 and U+FEFF. *)
Definition StrWhiteSpaceChar : list string :=
  map utf8
    [[9]; [10]; [11]; [12]; [13]; [32]; [194; 160]; [225; 154; 128];
     [226; 128; 128]; [226; 128; 129]; [226; 128; 130]; [226; 128; 131];
     [226; 128; 132]; [226; 128; 133]; [226; 128; 134]; [226; 128; 135];
     [226; 128; 136]; [226; 128; 137]; [226; 128; 138]; [226; 128; 168];
     [226; 128; 169]; [226; 128; 175]; [226; 129; 159]; [227; 128; 128];
     [239; 187; 191]].

(** [s] without its prefix [pre], when it begins with it. *)
Fixpoint strip_prefix (pre s : string) : option string :=
  match pre, s with
  | EmptyString, _ => Some s
  | String a pre', String b s' =>
      if Ascii.eqb a b then strip_prefix pre' s' else None
  | String _ _, EmptyString => None
  end.

Fixpoint strip_any (pres : list string) (s : string) : option string :=
  match pres with
  | [] => None
  | pre :: rest =>
      match strip_prefix pre s with
      | Some s' => Some s'
      | None => strip_any rest s
      end
  end.

(** [s] without its leading white space; [n] bounds the number of
    characters removed. *)
Fixpoint skip_spaces_upto (n : nat) (s : string) : string :=
  match n with
  | O => s
  | S n' =>
      match strip_any StrWhiteSpaceChar s with
      | Some s' => skip_spaces_upto n' s'
      | None => s
      end
  end.

Definition skip_spaces (s : string) : string :=
  skip_spaces_upto (String.length s) s.

Definition digit_of (a : ascii) : option Z :=
  let n := nat_of_ascii a in
  if (Nat.leb 48 n && Nat.leb n 57)%bool then Some (Z.of_nat (n - 48)) else None.

(** The value of the longest run of decimal digits at the front of [s],
    continuing from [acc]. *)
Fixpoint digits (s : string) (acc : Z) : Z :=
  match s with
  | String a s' =>
      match digit_of a with
      | Some d => digits s' (10 * acc + d)
      | None => acc
      end
  | EmptyString => acc
  end.

Definition starts_with_digit (s : string) : bool :=
  match s with
  | String a _ => match digit_of a with Some _ => true | None => false end
  | EmptyString => false
  end.

(** [parseInt(s, 10)] on a string; [None] is [NaN]. *)
Definition parseInt_string (s : string) : option Z :=
  let s1 := skip_spaces s in
  let (sign, s2) :=
    match s1 with
    | String "-" rest => ((-1)%Z, rest)
    | String "+" rest => (1%Z, rest)
    | _ => (1%Z, s1)
    end in
  if starts_with_digit s2 then Some (round_double (sign * digits s2 0))%Z
  else None.

(** [parseInt(v, 10)]: the value is first turned into a string. *)
Definition parseInt (v : jsval) : option Z := parseInt_string (ToString v).

(** A request with a body: the method, and the three fields that
    [const { year, month, email } = req.body] reads from the body. *)
Record Request : Type := mkRequest {
  method : string;
  year : jsval;
  month : jsval;
  email : jsval }.

(** The three fields of a body.  A body that is a JSON object holds its
    own; any other JSON value but [null] holds none of them, so that all
    three are [undefined]. *)
Record Body : Type := mkBody {
  body_year : jsval;
  body_month : jsval;
  body_email : jsval }.

(** The request as the platform hands it over: [req.body] is missing
    ([None]) when no body was parsed ([undefined]) or the body was the
    JSON value [null]. *)
Record Incoming : Type := mkIncoming {
  incoming_method : string;
  incoming_body : option Body }.

(** [res.status(code).json({ message })] *)
Record Response : Type := mkResponse {
  statusCode : Z;
  message : string }.

(** ** Dates *)

Definition DayFromYear (y : Z) : Z :=
  (365 * (y - 1970) + (y - 1969) / 4 - (y - 1901) / 100 + (y - 1601) / 400)%Z.

Definition InLeapYear (y : Z) : bool :=
  ((Z.eqb (y mod 4) 0 && negb (Z.eqb (y mod 100) 0)) || Z.eqb (y mod 400) 0)%bool.

(** Days of the year before month [mn] (0 is January). *)
Definition DaysBeforeMonth (leap : bool) (mn : Z) : Z :=
  let l := (if leap then 1 else 0)%Z in
  match mn with
  | 0 => 0
  | 1 => 31
  | 2 => 59 + l
  | 3 => 90 + l
  | 4 => 120 + l
  | 5 => 151 + l
  | 6 => 181 + l
  | 7 => 212 + l
  | 8 => 243 + l
  | 9 => 273 + l
  | 10 => 304 + l
  | _ => 334 + l
  end%Z.

(** ECMAScript's [MakeDay]: the day number of day [date] of month [month]
    (0 is January) of [year]; months and days outside their range carry
    over. *)
Definition MakeDay (year month date : Z) : Z :=
  let ym := (year + month / 12)%Z in
  let mn := (month mod 12)%Z in
  (DayFromYear ym + DaysBeforeMonth (InLeapYear ym) mn + date - 1)%Z.

Definition MakeTime (hour min sec ms : Z) : Z :=
  (hour * 3600000 + min * 60000 + sec * 1000 + ms)%Z.

Definition MakeDate (day time : Z) : Z := (day * 86400000 + time)%Z.

(** A time value outside the range of [Date] is [NaN]. *)
Definition TimeClip (t : Z) : option Z :=
  if (Z.abs t <=? 8640000000000000)%Z then Some t else None.

Definition monthNames : list string :=
  ["January"; "February"; "March"; "April"; "May"; "June"; "July"; "August";
   "September"; "October"; "November"; "December"].

(** [array[i]] for a number [i]: [undefined] outside the array. *)
Definition index {A} (l : list A) (i : Z) : option A :=
  if (i <? 0)%Z then None else nth_error l (Z.to_nat i).

Section Pipeline.
Variable E : Env.

(** The file at [p] is a PDF the library reads as the document [pdfDoc]. *)
Definition holds_pdf (w : World) (p : path) (pdfDoc : list page) : Prop :=
  exists pdfBytes,
    at_path p w = Some (File pdfBytes) /\ pdf_load E pdfBytes = Some pdfDoc.

(** ** Resilient Fetcher *)

(** [http.get]: the request is recorded and the oracle answers. *)
Definition http_request (url : string) : M (string * bool) :=
  fun w =>
    let w' := mkWorld (fs w) (console w) (requests w ++ [url]) (listCalls w)
                      (consolidations w) (uploads w) (mails w) in
    match http_get E (List.length (requests w)) url with
    | HttpRejected => (Throw (RequestFailed url), w')
    | HttpResponse body complete => (Ok (body, complete), w')
    end.

(** [pipelineAsync(response.data, fs.createWriteStream(dest))]: the write
    stream opens [dest] (creating or truncating it) and receives the
    bytes the body delivers; a body that breaks rejects the pipeline and
    nothing removes what was written. *)
Definition pipelineAsync (url : string) (response : string * bool)
           (dest : path) : M unit :=
  open_w dest (fst response) ;;
  if snd response then ret tt else throw (StreamFailed url).

(** One pass through the [try] block of [downloadWithRetry]. *)
Definition attemptDownload (url : Link.t) (dest : path) : M unit :=
  (if falsy (Link.invoice_pdf url)
   then throw (MissingUrl (template (Link.invoice_number url)))
   else ret tt) ;;
  response <- http_request (template (Link.invoice_pdf url)) ;;
  pipelineAsync (template (Link.invoice_pdf url)) response dest ;;
  say (FileDownloaded dest).

Fixpoint downloadWithRetry (fuel : nat) (url : Link.t) (dest : path)
         (attempt : nat) : M unit :=
  match fuel with
  | O => hang
  | S fuel' =>
      try_catch (attemptDownload url dest)
        (fun error =>
           say (ErrorDownloading (template (Link.invoice_number url)) error) ;;
           if Nat.leb attempt 5 then
             say (RetryingDownload (template (Link.invoice_number url)) attempt) ;;
             downloadWithRetry fuel' url dest (attempt + 1)
           else
             say (FailedToDownload (template (Link.invoice_number url)) attempt))
  end.

(** The fetches of one category are started together and awaited with
    [Promise.all]; each catches its own errors and writes only its own
    destination, so they are run here one after the other, in list
    order.  How their requests and console lines interleave is not
    modelled, nor are two fetches that stream into one file at once. *)
Definition downloadPdfs (fuel : nat) (urls : list Link.t) (category : string)
  : M (list path) :=
  let tmpDir := path_join_any ["tmp"] category in
  clearDirectory fuel tmpDir ;;
  forEach urls (fun url =>
    let dest :=
      path_resolve tmpDir (template (Link.invoice_number url) +++ ".pdf") in
    downloadWithRetry fuel url dest 1) ;;
  try_catch
    (say (AllDownloaded category) ;;
     files <- readdirSync tmpDir ;;
     ret (map (path_join tmpDir) files))
    (fun error => say (ErrorDownloadingFiles error) ;; throw error).

(** A link no attempt can get a response for: its URL is missing, or the
    server rejects every request for it. *)
Definition unreachable (url : Link.t) : Prop :=
  falsy (Link.invoice_pdf url) = true \/
  forall n, http_get E n (template (Link.invoice_pdf url)) = HttpRejected.

(** ** PDF Consolidator *)

Definition PDFDocument_load (pdfPath : path) (pdfBytes : string) : M (list page) :=
  match pdf_load E pdfBytes with
  | Some pdfDoc => ret pdfDoc
  | None => throw (InvalidPdf pdfPath)
  end.

Definition getPageIndices (pdfDoc : list page) : list nat :=
  seq 0 (List.length pdfDoc).

(** [copyPages(src, indices)]: copies of the pages at the indices, in the
    order of the indices. *)
Fixpoint copyPages (src : list page) (indices : list nat) : M (list page) :=
  match indices with
  | [] => ret []
  | i :: rest =>
      match nth_error src i with
      | Some pg => copied <- copyPages src rest ;; ret (pg :: copied)
      | None => throw (TypeError "copyPages: index out of range")
      end
  end.

Definition addPage (pdfDoc : list page) (pg : page) : list page :=
  pdfDoc ++ [pg].

(** The [for ... of] loop of [mergePdfs], from the document merged so far. *)
Fixpoint mergeInto (mergedPdf : list page) (pdfPaths : list path)
  : M (list page) :=
  match pdfPaths with
  | [] => ret mergedPdf
  | pdfPath :: rest =>
      pdfBytes <- readFile pdfPath ;;
      pdfDoc <- PDFDocument_load pdfPath pdfBytes ;;
      copiedPages <- copyPages pdfDoc (getPageIndices pdfDoc) ;;
      mergeInto (fold_left addPage copiedPages mergedPdf) rest
  end.

Definition mergePdfs (pdfPaths : list path) (outputPath : path) : M unit :=
  enter (Merge pdfPaths outputPath) ;;
  mergedPdf <- mergeInto [] pdfPaths ;;
  writeFile outputPath (pdf_save E mergedPdf) ;;
  say (PdfsMerged outputPath).

Definition drawText (text : string) (pg : page) : page :=
  match pg with Page t => Page (t +++ text) end.

Definition createEmptyPdf (outputPath : path) : M unit :=
  enter (Placeholder outputPath) ;;
  let pg := drawText "No data available for this category." (Page "") in
  writeFile outputPath (pdf_save E (addPage [] pg)) ;;
  say (EmptyPdfCreated outputPath).

(** ** Invoice Lister *)

(** [stripe.invoices.list(params)]: the call and its answer are recorded. *)
Definition stripe_invoices_list (secret : option string) (params : ListParams)
  : M (option (list Invoice.t) * bool) :=
  fun w =>
    let answer := invoices_list E secret (List.length (listCalls w)) params in
    let w' := mkWorld (fs w) (console w) (requests w)
                      (listCalls w ++ [(params, answer)])
                      (consolidations w) (uploads w) (mails w) in
    match answer with
    | ListRejected what => (Throw (ProviderError what), w')
    | ListPage data has_more => (Ok (data, has_more), w')
    end.

(** [["paid", "open"].includes(status)] *)
Definition paid_or_open (status : option string) : bool :=
  match status with
  | Some s => String.eqb s "paid" || String.eqb s "open"
  | None => false
  end.

Definition pdfLink (invoice : Invoice.t) : Link.t :=
  Link.mk (Invoice.invoice_pdf invoice) (Invoice.number invoice)
          (Invoice.amount_paid invoice) (Invoice.amount_due invoice).

(** The callback of [invoices.data.forEach], on the two arrays. *)
Definition sortInvoice (lists : list Link.t * list Link.t) (invoice : Invoice.t)
  : list Link.t * list Link.t :=
  let (paidAndOpenLinks, otherStatusLinks) := lists in
  if paid_or_open (Invoice.status invoice)
  then (paidAndOpenLinks ++ [pdfLink invoice], otherStatusLinks)
  else (paidAndOpenLinks, otherStatusLinks ++ [pdfLink invoice]).

(** The [do ... while] loop, from the cursor and the arrays so far. *)
Fixpoint listFrom (fuel : nat) (secret : option string) (gte lte : option Z)
         (starting_after : option string)
         (lists : list Link.t * list Link.t)
  : M (list Link.t * list Link.t) :=
  match fuel with
  | O => hang
  | S fuel' =>
      invoices <- stripe_invoices_list secret
                    (mkListParams 100 starting_after gte lte) ;;
      match fst invoices with
      | None => ret lists
      | Some [] => ret lists
      | Some data =>
          let lists' := fold_left sortInvoice data lists in
          match nth_error data (List.length data - 1) with
          | None => throw (TypeError "Cannot read properties of undefined")
          | Some lastInvoice =>
              if snd invoices
              then listFrom fuel' secret gte lte
                            (Some (Invoice.id lastInvoice)) lists'
              else ret lists'
          end
      end
  end.

Definition getInvoicesList (fuel : nat) (secret : option string)
           (gte lte : option Z) : M (list Link.t * list Link.t) :=
  try_catch (listFrom fuel secret gte lte None ([], []))
    (fun error => say (ErrorRetrievingList error) ;; throw error).

(** ** Pipeline Orchestrator *)

Definition categories (paidAndOpenLinks otherStatusLinks : list Link.t)
  : list (string * list Link.t) :=
  [("Paid_And_Open", paidAndOpenLinks); ("Other_Status", otherStatusLinks)].

(** [monthName] is [undefined] for a month outside the table. *)
Definition outputPathOf (configKey categoryName : string)
           (monthName : option string) (year : Z) : path :=
  path_join_any ["tmp"]
    (toUpperCase configKey +++ "-" +++ categoryName +++ "-" +++
     match monthName with Some m => m | None => "undefined" end +++ "-" +++
     Number_toString year +++ ".pdf").

Definition scratchCategory (categoryName configKey : string) : string :=
  toLowerCase categoryName +++ "_" +++ configKey.

(** The body of the loop over the categories. *)
Definition processCategory (fuel : nat) (category : string * list Link.t)
           (configKey : string) (monthName : option string) (year : Z)
  : M path :=
  let outputPath := outputPathOf configKey (fst category) monthName year in
  (if Nat.ltb 0 (List.length (snd category)) then
     pdfPaths <- downloadPdfs fuel (snd category)
                   (scratchCategory (fst category) configKey) ;;
     mergePdfs pdfPaths outputPath
   else createEmptyPdf outputPath) ;;
  ret outputPath.

Fixpoint processCategories (fuel : nat) (cats : list (string * list Link.t))
         (configKey : string) (monthName : option string) (year : Z)
         (mergedPdfPaths : list path) : M (list path) :=
  match cats with
  | [] => ret mergedPdfPaths
  | category :: rest =>
      outputPath <- processCategory fuel category configKey monthName year ;;
      processCategories fuel rest configKey monthName year
                        (mergedPdfPaths ++ [outputPath])
  end.

Definition processInvoices (fuel : nat)
           (paidAndOpenLinks otherStatusLinks : list Link.t)
           (configKey : string) (monthName : option string) (year : Z)
  : M (list path) :=
  processCategories fuel (categories paidAndOpenLinks otherStatusLinks)
                    configKey monthName year [].

(** The loop over the configured accounts in the handler. *)
Fixpoint collectAccounts (fuel : nat) (configKeys : list string)
         (startDate endDate : option Z) (monthName : option string)
         (parsedYear : Z) (allMergedPdfPaths : list path) : M (list path) :=
  match configKeys with
  | [] => ret allMergedPdfPaths
  | configKey :: rest =>
      let secret :=
        match assoc_string configKey (config E) with
        | Some variable => process_env E variable
        | None => None
        end in
      lists <- getInvoicesList fuel secret startDate endDate ;;
      mergedPdfPaths <- processInvoices fuel (fst lists) (snd lists)
                          configKey monthName parsedYear ;;
      collectAccounts fuel rest startDate endDate monthName parsedYear
                      (allMergedPdfPaths ++ mergedPdfPaths)
  end.

(** ** The handler *)

(** Local time to UTC, in milliseconds. *)
Definition UTC (t : Z) : Z := (t - 1000 * tz_offset E (t / 1000))%Z.

(** [new Date(year, month, date, hours, minutes, seconds, ms).getTime()];
    a year from 0 to 99 stands for 1900 + year. *)
Definition new_Date (year month date hours minutes seconds ms : Z) : option Z :=
  let yr := (if (0 <=? year) && (year <=? 99) then 1900 + year else year)%Z in
  TimeClip (UTC (MakeDate (MakeDay yr month date)
                          (MakeTime hours minutes seconds ms))).

(** [Math.floor(t / 1000)] *)
Definition seconds_of (t : option Z) : option Z :=
  option_map (fun ms => (ms / 1000)%Z) t.

(** [startDate] and [endDate] *)
Definition dateRange (parsedYear parsedMonth : Z) : option Z * option Z :=
  (seconds_of (new_Date parsedYear parsedMonth 1 0 0 0 0),
   seconds_of (new_Date parsedYear (parsedMonth + 1) 0 23 59 59 999)).

(** [cloudinary.uploader.upload(pdfPath, ...)] reads the file and sends it. *)
Definition cloudinary_upload (pdfPath : path) : M string :=
  fun w =>
    match at_path pdfPath w with
    | Some (File data) =>
        match uploader_upload E pdfPath data with
        | Some secure_url =>
            (Ok secure_url,
             mkWorld (fs w) (console w) (requests w) (listCalls w)
                     (consolidations w) (uploads w ++ [pdfPath]) (mails w))
        | None => (Throw (UploadFailed pdfPath), w)
        end
    | Some (Dir _) => (Throw (EISDIR pdfPath), w)
    | None => (Throw (ENOENT pdfPath), w)
    end.

Fixpoint uploadAll (pdfPaths : list path) (uploadedUrls : list string)
  : M (list string) :=
  match pdfPaths with
  | [] => ret uploadedUrls
  | pdfPath :: rest =>
      secure_url <- cloudinary_upload pdfPath ;;
      uploadAll rest (uploadedUrls ++ [secure_url])
  end.

Definition transporter_sendMail (m : Mail) : M unit :=
  fun w =>
    if sendMail E m
    then (Ok tt, mkWorld (fs w) (console w) (requests w) (listCalls w)
                         (consolidations w) (uploads w) (mails w ++ [m]))
    else (Throw (MailFailed (template (mail_to m))), w).

Definition basename (p : path) : string := last p "".

Definition newline : string := String (ascii_of_nat 10) "".

Definition respond (code : Z) (text : string) : M Response :=
  ret (mkResponse code text).

(** The [try] block of the handler and its [catch]. *)
Definition pipeline (fuel : nat) (email : string)
           (parsedYear parsedMonth : Z) : M Response :=
  let monthName := index monthNames parsedMonth in
  let month_text := match monthName with Some m => m | None => "undefined" end in
  let startDate := fst (dateRange parsedYear parsedMonth) in
  let endDate := snd (dateRange parsedYear parsedMonth) in
  try_catch
    (allMergedPdfPaths <-
       collectAccounts fuel (map fst (config E)) startDate endDate
                       monthName parsedYear [] ;;
     uploadedUrls <- uploadAll allMergedPdfPaths [] ;;
     transporter_sendMail
       (mkMail (Some email)
          ("Your Invoices for " +++ month_text +++ " " +++
           Number_toString parsedYear)
          ("Please find attached your invoices for " +++ month_text +++ " " +++
           Number_toString parsedYear +++ ".")
          (map (fun pdfPath => (basename pdfPath, pdfPath)) allMergedPdfPaths)) ;;
     say (EmailSentUser email) ;;
     transporter_sendMail
       (mkMail (process_env E "ADMIN_EMAIL")
          ("Invoices Generated for " +++ month_text +++ " " +++
           Number_toString parsedYear)
          ("Invoices have been generated and sent to " +++ email +++ "." +++
           newline +++ "      Uploaded PDF URLs:" +++ newline +++ "      " +++
           String.concat newline uploadedUrls)
          []) ;;
     say (EmailSentAdmin (process_env E "ADMIN_EMAIL")) ;;
     respond 200 "All data is sent to admin email.")
    (fun error =>
       say (ErrorProcessing error) ;;
       respond 500 "Internal Server Error.").

(** [module.exports] on a request that has a body. *)
Definition handler (fuel : nat) (req : Request) : M Response :=
  if negb (String.eqb (method req) "POST") then
    respond 405 "Method not allowed"
  else if (negb (truthy (year req)) || negb (truthy (month req))
           || negb (truthy (email req)))%bool then
    respond 400 "Year, month, and email are required."
  else
    match parseInt (year req),
          option_map (fun m => round_double (m - 1)) (parseInt (month req)) with
    | Some parsedYear, Some parsedMonth =>
        pipeline fuel (ToString (email req)) parsedYear parsedMonth
    | _, _ => respond 400 "Invalid year or month."
    end.

(** [module.exports]: the destructuring of [req.body] follows the method
    check and is outside the [try] block, so that without a body a POST
    makes the function throw. *)
Definition module_exports (fuel : nat) (req : Incoming) : M Response :=
  match incoming_body req with
  | Some body =>
      handler fuel (mkRequest (incoming_method req) (body_year body)
                              (body_month body) (body_email body))
  | None =>
      if negb (String.eqb (incoming_method req) "POST") then
        respond 405 "Method not allowed"
      else
        throw (TypeError
          "Cannot destructure property 'year' of 'req.body' as it is undefined.")
  end.

End Pipeline.

(** ** A small concrete world

    One configured account, a toy PDF format in which every byte of a file
    is one page, and a scripted provider and HTTP server. *)
Module Demo.

Definition pages_of_bytes (bytes : string) : list page :=
  map (fun a => Page (String a "")) (list_ascii_of_string bytes).

Definition bytes_of_pages (d : list page) : string :=
  String.concat "" (map (fun pg => match pg with Page t => t end) d).

(** Bytes starting with ["<"] (an HTML error page) are no PDF. *)
Definition load (bytes : string) : option (list page) :=
  match bytes with
  | String "<" _ => None
  | _ => Some (pages_of_bytes bytes)
  end.

Definition inv (id : string) (status : string) (pdf number : option string)
  : Invoice.t :=
  Invoice.mk id (Some status) pdf number 0 0.

(** Two paid invoices and a draft without number or PDF. *)
Definition march : list Invoice.t :=
  [inv "in_1" "paid" (Some "https://pay/a") (Some "A-0001");
   inv "in_2" "draft" None None;
   inv "in_3" "paid" (Some "https://pay/b") (Some "A-0002")].

Definition provider (secret : option string) (n : nat) (params : ListParams)
  : ListResponse :=
  match secret with
  | Some key =>
      if String.eqb key "sk_test" then
        match starting_after params with
        | None => ListPage (Some march) false
        | Some _ => ListPage (Some []) false
        end
      else ListRejected "Invalid API Key provided"
  | None => ListRejected "Invalid API Key provided"
  end.

Definition server (n : nat) (url : string) : HttpResult :=
  if String.eqb url "https://pay/a" then HttpResponse "ab" true
  else if String.eqb url "https://pay/b" then
    (if Nat.leb n 1 then HttpRejected else HttpResponse "c" true)
  else HttpRejected.

(** A server whose every response breaks after three bytes. *)
Definition breaking_server (n : nat) (url : string) : HttpResult :=
  HttpResponse "%PD" false.

Definition env_with (srv : nat -> string -> HttpResult) : Env :=
  mkEnv provider srv load bytes_of_pages
        (fun p _ => Some ("https://cdn/" +++ last p ""))
        (fun _ => true)
        (fun _ => 3600%Z)
        [("acme", "STRIPE_KEY_ACME")]
        (fun v => if String.eqb v "STRIPE_KEY_ACME" then Some "sk_test"
                  else if String.eqb v "ADMIN_EMAIL" then Some "admin@acme.test"
                  else None).

Definition env : Env := env_with server.

(** A provider whose every page says [has_more]; only the first call gets
    invoices. *)
Definition endless_env : Env :=
  mkEnv (fun _ n _ => ListPage (Some (if Nat.eqb n 0 then march else [])) true)
        server load bytes_of_pages
        (fun p _ => Some ("https://cdn/" +++ last p ""))
        (fun _ => true)
        (fun _ => 3600%Z)
        [("acme", "STRIPE_KEY_ACME")]
        (fun _ => None).

(** The same account in a month without invoices. *)
Definition quiet_env : Env :=
  mkEnv (fun _ _ _ => ListPage (Some []) false) server load bytes_of_pages
        (fun p _ => Some ("https://cdn/" +++ last p ""))
        (fun _ => true)
        (fun _ => 3600%Z)
        [("acme", "STRIPE_KEY_ACME")]
        (fun _ => None).

Definition link9 : Link.t := Link.mk (Some "https://pay/x") (Some "A-0009") 0 0.

Definition draft : Link.t := Link.mk None None 0 0.

Definition disk : node :=
  Dir [("tmp", Dir [("old.pdf", File "x");
                    ("paid_and_open_acme",
                     Dir [("stale.pdf", File "y");
                          ("sub", Dir [("deep", Dir [("f", File "z")])])])]);
       ("etc", File "cfg")].

Definition world : World := mkWorld disk [] [] [] [] [] [].

Definition request : Request :=
  mkRequest "POST" (JStr "2024") (JStr "3") (JStr "a@b.com").

End Demo.

(** ** Vocabulary of the properties *)

(** The console lines of failed attempts that were retried, the first of
    them being attempt number [attempt]. *)
Fixpoint retried (number : string) (attempt : nat) (errors : list error)
  : list line :=
  match errors with
  | [] => []
  | e :: es =>
      ErrorDownloading number e :: RetryingDownload number attempt
        :: retried number (S attempt) es
  end.

(** The failure of an attempt whose response body broke while it was
    written to the destination. *)
Definition broke_while_streaming (e : error) : bool :=
  match e with
  | StreamFailed _ => true
  | _ => false
  end.

(** The server can answer a request for [url] with the bytes [data]. *)
Definition served (E : Env) (url data : string) : Prop :=
  exists n complete, http_get E n url = HttpResponse data complete.

(** The file at [p] is what a response that broke delivered of the body
    behind [url]. *)
Definition truncated (E : Env) (url : string) (p : path) (w : World) : Prop :=
  exists n body,
    http_get E n url = HttpResponse body false /\
    at_path p w = Some (File body).

(** What a fetch leaves behind: downloaded after the retried failures
    [errors], or abandoned after them and a last failure. *)
Definition fetched (E : Env) (number : string) (dest : path) (attempt d : nat)
           (url : Link.t) (w w' : World) (errors : list error) : Prop :=
  List.length (requests w') <= List.length (requests w) + S (List.length errors) /\
  ((console w' = console w ++ retried number attempt errors
                   ++ [FileDownloaded dest] /\
    List.length errors <= d) \/
   (exists e,
      console w' = console w ++ retried number attempt errors
                     ++ [ErrorDownloading number e; FailedToDownload number 6] /\
      List.length errors = d /\
      (existsb broke_while_streaming (errors ++ [e]) = false -> fs w' = fs w) /\
      (existsb broke_while_streaming (errors ++ [e]) = true ->
       truncated E (template (Link.invoice_pdf url)) dest w') /\
      (falsy (Link.invoice_pdf url) = true ->
       errors ++ [e] = repeat (MissingUrl number) (S d) /\
       requests w' = requests w))).

(** [m] leaves the observation [f] of the world as it was, however it ends. *)
Definition preserves {X A : Type} (f : World -> X) (m : M A) : Prop :=
  forall w, f (snd (m w)) = f w.

(** The provider's answer is a page without invoices ([data] missing or
    empty). *)
Definition empty_page (answer : ListResponse) : bool :=
  match answer with
  | ListPage None _ => true
  | ListPage (Some []) _ => true
  | _ => false
  end.

(** The output paths of the accounts [configKeys], account by account,
    the paid-or-open path of each before its other-status path. *)
Definition expectedPaths (configKeys : list string) (monthName : option string)
           (year : Z) : list path :=
  flat_map (fun configKey =>
              [outputPathOf configKey "Paid_And_Open" monthName year;
               outputPathOf configKey "Other_Status" monthName year])
           configKeys.

(** [s] holds no slash. *)
Fixpoint no_slash (s : string) : bool :=
  match s with
  | EmptyString => true
  | String a s' => negb (Ascii.eqb a "/") && no_slash s'
  end.

(** [s] can name a directory entry: it holds no slash and is neither
    empty nor ["."] nor [".."]. *)
Definition plain (s : string) : bool :=
  no_slash s && negb (String.eqb s "") && negb (String.eqb s ".") &&
  negb (String.eqb s "..").

(** The scratch directories of the accounts [configKeys]. *)
Definition scratchPaths (configKeys : list string) : list path :=
  flat_map (fun configKey =>
              [path_join_any ["tmp"] (scratchCategory "Paid_And_Open" configKey);
               path_join_any ["tmp"] (scratchCategory "Other_Status" configKey)])
           configKeys.

(** The API secret of the account [configKey]. *)
Definition secretOf (E : Env) (configKey : string) : option string :=
  match assoc_string configKey (config E) with
  | Some variable => process_env E variable
  | None => None
  end.

(** The links of [links] that have a URL carry different invoice numbers:
    no two fetches write one file. *)
Definition files_distinct (links : list Link.t) : Prop :=
  NoDup (map Link.invoice_number
             (filter (fun url => negb (falsy (Link.invoice_pdf url))) links)).

(** The invoices of the provider carry numbers without slash. *)
Definition numbers_plain (E : Env) : Prop :=
  forall secret n params data more invoice,
    invoices_list E secret n params = ListPage (Some data) more ->
    In invoice data -> no_slash (template (Invoice.number invoice)) = true.

(** Whatever the server sends loads as a PDF. *)
Definition serves_pdfs (E : Env) : Prop :=
  forall n url body complete,
    http_get E n url = HttpResponse body complete -> pdf_load E body <> None.

(** Nothing sits at [p], or a directory that [fuel] suffices to clear. *)
Definition clearable (fuel : nat) (p : path) (w : World) : bool :=
  match at_path p w with
  | None => true
  | Some (File _) => false
  | Some (Dir es) => Nat.leb (height (Dir es)) fuel
  end.

(** Nothing at [p] or a regular file: [p] is no directory. *)
Definition not_a_directory (p : path) (w : World) : bool :=
  match at_path p w with
  | Some (Dir _) => false
  | _ => true
  end.

(** [/tmp] is a directory and none of the paths [ps] is one. *)
Definition tmp_ready (ps : list path) (w : World) : Prop :=
  (exists es, at_path ["tmp"] w = Some (Dir es)) /\
  Forall (fun p => not_a_directory p w = true) ps.

(** [/tmp] is ready for a run: moreover the scratch directories
    [scratch] can be cleared. *)
Definition run_ready (fuel : nat) (scratch outputs : list path) (w : World)
  : Prop :=
  tmp_ready outputs w /\
  Forall (fun p => clearable fuel p w = true) scratch.

(** The invoices on the pages the provider returned in the calls [calls],
    in the order returned. *)
Definition invoices_of (calls : list (ListParams * ListResponse))
  : list Invoice.t :=
  flat_map (fun call => match snd call with
                        | ListPage (Some data) _ => data
                        | _ => []
                        end) calls.

Definition is_paid_or_open (invoice : Invoice.t) : bool :=
  paid_or_open (Invoice.status invoice).

(** [p] can be written: its parent is a directory and [p] is not one. *)
Definition writable (p : path) (w : World) : bool :=
  match p with
  | [] => false
  | _ =>
      match at_path (removelast p) w with
      | Some (Dir _) => not_a_directory p w
      | _ => false
      end
  end.

(** ** The calendar, as the specification words it *)

(** The number of days of month [m] (1 is January) of year [y]. *)
Definition days_in_month (y m : Z) : Z :=
  match m with
  | 2 => if InLeapYear y then 29 else 28
  | 4 | 6 | 9 | 11 => 30
  | _ => 31
  end%Z.

(** The day number (0 is 1 January 1970) of day [d] of month [m] (1 is
    January) of year [y] in the proleptic Gregorian calendar, by the
    era-based count of civil days. *)
Definition days_from_civil (y m d : Z) : Z :=
  (let y' := if m <=? 2 then y - 1 else y in
   let era := y' / 400 in
   let yoe := y' - era * 400 in
   let mp := (m + 9) mod 12 in
   let doy := (153 * mp + 2) / 5 + d - 1 in
   let doe := yoe * 365 + yoe / 4 - yoe / 100 + doy in
   era * 146097 + doe - 719468)%Z.

(** The Unix-epoch second at which the local clock of the server shows
    [hh:mm:ss] on day [d] of month [m] of year [y]. *)
Definition local_epoch_second (E : Env) (y m d hh mm ss : Z) : Z :=
  (let t := days_from_civil y m d * 86400 + hh * 3600 + mm * 60 + ss in
   t - tz_offset E t)%Z.

(** A year that [Date] takes literally (0 to 99 stand for 1900 to 1999)
    and whose months lie within the range of time values. *)
Definition valid_year (y : Z) : Prop :=
  (-271000 <= y < 0 \/ 100 <= y <= 275000)%Z.

(** ** Numeric fields, as the specification words them *)

(** [s] is made of white-space characters only. *)
Inductive all_spaces : string -> Prop :=
| no_space : all_spaces ""
| more_space (c s : string) :
    In c StrWhiteSpaceChar -> all_spaces s -> all_spaces (c +++ s).

(** [s] begins, after optional white space and an optional sign, with a
    decimal digit. *)
Definition has_leading_integer (s : string) : Prop :=
  exists spaces sign digit rest,
    s = spaces +++ sign +++ String digit rest /\
    all_spaces spaces /\
    (sign = "" \/ sign = "-" \/ sign = "+") /\
    digit_of digit <> None.

(** [s] is a numeric string: one or more decimal digits and nothing else. *)
Fixpoint all_digits (s : string) : bool :=
  match s with
  | EmptyString => false
  | String a EmptyString => match digit_of a with Some _ => true | None => false end
  | String a s' => match digit_of a with Some _ => all_digits s' | None => false end
  end.

(** The callback of the [forEach] in [clearDirectory]. *)
Definition clear_entry (fuel : nat) (directory : path) (file : string) : M unit :=
  let curPath := path_join directory file in
  isDir <- lstatSync_isDirectory curPath ;;
  if isDir then clearDirectory fuel curPath else unlinkSync curPath.

(** What [clearDirectory] comes to on an existing directory. *)
Definition rm_then_mkdir (p : path) : M unit :=
  fun w => mkdirSync p (set_fs (store p None (fs w)) w).

(** ** The form ([frontend/src/App.js]) *)

(** What [handleSubmit] does with the three inputs before any request:
    it refuses them with a message, or posts them as they are. *)
Inductive Submission : Type :=
| Refused (text : string)
| Posted (req : Request).

(** The "basic validation" of [handleSubmit] and the body it posts. *)
Definition submission (year month email : string) : Submission :=
  match parseInt_string year, parseInt_string month with
  | Some parsedYear, Some parsedMonth =>
      if ((parsedMonth <? 1) || (parsedMonth >? 12))%Z
      then Refused "Please enter a valid year and month (1-12)."
      else Posted (mkRequest "POST" (JStr year) (JStr month) (JStr email))
  | _, _ => Refused "Please enter a valid year and month (1-12)."
  end.

(** ** More vocabulary *)

(** The paths [p] and [q] part ways: after a common stem they continue
    with different segments, so neither lies within the other. *)
Definition apart (p q : path) : Prop :=
  exists stem a b p' q',
    p = stem ++ a :: p' /\ q = stem ++ b :: q' /\ a <> b.

(** [m] keeps the invariant [P] of the world, however it ends. *)
Definition keeps {A : Type} (P : World -> Prop) (m : M A) : Prop :=
  forall w, P w -> P (snd (m w)).

(** The scratch directory [tmpDir] exists and holds nothing but regular
    files, whose names and bytes satisfy [Q]. *)
Definition holds_only (tmpDir : path) (Q : string -> string -> Prop)
           (w : World) : Prop :=
  exists es,
    at_path tmpDir w = Some (Dir es) /\
    forall c n, assoc c es = Some n -> exists data, n = File data /\ Q c data.

(** A directory sits at [p] that holds nothing but regular files. *)
Definition flat (p : path) (w : World) : Prop :=
  exists es, at_path p w = Some (Dir es) /\ height (Dir es) <= 1.

(** A regular file sits at [p]. *)
Definition is_file (p : path) (w : World) : Prop :=
  exists data, at_path p w = Some (File data).

(** The file name a link is downloaded to, and the file. *)
Definition fileNameOf (url : Link.t) : string :=
  template (Link.invoice_number url) +++ ".pdf".

Definition destOf (tmpDir : path) (url : Link.t) : path :=
  path_resolve tmpDir (fileNameOf url).

(** What has been delivered: uploads and mails. *)
Definition delivered (w : World) : list path * list Mail :=
  (uploads w, mails w).

(** [invoices.data[invoices.data.length - 1].id], when there is one. *)
Definition lastId (data : list Invoice.t) : option string :=
  option_map Invoice.id (nth_error data (List.length data - 1)).

(** The calls [calls] chain from the cursor [cursor]: each call carries
    the cursor it should, every call but the last got a non-empty page
    with [has_more] set, and the next cursor is the identifier of the last
    invoice of that page. *)
Fixpoint chained (cursor : option string) (calls : list (ListParams * ListResponse))
  : Prop :=
  match calls with
  | [] => True
  | (params, answer) :: rest =>
      starting_after params = cursor /\
      match rest with
      | [] => True
      | _ :: _ =>
          exists data,
            answer = ListPage (Some data) true /\ data <> [] /\
            chained (lastId data) rest
      end
  end.

(** Why the input [p] of a merge cannot be read as a PDF, if it cannot. *)
Definition unreadable_as_pdf (E : Env) (w : World) (p : path) : option error :=
  match at_path p w with
  | None => Some (ENOENT p)
  | Some (Dir _) => Some (EISDIR p)
  | Some (File pdfBytes) =>
      match pdf_load E pdfBytes with
      | None => Some (InvalidPdf p)
      | Some _ => None
      end
  end.

(** A call of the lister asks for a page of 100 within the date range. *)
Definition asks_page (gte lte : option Z) (call : ListParams * ListResponse)
  : Prop :=
  limit (fst call) = 100%Z /\
  created_gte (fst call) = gte /\ created_lte (fst call) = lte.

(** An answer after which the lister asks no more: a page without
    invoices, or a page that does not announce more. *)
Definition ends_listing (answer : ListResponse) : Prop :=
  empty_page answer = true \/ exists data, answer = ListPage (Some data) false.

(** The provider answers the calls [calls], made from its call number
    [n] on, as they say. *)
Fixpoint provided (E : Env) (secret : option string) (n : nat)
         (calls : list (ListParams * ListResponse)) : Prop :=
  match calls with
  | [] => True
  | (params, answer) :: rest =>
      invoices_list E secret n params = answer /\
      provided E secret (S n) rest
  end.

(** The provider serves the listing [calls] from its call number [n] on:
    a chain of at most [fuel] calls for pages of 100 within the date
    range, answered as recorded, of which the last answer ends the
    listing. *)
Definition listing_served (E : Env) (secret : option string)
           (gte lte : option Z) (fuel n : nat)
           (calls : list (ListParams * ListResponse)) : Prop :=
  calls <> [] /\
  List.length calls <= fuel /\
  provided E secret n calls /\
  chained None calls /\
  Forall (asks_page gte lte) calls /\
  ends_listing (snd (last calls (mkListParams 0 None None None,
                                 ListRejected ""))).

(** ** A provider that pages *)

(** The three demo invoices on two pages: the first page announces more,
    and the second is served to the cursor of the first. *)
Definition paging_provider (secret : option string) (n : nat)
           (params : ListParams) : ListResponse :=
  match starting_after params with
  | None => ListPage (Some (firstn 2 Demo.march)) true
  | Some cursor =>
      if String.eqb cursor "in_2"
      then ListPage (Some (skipn 2 Demo.march)) false
      else ListRejected "No such invoice"
  end.

Definition paging_env : Env :=
  mkEnv paging_provider Demo.server Demo.load Demo.bytes_of_pages
        (fun p _ => Some ("https://cdn/" +++ last p ""))
        (fun _ => true)
        (fun _ => 0%Z)
        [("acme", "STRIPE_KEY_ACME")]
        (fun _ => Some "sk_test").

(** [mailOptionsUser] and [mailOptionsAdmin] of the handler. *)
Definition mailOptionsUser (email : string) (monthName : option string)
           (parsedYear : Z) (allMergedPdfPaths : list path) : Mail :=
  let month_text := match monthName with Some m => m | None => "undefined" end in
  mkMail (Some email)
    ("Your Invoices for " +++ month_text +++ " " +++ Number_toString parsedYear)
    ("Please find attached your invoices for " +++ month_text +++ " " +++
     Number_toString parsedYear +++ ".")
    (map (fun pdfPath => (basename pdfPath, pdfPath)) allMergedPdfPaths).

Definition mailOptionsAdmin (E : Env) (email : string)
           (monthName : option string) (parsedYear : Z)
           (uploadedUrls : list string) : Mail :=
  let month_text := match monthName with Some m => m | None => "undefined" end in
  mkMail (process_env E "ADMIN_EMAIL")
    ("Invoices Generated for " +++ month_text +++ " " +++
     Number_toString parsedYear)
    ("Invoices have been generated and sent to " +++ email +++ "." +++
     newline +++ "      Uploaded PDF URLs:" +++ newline +++ "      " +++
     String.concat newline uploadedUrls)
    [].

(** The file at [p] is there and the uploader answers [url] for it. *)
Definition uploaded_as (E : Env) (w : World) (p : path) (url : string) : Prop :=
  exists data,
    at_path p w = Some (File data) /\ uploader_upload E p data = Some url.

(** ** Proof automation for the calendar *)

Ltac is_num a :=
  match a with
  | Z0 => idtac
  | Zpos _ => idtac
  | Zneg _ => idtac
  end.

(** Evaluate the arithmetic on numerals, leaving terms with variables. *)
Ltac closed_step :=
  match goal with
  | |- context [?f ?a ?b] =>
      is_num a; is_num b;
      match f with
      | Z.add => idtac | Z.sub => idtac | Z.mul => idtac
      | Z.div => idtac | Z.modulo => idtac | Z.leb => idtac
      end;
      let v := eval vm_compute in (f a b) in change (f a b) with v
  end.
Ltac closed_arith := repeat (first [closed_step | progress cbv beta iota zeta]).

Ltac month_cases m :=
  let H := fresh "H" in
  assert (H : (m = 1 \/ m = 2 \/ m = 3 \/ m = 4 \/ m = 5 \/ m = 6 \/ m = 7 \/
               m = 8 \/ m = 9 \/ m = 10 \/ m = 11 \/ m = 12)%Z) by lia;
  repeat (destruct H as [H | H]; [subst m|]); [..|subst m].


(** * Properties *)

(** ** The file-system model *)

Lemma assoc_replace_eq c n es : assoc c (replace_entry c n es) = Some n.
Proof.
  induction es as [|[c' n'] es IH]; simpl.
  - now rewrite String.eqb_refl.
  - destruct (String.eqb c c') eqn:E; simpl; rewrite ?String.eqb_refl, ?E; auto.
Qed.

Lemma assoc_replace_ne c c' n es :
  c <> c' -> assoc c' (replace_entry c n es) = assoc c' es.
Proof.
  intros Hne. induction es as [|[d m] es IH]; simpl.
  - destruct (String.eqb c' c) eqn:E; auto.
    apply String.eqb_eq in E. congruence.
  - destruct (String.eqb c d) eqn:E; simpl.
    + apply String.eqb_eq in E. subst d.
      destruct (String.eqb c' c) eqn:E'; auto.
      apply String.eqb_eq in E'. congruence.
    + now rewrite IH.
Qed.

Lemma assoc_remove_eq c es : assoc c (remove_entry c es) = None.
Proof.
  induction es as [|[d m] es IH]; simpl; auto.
  destruct (String.eqb c d) eqn:E; simpl; auto. now rewrite E.
Qed.

Lemma assoc_remove_ne c c' es :
  c <> c' -> assoc c' (remove_entry c es) = assoc c' es.
Proof.
  intros Hne. induction es as [|[d m] es IH]; simpl; auto.
  destruct (String.eqb c d) eqn:E; simpl.
  - apply String.eqb_eq in E. subst d.
    destruct (String.eqb c' c) eqn:E'; auto.
    apply String.eqb_eq in E'. congruence.
  - now rewrite IH.
Qed.

Lemma assoc_set_entry_eq c o es : assoc c (set_entry c o es) = o.
Proof.
  destruct o; simpl; [apply assoc_replace_eq | apply assoc_remove_eq].
Qed.

Lemma assoc_set_entry_ne c c' o es :
  c <> c' -> assoc c' (set_entry c o es) = assoc c' es.
Proof.
  destruct o; simpl; [apply assoc_replace_ne | apply assoc_remove_ne].
Qed.

Lemma remove_entry_absent c es : assoc c es = None -> remove_entry c es = es.
Proof.
  induction es as [|[d m] es IH]; simpl; auto.
  destruct (String.eqb c d) eqn:E; simpl; [discriminate|].
  intros H. now rewrite (IH H).
Qed.

Lemma replace_entry_absent c n es :
  assoc c es = None -> replace_entry c n es = es ++ [(c, n)].
Proof.
  induction es as [|[d m] es IH]; simpl; auto.
  destruct (String.eqb c d) eqn:E; simpl; [discriminate|].
  intros H. now rewrite (IH H).
Qed.

Lemma remove_replace c n es :
  remove_entry c (replace_entry c n es) = remove_entry c es.
Proof.
  induction es as [|[d m] es IH]; simpl.
  - now rewrite String.eqb_refl.
  - destruct (String.eqb c d) eqn:E; simpl; rewrite ?String.eqb_refl, ?E; simpl; auto.
    now rewrite IH.
Qed.

Lemma remove_remove c es :
  remove_entry c (remove_entry c es) = remove_entry c es.
Proof. apply remove_entry_absent, assoc_remove_eq. Qed.

Lemma replace_replace c n m es :
  replace_entry c n (replace_entry c m es) = replace_entry c n es.
Proof.
  induction es as [|[d k] es IH]; simpl.
  - now rewrite String.eqb_refl.
  - destruct (String.eqb c d) eqn:E; simpl; rewrite ?String.eqb_refl, ?E; auto.
    now rewrite IH.
Qed.

Lemma remove_app_last c n es :
  assoc c es = None -> remove_entry c (es ++ [(c, n)]) = es.
Proof.
  intros H. unfold remove_entry. rewrite filter_app. simpl.
  rewrite String.eqb_refl. simpl. rewrite app_nil_r.
  now apply remove_entry_absent.
Qed.

(** Setting an entry twice: the second setting wins, provided the first
    did not delete an entry that the second puts back (which would move
    it to the end of the directory). *)
Lemma set_entry_twice c z x es :
  z = None \/ x <> None \/ assoc c es = None ->
  set_entry c z (set_entry c x es) = set_entry c z es.
Proof.
  intros H. destruct z as [z|], x as [x|]; simpl.
  - apply replace_replace.
  - destruct H as [H|[H|H]]; try congruence. now rewrite remove_entry_absent.
  - apply remove_replace.
  - apply remove_remove.
Qed.

Lemma lookup_app p q cur : lookup (p ++ q) cur = lookup q (lookup p cur).
Proof.
  revert cur. induction p as [|c p IH]; intros cur; simpl; auto.
  destruct cur as [[d|es]|]; auto; destruct q; auto.
Qed.

Lemma lookup_None p : lookup p None = None.
Proof. destruct p; auto. Qed.

Lemma upd_app p q new cur :
  upd (p ++ q) new cur = upd p (upd q new (lookup p cur)) cur.
Proof.
  revert cur. induction p as [|c p IH]; intros cur; simpl; auto.
  destruct cur as [[d|es]|]; auto. now rewrite IH.
Qed.

Lemma lookup_upd_same p x cur n :
  lookup p cur = Some n -> lookup p (upd p x cur) = x.
Proof.
  revert cur. induction p as [|c p IH]; intros cur H; simpl in *; auto.
  destruct cur as [[d|es]|]; try discriminate.
  rewrite assoc_set_entry_eq. now apply IH.
Qed.

Lemma upd_cons_Some c p x n : exists m, upd (c :: p) x (Some n) = Some m.
Proof. simpl. destruct n; eauto. Qed.

Lemma upd_under_Some p x n cur :
  lookup p cur = Some n -> p <> [] -> exists m, upd p x cur = Some m.
Proof.
  destruct p as [|c p]; [congruence|]. intros H _.
  destruct cur as [k|]; [apply upd_cons_Some | simpl in H; discriminate].
Qed.

Lemma upd_Some_is_Some p k n cur :
  lookup p cur = Some n -> exists m, upd p (Some k) cur = Some m.
Proof.
  destruct p as [|c p]; [simpl; eauto|].
  intros H. eapply upd_under_Some; [apply H | discriminate].
Qed.

Lemma upd_upd p y x cur n :
  lookup p cur = Some n -> y = None \/ x <> None ->
  upd p y (upd p x cur) = upd p y cur.
Proof.
  revert cur. induction p as [|c p IH]; intros cur H Hc; simpl in *; auto.
  destruct cur as [[d|es]|]; try discriminate.
  rewrite assoc_set_entry_eq, (IH _ H Hc), set_entry_twice; auto.
  destruct p as [|c' p]; [simpl; tauto|].
  right; left.
  destruct (assoc c es) as [[d'|es']|]; simpl in *; congruence.
Qed.

Lemma replace_entry_same c n es :
  assoc c es = Some n -> replace_entry c n es = es.
Proof.
  induction es as [|[d m] es IH]; simpl; [discriminate|].
  destruct (String.eqb c d) eqn:E.
  - apply String.eqb_eq in E. intros [= ->]. now subst.
  - intros H. now rewrite (IH H).
Qed.

Lemma upd_id p cur n : lookup p cur = Some n -> upd p (Some n) cur = cur.
Proof.
  revert cur. induction p as [|c p IH]; intros cur H; simpl in *; auto.
  destruct cur as [[d|es]|]; try discriminate.
  rewrite (IH _ H). simpl.
  destruct (assoc c es) as [k|] eqn:E.
  - simpl. now rewrite (replace_entry_same _ _ _ E).
  - now rewrite lookup_None in H.
Qed.

Lemma store_Some p x root : p <> [] -> Some (store p x root) = upd p x (Some root).
Proof.
  intros Hp. unfold store. destruct p as [|c p]; [congruence|].
  destruct (upd_cons_Some c p x root) as [m Hm]. now rewrite Hm.
Qed.

Lemma mkdirp_app whole p q cur es :
  lookup p cur = Some (Dir es) ->
  mkdirp whole (p ++ q) cur =
  match mkdirp whole q (Some (Dir es)) with
  | inl e => inl e
  | inr x => inr (upd p x cur)
  end.
Proof.
  revert cur. induction p as [|c p IH]; intros cur H; simpl in *.
  - subst cur. destruct (mkdirp whole q (Some (Dir es))); auto.
  - destruct cur as [[d|es0]|]; try discriminate.
    rewrite (IH _ H). destruct (mkdirp whole q (Some (Dir es))); auto.
Qed.

Lemma height_assoc c es n : assoc c es = Some n -> height n < height (Dir es).
Proof.
  simpl. induction es as [|[d m] es IH]; simpl; [discriminate|].
  destruct (String.eqb c d).
  - intros [= ->]. lia.
  - intros H. specialize (IH H). lia.
Qed.

Lemma height_lookup p cur n root :
  cur = Some root -> lookup p cur = Some n -> height n <= height root.
Proof.
  revert cur root. induction p as [|c p IH]; intros cur root -> H; simpl in *.
  - now injection H as ->.
  - destruct root as [d|es]; try discriminate.
    destruct (assoc c es) as [k|] eqn:E; [|now rewrite lookup_None in H].
    pose proof (height_assoc _ _ _ E). specialize (IH _ k eq_refl H). lia.
Qed.

Lemma assoc_in c es : In c (map fst es) -> exists n, assoc c es = Some n.
Proof.
  induction es as [|[d m] es IH]; simpl; [tauto|].
  destruct (String.eqb c d) eqn:E; eauto.
  intros [->|H]; [now rewrite String.eqb_refl in E | auto].
Qed.

(** ** Directory listings *)

Lemma insert_name_In x c l : In x (insert_name c l) <-> x = c \/ In x l.
Proof.
  induction l as [|d l IH]; cbn [insert_name].
  - cbn. intuition.
  - destruct (String.leb c d); cbn [In]; [intuition|].
    rewrite IH. intuition.
Qed.

Lemma sort_names_In x l : In x (sort_names l) <-> In x l.
Proof.
  induction l as [|c l IH]; cbn [sort_names fold_right]; [reflexivity|].
  fold (sort_names l). rewrite insert_name_In, IH. cbn. intuition.
Qed.

Lemma NoDup_insert_name c l : ~ In c l -> NoDup l -> NoDup (insert_name c l).
Proof.
  induction l as [|d l IH]; intros Hc Hnd; cbn [insert_name].
  - constructor; [easy | constructor].
  - destruct (String.leb c d); [now constructor|].
    inversion Hnd as [|? ? Hd Hl]; subst. constructor.
    + rewrite insert_name_In. intros [->|H]; [apply Hc; now left | easy].
    + apply IH; [|assumption]. intros H. apply Hc. now right.
Qed.

Lemma NoDup_sort_names l : NoDup l -> NoDup (sort_names l).
Proof.
  induction 1 as [|c l Hc _ IH]; cbn [sort_names fold_right]; [constructor|].
  apply NoDup_insert_name; [|exact IH]. fold (sort_names l).
  now rewrite sort_names_In.
Qed.

Lemma insert_name_length c l :
  List.length (insert_name c l) = S (List.length l).
Proof.
  induction l as [|d l IH]; cbn [insert_name]; [reflexivity|].
  destruct (String.leb c d); cbn [List.length]; [reflexivity | now rewrite IH].
Qed.

Lemma NoDup_listing es : NoDup (listing es).
Proof. apply NoDup_sort_names, NoDup_nodup. Qed.

Lemma listing_In c es : In c (listing es) -> In c (map fst es).
Proof. unfold listing. rewrite sort_names_In. apply nodup_In. Qed.

Lemma In_listing c es : In c (map fst es) -> In c (listing es).
Proof. unfold listing. rewrite sort_names_In. apply nodup_In. Qed.

(** ** The monad *)

Lemma bind_Ok {A B} (m : M A) (k : A -> M B) w a w' :
  m w = (Ok a, w') -> bind m k w = k a w'.
Proof. unfold bind. now intros ->. Qed.

Lemma bind_Throw {A B} (m : M A) (k : A -> M B) w e w' :
  m w = (Throw e, w') -> bind m k w = (Throw e, w').
Proof. unfold bind. now intros ->. Qed.

Lemma bind_Hang {A B} (m : M A) (k : A -> M B) w w' :
  m w = (Hang, w') -> bind m k w = (Hang, w').
Proof. unfold bind. now intros ->. Qed.

Lemma bind_ret {A B} (a : A) (k : A -> M B) w : bind (ret a) k w = k a w.
Proof. reflexivity. Qed.

Lemma bind_throw {A B} e (k : A -> M B) w : bind (throw e) k w = (Throw e, w).
Proof. reflexivity. Qed.

Lemma bind_bind {A B C} (m : M A) (f : A -> M B) (g : B -> M C) w :
  bind (bind m f) g w = bind m (fun x => bind (f x) g) w.
Proof. unfold bind. destruct (m w) as [[a|e|] w']; reflexivity. Qed.

Lemma try_catch_Ok {A} (m : M A) h w a w' :
  m w = (Ok a, w') -> try_catch m h w = (Ok a, w').
Proof. unfold try_catch. now intros ->. Qed.

Lemma try_catch_Throw {A} (m : M A) h w e w' :
  m w = (Throw e, w') -> try_catch m h w = h e w'.
Proof. unfold try_catch. now intros ->. Qed.

Lemma try_catch_Hang {A} (m : M A) h w w' :
  m w = (Hang, w') -> try_catch m h w = (Hang, w').
Proof. unfold try_catch. now intros ->. Qed.

Lemma bind_Ok_inv {A B} (m : M A) (k : A -> M B) w b w' :
  bind m k w = (Ok b, w') ->
  exists a w1, m w = (Ok a, w1) /\ k a w1 = (Ok b, w').
Proof.
  unfold bind. destruct (m w) as [[a|e|] w1]; try discriminate. eauto.
Qed.

Lemma bind_enter {B} o (k : unit -> M B) w :
  bind (enter o) k w = k tt (snd (enter o w)).
Proof. reflexivity. Qed.

Lemma bind_say {B} l (k : unit -> M B) w :
  bind (say l) k w = k tt (snd (say l w)).
Proof. reflexivity. Qed.

Lemma set_fs_id w : set_fs (fs w) w = w.
Proof. now destruct w. Qed.

Lemma set_fs_set_fs r r' w : set_fs r (set_fs r' w) = set_fs r w.
Proof. reflexivity. Qed.

Lemma fs_set_fs r w : fs (set_fs r w) = r.
Proof. reflexivity. Qed.

(** ** Directory Stager *)

Section ClearExisting.
Variable fuel : nat.
Hypothesis IHfuel : forall p w es,
  at_path p w = Some (Dir es) -> height (Dir es) <= fuel -> p <> [] ->
  clearDirectory fuel p w = rm_then_mkdir p w.

Lemma clear_entry_local p w es c n :
  at_path p w = Some (Dir es) -> assoc c es = Some n -> height n <= fuel ->
  exists r es',
    clear_entry fuel p c w = (Ok tt, set_fs r w) /\
    Some r = upd p (Some (Dir es')) (Some (fs w)) /\
    forall c', c <> c' -> assoc c' es' = assoc c' es.
Proof.
  intros Hp Hc Hh. unfold clear_entry, path_join. cbv zeta.
  assert (Hat : at_path (p ++ [c]) w = Some n).
  { unfold at_path in *. rewrite lookup_app, Hp. simpl. now rewrite Hc. }
  assert (Hne : p ++ [c] <> []) by (destruct p; discriminate).
  assert (Hrm : Some (store (p ++ [c]) None (fs w)) =
                upd p (Some (Dir (remove_entry c es))) (Some (fs w))).
  { rewrite store_Some, upd_app by assumption. unfold at_path in Hp.
    now rewrite Hp. }
  destruct n as [d|esc].
  - exists (store (p ++ [c]) None (fs w)), (remove_entry c es).
    erewrite bind_Ok by (unfold lstatSync_isDirectory; now rewrite Hat).
    cbv beta iota. unfold unlinkSync. rewrite Hat.
    repeat split; auto. intros; now apply assoc_remove_ne.
  - erewrite bind_Ok by (unfold lstatSync_isDirectory; now rewrite Hat).
    cbv beta iota. rewrite (IHfuel _ _ _ Hat Hh Hne).
    unfold rm_then_mkdir, mkdirSync. rewrite fs_set_fs, Hrm.
    rewrite (mkdirp_app _ p [c] _ (remove_entry c es))
      by (eapply lookup_upd_same; apply Hp).
    simpl. rewrite assoc_remove_eq. simpl.
    rewrite (upd_upd _ _ _ _ _ Hp) by (right; discriminate).
    destruct (upd_Some_is_Some p
                (Dir (replace_entry c (Dir []) (remove_entry c es)))
                _ _ Hp) as [m Hm].
    rewrite Hm. exists m, (replace_entry c (Dir []) (remove_entry c es)).
    repeat split; auto. intros c' Hc'.
    now rewrite assoc_replace_ne, assoc_remove_ne.
Qed.

Lemma clear_entries_local p names : forall w es,
  NoDup names -> at_path p w = Some (Dir es) ->
  (forall c, In c names -> exists n, assoc c es = Some n /\ height n <= fuel) ->
  exists r es',
    forEach names (clear_entry fuel p) w = (Ok tt, set_fs r w) /\
    Some r = upd p (Some (Dir es')) (Some (fs w)).
Proof.
  induction names as [|c names IH]; intros w es Hnd Hp Hall; simpl.
  - exists (fs w), es. rewrite set_fs_id. split; auto.
    unfold at_path in Hp. now rewrite (upd_id _ _ _ Hp).
  - inversion Hnd as [|? ? Hnotin Hnd']; subst.
    destruct (Hall c (or_introl eq_refl)) as (n & Hc & Hh).
    destruct (clear_entry_local p w es c n Hp Hc Hh) as (r & es1 & Hrun & Hr & Hsame).
    rewrite (bind_Ok _ _ _ _ _ Hrun).
    assert (Hp1 : at_path p (set_fs r w) = Some (Dir es1)).
    { unfold at_path. rewrite fs_set_fs, Hr. eapply lookup_upd_same, Hp. }
    destruct (IH (set_fs r w) es1 Hnd' Hp1) as (r2 & es2 & Hrun2 & Hr2).
    { intros c' Hin. rewrite Hsame; [apply Hall; now right|].
      intros ->. contradiction. }
    exists r2, es2. rewrite Hrun2, set_fs_set_fs. split; auto.
    rewrite Hr2, fs_set_fs, Hr. eapply upd_upd; [apply Hp|right; discriminate].
Qed.
End ClearExisting.

Lemma clearDirectory_existing : forall fuel p w es,
  at_path p w = Some (Dir es) -> height (Dir es) <= fuel -> p <> [] ->
  clearDirectory fuel p w = rm_then_mkdir p w.
Proof.
  induction fuel as [|fuel IH]; intros p w es Hp Hh Hne.
  - simpl in Hh. lia.
  - cbn [clearDirectory].
    change (fun file : string => _) with (clear_entry fuel p).
    destruct (clear_entries_local fuel IH p (listing es) w es)
      as (r & es' & Hrun & Hr); auto.
    { apply NoDup_listing. }
    { intros c Hin. apply listing_In, assoc_in in Hin. destruct Hin as [n Hn].
      exists n. split; auto. pose proof (height_assoc _ _ _ Hn). lia. }
    unfold bind at 1. unfold bind at 1. unfold existsSync at 1. rewrite Hp.
    unfold bind at 1. unfold readdirSync at 1. rewrite Hp.
    unfold bind at 1. rewrite Hrun.
    unfold rmSync. destruct p as [|c p]; [congruence|].
    unfold rm_then_mkdir. rewrite fs_set_fs, set_fs_set_fs.
    replace (store (c :: p) None r) with (store (c :: p) None (fs w)); auto.
    assert (E : Some (store (c :: p) None (fs w)) = Some (store (c :: p) None r)).
    { rewrite !store_Some, Hr by discriminate. symmetry.
      eapply upd_upd; [apply Hp | now left]. }
    now injection E.
Qed.

Lemma mkdirp_cons_Dir whole c p es :
  mkdirp whole (c :: p) (Some (Dir es)) =
  match mkdirp whole p (assoc c es) with
  | inl e => inl e
  | inr new => inr (Some (Dir (set_entry c new es)))
  end.
Proof. reflexivity. Qed.

Lemma lookup_chain p : lookup p (Some (chain p)) = Some (Dir []).
Proof.
  induction p as [|c p IH]; simpl; auto. now rewrite String.eqb_refl.
Qed.

Lemma mkdirp_inr_Some whole p cur x : mkdirp whole p cur = inr x -> x <> None.
Proof.
  destruct p as [|c p], cur as [[d|es]|]; simpl; try discriminate;
    try (intros [= <-]; discriminate).
  destruct (mkdirp whole p (assoc c es)); intros [= <-]; discriminate.
Qed.

Lemma mkdirp_stageable whole p : forall cur,
  stageable p cur = true ->
  exists r, mkdirp whole p cur = inr (Some r) /\
            (lookup p cur = None -> lookup p (Some r) = Some (Dir [])).
Proof.
  induction p as [|c p IH]; intros cur Hs.
  - destruct cur as [[d|es]|]; simpl in *; try discriminate.
    + eexists; split; [reflexivity | discriminate].
    + eexists; split; [reflexivity | reflexivity].
  - destruct cur as [[d|es]|]; simpl in Hs; try discriminate.
    + destruct (IH _ Hs) as (r & Hr & Hl). rewrite mkdirp_cons_Dir, Hr.
      eexists; split; [reflexivity|]. cbn [lookup].
      rewrite assoc_set_entry_eq. exact Hl.
    + exists (chain (c :: p)). split; auto. intros _. apply lookup_chain.
Qed.

Lemma stageable_after_rm p : forall cur n,
  lookup p cur = Some n -> stageable p (upd p None cur) = true.
Proof.
  induction p as [|c p IH]; intros cur n H; simpl in *; auto.
  destruct cur as [[d|es]|]; try discriminate. simpl.
  rewrite assoc_set_entry_eq. eapply IH, H.
Qed.

Lemma stageable_not_file p : forall cur d,
  lookup p cur = Some (File d) -> stageable p cur = false.
Proof.
  induction p as [|c p IH]; intros cur d H; simpl in *.
  - now subst cur.
  - destruct cur as [[d'|es]|]; try discriminate. simpl. eapply IH, H.
Qed.

Lemma chain_redo whole p :
  p <> [] -> mkdirp whole p (upd p None (Some (chain p))) = inr (Some (chain p)).
Proof.
  induction p as [|c p IH]; [congruence|]. intros _.
  cbn [chain upd assoc]. rewrite String.eqb_refl.
  destruct p as [|c' p].
  - simpl. now rewrite String.eqb_refl.
  - destruct (upd_cons_Some c' p None (chain (c' :: p))) as [x Hx].
    specialize (IH ltac:(discriminate)). rewrite Hx in *.
    cbn [set_entry replace_entry]. rewrite String.eqb_refl.
    rewrite mkdirp_cons_Dir. cbn [assoc]. rewrite String.eqb_refl, IH.
    cbn [set_entry replace_entry]. now rewrite String.eqb_refl.
Qed.

(** Removing the directory [mkdirp] has just made and making it again
    gives the same tree. *)
Lemma mkdirp_redo whole p : forall cur r,
  p <> [] -> lookup p cur = None -> mkdirp whole p cur = inr r ->
  mkdirp whole p (upd p None r) = inr r.
Proof.
  induction p as [|c p IH]; [congruence|]. intros cur r _ Hl Hm.
  destruct cur as [[d|es]|]; simpl in Hm.
  - discriminate.
  - destruct (mkdirp whole p (assoc c es)) as [e|new] eqn:Hnew; [discriminate|].
    injection Hm as <-. simpl in Hl.
    pose proof (mkdirp_inr_Some _ _ _ _ Hnew) as Hsome.
    cbn [upd]. rewrite assoc_set_entry_eq.
    destruct p as [|c' p].
    + simpl in Hl. cbn [upd]. rewrite set_entry_twice by now left.
      cbn [set_entry]. rewrite (remove_entry_absent _ _ Hl).
      rewrite mkdirp_cons_Dir. now rewrite Hnew.
    + specialize (IH _ _ ltac:(discriminate) Hl Hnew).
      destruct new as [k|]; [|congruence].
      destruct (upd_cons_Some c' p None k) as [y Hy]. rewrite Hy in *.
      rewrite set_entry_twice by (right; left; discriminate).
      rewrite mkdirp_cons_Dir. rewrite assoc_set_entry_eq, IH.
      rewrite set_entry_twice by (right; left; discriminate). reflexivity.
  - injection Hm as <-. now apply chain_redo.
Qed.

Lemma rm_then_mkdir_again p w r :
  p <> [] -> lookup p r = None -> mkdirp p p r = inr (Some (fs w)) ->
  rm_then_mkdir p w = (Ok tt, w).
Proof.
  intros Hp Hl Hm. unfold rm_then_mkdir, mkdirSync.
  rewrite fs_set_fs, store_Some by assumption.
  rewrite (mkdirp_redo _ _ _ _ Hp Hl Hm). cbn [set_fs fs]. now destruct w.
Qed.

(** Staging needs fuel beyond the height of what sits at the directory
    only. *)
Lemma clearDirectory_stages_local :
  forall (fuel : nat) (directory : path) (w : World),
    directory <> [] ->
    stageable directory (Some (fs w)) = true ->
    1 <= fuel ->
    (forall es, at_path directory w = Some (Dir es) -> height (Dir es) <= fuel) ->
    exists w',
      clearDirectory fuel directory w = (Ok tt, w') /\
      at_path directory w' = Some (Dir []) /\
      clearDirectory fuel directory w' = (Ok tt, w') /\
      w' = set_fs (fs w') w.
Proof.
  intros fuel p w Hp Hs Hfuel Hh.
  assert (Hfin : forall r0 : node,
    lookup p (Some r0) = None -> stageable p (Some r0) = true ->
    exists w', mkdirSync p (set_fs r0 w) = (Ok tt, w') /\
               at_path p w' = Some (Dir []) /\
               clearDirectory fuel p w' = (Ok tt, w') /\
               w' = set_fs (fs w') w).
  { intros r0 Hl Hst.
    destruct (mkdirp_stageable p p _ Hst) as (r & Hr & Hlr).
    exists (set_fs r w). unfold mkdirSync. rewrite fs_set_fs, Hr.
    split; [reflexivity|]. split; [exact (Hlr Hl)|]. split; [|reflexivity].
    rewrite (clearDirectory_existing fuel p (set_fs r w) []); auto.
    eapply rm_then_mkdir_again; eauto. }
  destruct (at_path p w) as [[d|es]|] eqn:Hat.
  - unfold at_path in Hat. rewrite (stageable_not_file _ _ _ Hat) in Hs.
    discriminate.
  - rewrite (clearDirectory_existing fuel p w es Hat); auto.
    unfold rm_then_mkdir. apply Hfin.
    + rewrite store_Some by assumption. eapply lookup_upd_same, Hat.
    + rewrite store_Some by assumption. eapply stageable_after_rm, Hat.
  - destruct fuel as [|fuel]; [lia|].
    destruct (Hfin (fs w) Hat Hs) as (w' & Hrun & Hres).
    exists w'. split; auto.
    cbn [clearDirectory]. unfold bind at 1. unfold bind at 1.
    unfold existsSync at 1. rewrite Hat. cbn.
    rewrite set_fs_id in Hrun. exact Hrun.
Qed.

Lemma clearDirectory_stages :
  forall (fuel : nat) (directory : path) (w : World),
    directory <> [] ->
    stageable directory (Some (fs w)) = true ->
    height (fs w) < fuel ->
    exists w',
      clearDirectory fuel directory w = (Ok tt, w') /\
      at_path directory w' = Some (Dir []) /\
      clearDirectory fuel directory w' = (Ok tt, w') /\
      w' = set_fs (fs w') w.
Proof.
  intros fuel p w Hp Hs Hh.
  apply clearDirectory_stages_local; auto; [lia|].
  intros es Hat. pose proof (height_lookup p _ _ _ eq_refl Hat). lia.
Qed.

(** C8.  For every directory path below the root with no regular file at
    it or above it, [clearDirectory] returns (given fuel beyond the height
    of the tree) and leaves an existing, empty directory at the path,
    whether or not the path existed and whatever files and nested
    directories it held; a second call returns too and leaves the very
    same file system. *)
Theorem clearDirectory_leaves_empty_directory :
  forall (fuel : nat) (directory : path) (w : World),
    directory <> [] ->
    stageable directory (Some (fs w)) = true ->
    height (fs w) < fuel ->
    exists w',
      clearDirectory fuel directory w = (Ok tt, w') /\
      at_path directory w' = Some (Dir []) /\
      clearDirectory fuel directory w' = (Ok tt, w').
Proof.
  intros fuel directory w Hp Hs Hh.
  destruct (clearDirectory_stages fuel directory w Hp Hs Hh)
    as (w' & Hrun & Hempty & Hagain & _).
  exists w'. auto.
Qed.

(** ** Resilient Fetcher *)

Section Fetcher.
Variable E : Env.

Lemma http_request_cases url w :
  exists w0,
    console w0 = console w /\ fs w0 = fs w /\
    List.length (requests w0) = S (List.length (requests w)) /\
    (http_request E url w = (Throw (RequestFailed url), w0) \/
     exists body complete,
       http_request E url w = (Ok (body, complete), w0) /\
       http_get E (List.length (requests w)) url = HttpResponse body complete).
Proof.
  unfold http_request.
  exists (mkWorld (fs w) (console w) (requests w ++ [url]) (listCalls w)
                  (consolidations w) (uploads w) (mails w)).
  repeat split.
  - cbn. rewrite length_app. cbn. lia.
  - destruct (http_get E _ url); eauto.
Qed.

Lemma open_w_Ok p data w w' :
  open_w p data w = (Ok tt, w') -> at_path p w' = Some (File data).
Proof.
  unfold open_w. destruct p as [|c p']; [discriminate|]. set (p := c :: p').
  destruct (at_path (removelast p) w) as [[d|es]|] eqn:Hparent; try discriminate.
  assert (Hl : lookup p (Some (store p (Some (File data)) (fs w)))
               = Some (File data)).
  { rewrite store_Some by discriminate.
    rewrite (app_removelast_last "" (l := p)) by discriminate.
    unfold at_path in Hparent.
    rewrite lookup_app, upd_app, (lookup_upd_same _ _ _ _ Hparent), Hparent.
    cbn [upd lookup]. now rewrite assoc_set_entry_eq. }
  destruct (at_path p w) as [[d|es']|]; try discriminate;
    intros [= <-]; exact Hl.
Qed.

Lemma truncated_same_fs url p w w' :
  fs w' = fs w -> truncated E url p w -> truncated E url p w'.
Proof. unfold truncated, at_path. now intros ->. Qed.

Lemma open_w_cases p data w :
  (exists r, open_w p data w = (Ok tt, set_fs r w)) \/
  (exists e, open_w p data w = (Throw e, w) /\ broke_while_streaming e = false).
Proof.
  unfold open_w. destruct p as [|c p]; [right; eauto|].
  destruct (at_path (removelast (c :: p)) w) as [[d|es]|];
    [right; eauto| |right; eauto].
  destruct (at_path (c :: p) w) as [[d|es']|]; [left|right|left]; eauto.
Qed.

(** One attempt either downloads the file, or throws having written
    nothing unless the response body broke, which leaves what it
    delivered at the destination. *)
Lemma attemptDownload_cases url dest w :
  (exists w1,
     attemptDownload E url dest w = (Ok tt, w1) /\
     console w1 = console w ++ [FileDownloaded dest] /\
     List.length (requests w1) = S (List.length (requests w))) \/
  (exists e w1,
     attemptDownload E url dest w = (Throw e, w1) /\
     console w1 = console w /\
     List.length (requests w1) <= S (List.length (requests w)) /\
     (broke_while_streaming e = false -> fs w1 = fs w) /\
     (broke_while_streaming e = true ->
      truncated E (template (Link.invoice_pdf url)) dest w1) /\
     (falsy (Link.invoice_pdf url) = true ->
      e = MissingUrl (template (Link.invoice_number url)) /\ w1 = w)).
Proof.
  unfold attemptDownload.
  destruct (falsy (Link.invoice_pdf url)) eqn:Hf.
  { right. do 2 eexists. rewrite bind_throw. split; [reflexivity|].
    repeat split; auto; discriminate. }
  rewrite bind_ret.
  destruct (http_request_cases (template (Link.invoice_pdf url)) w)
    as (w0 & Hc & Hfs & Hr & [Hrun|(body & complete & Hrun & Hget)]).
  { right. do 2 eexists. rewrite (bind_Throw _ _ _ _ _ Hrun).
    split; [reflexivity|]. repeat split; auto; try lia; discriminate. }
  rewrite (bind_Ok _ _ _ _ _ Hrun). unfold pipelineAsync. cbn [fst snd].
  rewrite bind_bind.
  destruct (open_w_cases dest body w0) as [[r Hop]|(e & Hop & He)].
  - rewrite (bind_Ok _ _ _ _ _ Hop).
    destruct complete.
    + left. eexists. rewrite bind_ret. split; [reflexivity|]. cbn.
      rewrite Hc, Hr. auto.
    + right. do 2 eexists. rewrite bind_throw. split; [reflexivity|]. cbn.
      repeat split; auto; try lia; try discriminate.
      intros _. exists (List.length (requests w)), body.
      split; [exact Hget|]. now apply open_w_Ok in Hop.
  - right. do 2 eexists. rewrite (bind_Throw _ _ _ _ _ Hop).
    split; [reflexivity|].
    repeat split; auto; try lia; try congruence; discriminate.
Qed.

Lemma downloadWithRetry_from d : forall fuel url dest attempt w,
  attempt + d = 6 -> d < fuel ->
  exists w' errors,
    downloadWithRetry E fuel url dest attempt w = (Ok tt, w') /\
    fetched E (template (Link.invoice_number url)) dest attempt d url w w'
            errors.
Proof.
  induction d as [|d IH]; intros fuel url dest attempt w Ha Hfuel;
    (destruct fuel as [|fuel]; [lia|]); cbn [downloadWithRetry];
    set (number := template (Link.invoice_number url)).
  - destruct (attemptDownload_cases url dest w)
      as [(w1 & Hrun & Hc & Hr)
         |(e & w1 & Hrun & Hc & Hr & Hfs & Htr & Hmiss)].
    + rewrite (try_catch_Ok _ _ _ _ _ Hrun). exists w1, []. split; auto.
      split; [cbn; lia|]. left. split; auto.
    + rewrite (try_catch_Throw _ _ _ _ _ Hrun).
      replace (Nat.leb attempt 5) with false
        by (symmetry; apply Nat.leb_gt; lia).
      eexists; exists []. split; [reflexivity|]. replace attempt with 6 by lia.
      split; [cbn; lia|]. right. exists e. cbn. rewrite Hc, <- app_assoc.
      split; [reflexivity|]. split; [reflexivity|]. split; [|split].
      * rewrite orb_false_r. auto.
      * rewrite orb_false_r. intros He.
        eapply truncated_same_fs; [|exact (Htr He)]. reflexivity.
      * intros H. destruct (Hmiss H) as [-> ->]. split; reflexivity.
  - destruct (attemptDownload_cases url dest w)
      as [(w1 & Hrun & Hc & Hr)
         |(e & w1 & Hrun & Hc & Hr & Hfs & Htr & Hmiss)].
    + rewrite (try_catch_Ok _ _ _ _ _ Hrun). exists w1, []. split; auto.
      split; [cbn; lia|]. left. split; auto. cbn; lia.
    + rewrite (try_catch_Throw _ _ _ _ _ Hrun).
      replace (Nat.leb attempt 5) with true
        by (symmetry; apply Nat.leb_le; lia).
      set (w2 := mkWorld (fs w1)
                   (console w1 ++ [ErrorDownloading number e]
                               ++ [RetryingDownload number attempt])
                   (requests w1) (listCalls w1) (consolidations w1)
                   (uploads w1) (mails w1)).
      destruct (IH fuel url dest (attempt + 1) w2 ltac:(lia) ltac:(lia))
        as (w' & errors & Hrun' & Hreq & Hout).
      exists w', (e :: errors). split.
      { rewrite <- Hrun'. unfold bind, say. cbn. subst w2.
        now rewrite <- app_assoc. }
      fold number in Hout. subst w2. cbn in Hreq, Hout. split; [cbn; lia|].
      rewrite Hc, Nat.add_1_r in Hout.
      destruct Hout as [[Hcon Hlen]|(e' & Hcon & Hlen & Hfs' & Htr' & Hmiss')].
      * left. cbn [retried List.length].
        split; [rewrite Hcon, <- !app_assoc; reflexivity | lia].
      * right. exists e'. cbn [retried List.length].
        split; [rewrite Hcon, <- !app_assoc; reflexivity|].
        split; [lia|]. split; [|split].
        -- cbn. intros H. apply orb_false_elim in H. destruct H as [He H].
           rewrite (Hfs' H). auto.
        -- cbn [app existsb]. intros H.
           destruct (existsb broke_while_streaming (errors ++ [e'])) eqn:Hlater;
             [now apply Htr'|].
           rewrite orb_false_r in H.
           eapply truncated_same_fs; [exact (Hfs' eq_refl) | exact (Htr H)].
        -- intros H. destruct (Hmiss H) as [-> <-].
           destruct (Hmiss' H) as [Hrep ->]. split; [|reflexivity].
           cbn [app]. rewrite Hrep. reflexivity.
Qed.

End Fetcher.



(** The scratch directory of the demo disk, holding a file and nested
    directories, staged twice. *)
Lemma clearDirectory_leaves_empty_directory_witness :
  ["tmp"; "paid_and_open_acme"] <> [] /\
  stageable ["tmp"; "paid_and_open_acme"] (Some (fs Demo.world)) = true /\
  height (fs Demo.world) < 6 /\
  exists w',
    clearDirectory 6 ["tmp"; "paid_and_open_acme"] Demo.world = (Ok tt, w') /\
    at_path ["tmp"; "paid_and_open_acme"] w' = Some (Dir []) /\
    clearDirectory 6 ["tmp"; "paid_and_open_acme"] w' = (Ok tt, w').
Proof.
  split; [discriminate|]. split; [reflexivity|]. split; [simpl; lia|].
  apply clearDirectory_leaves_empty_directory;
    [discriminate | reflexivity | simpl; lia].
Defined.

(** ** Frame lemmas: what a computation leaves untouched *)

Section Frame.
Context {X : Type} (f : World -> X).

Lemma preserves_ret {A} (a : A) : preserves f (ret a).
Proof. intros w. reflexivity. Qed.

Lemma preserves_throw {A} e : preserves f (@throw A e).
Proof. intros w. reflexivity. Qed.

Lemma preserves_hang {A} : preserves f (@hang A).
Proof. intros w. reflexivity. Qed.

Lemma preserves_bind {A B} (m : M A) (k : A -> M B) :
  preserves f m -> (forall a, preserves f (k a)) -> preserves f (bind m k).
Proof.
  intros Hm Hk w. unfold bind. specialize (Hm w).
  destruct (m w) as [[a|e|] w1]; cbn in *; auto.
  now rewrite (Hk a w1).
Qed.

Lemma preserves_try_catch {A} (m : M A) h :
  preserves f m -> (forall e, preserves f (h e)) -> preserves f (try_catch m h).
Proof.
  intros Hm Hh w. unfold try_catch. specialize (Hm w).
  destruct (m w) as [[a|e|] w1]; cbn in *; auto.
  now rewrite (Hh e w1).
Qed.

Lemma preserves_forEach {A} (l : list A) (g : A -> M unit) :
  (forall a, preserves f (g a)) -> preserves f (forEach l g).
Proof.
  intros Hg. induction l as [|a l IH]; cbn [forEach].
  - apply preserves_ret.
  - apply preserves_bind; auto.
Qed.

Lemma preserves_forEach_in {A} (l : list A) (g : A -> M unit) :
  (forall a, In a l -> preserves f (g a)) -> preserves f (forEach l g).
Proof.
  induction l as [|a l IH]; intros Hg; cbn [forEach].
  - apply preserves_ret.
  - apply preserves_bind; [apply Hg; now left|].
    intros _. apply IH. intros b Hb. apply Hg. now right.
Qed.

Lemma preserves_if {A} (b : bool) (m1 m2 : M A) :
  preserves f m1 -> preserves f m2 -> preserves f (if b then m1 else m2).
Proof. now destruct b. Qed.

(** A step that changes the file system only. *)
Lemma preserves_fs_only {A} (m : M A) :
  (forall r w, f (set_fs r w) = f w) ->
  (forall w, exists r, snd (m w) = set_fs r w) ->
  preserves f m.
Proof. intros Hf Hm w. destruct (Hm w) as [r ->]. apply Hf. Qed.
End Frame.

Lemma fs_only_existsSync p w : exists r, snd (existsSync p w) = set_fs r w.
Proof. exists (fs w). now rewrite set_fs_id. Qed.

Lemma fs_only_readdirSync p w : exists r, snd (readdirSync p w) = set_fs r w.
Proof.
  exists (fs w). rewrite set_fs_id. unfold readdirSync.
  now destruct (at_path p w) as [[|]|].
Qed.

Lemma fs_only_lstatSync p w :
  exists r, snd (lstatSync_isDirectory p w) = set_fs r w.
Proof.
  exists (fs w). rewrite set_fs_id. unfold lstatSync_isDirectory.
  now destruct (at_path p w) as [[|]|].
Qed.

Lemma fs_only_unlinkSync p w : exists r, snd (unlinkSync p w) = set_fs r w.
Proof.
  unfold unlinkSync. destruct (at_path p w) as [[|]|]; cbn; eauto;
    exists (fs w); now rewrite set_fs_id.
Qed.

Lemma fs_only_rmSync p w : exists r, snd (rmSync p w) = set_fs r w.
Proof.
  unfold rmSync. destruct p; cbn; eauto. exists (fs w); now rewrite set_fs_id.
Qed.

Lemma fs_only_mkdirSync p w : exists r, snd (mkdirSync p w) = set_fs r w.
Proof.
  unfold mkdirSync. destruct (mkdirp p p (Some (fs w))) as [e|[r|]]; cbn; eauto;
    exists (fs w); now rewrite set_fs_id.
Qed.

Lemma fs_only_readFile p w : exists r, snd (readFile p w) = set_fs r w.
Proof.
  exists (fs w). rewrite set_fs_id. unfold readFile.
  now destruct (at_path p w) as [[|]|].
Qed.

Lemma fs_only_open_w p data w : exists r, snd (open_w p data w) = set_fs r w.
Proof.
  destruct (open_w_cases p data w) as [[r ->]|(e & -> & _)]; cbn; eauto.
  exists (fs w); now rewrite set_fs_id.
Qed.

(** The consolidator operations entered are touched by [enter] alone. *)
Section KeepsOperations.
Variable E : Env.

Lemma clearDirectory_keeps_ops fuel : forall p,
  preserves consolidations (clearDirectory fuel p).
Proof.
  induction fuel as [|fuel IH]; intros p; cbn [clearDirectory].
  - apply preserves_hang.
  - repeat first
      [ apply preserves_bind; [|intros ?]
      | apply preserves_if
      | apply preserves_forEach; intros ?
      | apply preserves_ret
      | apply IH
      | apply preserves_fs_only; [reflexivity|intros ?];
        first [ apply fs_only_existsSync | apply fs_only_readdirSync
              | apply fs_only_lstatSync | apply fs_only_unlinkSync
              | apply fs_only_rmSync | apply fs_only_mkdirSync ] ].
Qed.

Lemma say_keeps_ops l : preserves consolidations (say l).
Proof. intros w. reflexivity. Qed.

Lemma http_request_keeps_ops url : preserves consolidations (http_request E url).
Proof. intros w. unfold http_request. now destruct (http_get E _ url). Qed.

Lemma attemptDownload_keeps_ops url dest :
  preserves consolidations (attemptDownload E url dest).
Proof.
  unfold attemptDownload, pipelineAsync.
  repeat first
    [ apply preserves_bind; [|intros ?]
    | apply preserves_if
    | apply preserves_ret
    | apply preserves_throw
    | apply say_keeps_ops
    | apply http_request_keeps_ops
    | apply preserves_fs_only; [reflexivity|intros ?]; apply fs_only_open_w ].
Qed.

Lemma downloadWithRetry_keeps_ops fuel : forall url dest attempt,
  preserves consolidations (downloadWithRetry E fuel url dest attempt).
Proof.
  induction fuel as [|fuel IH]; intros url dest attempt; cbn [downloadWithRetry].
  - apply preserves_hang.
  - apply preserves_try_catch; [apply attemptDownload_keeps_ops|intros e].
    repeat first
      [ apply preserves_bind; [|intros ?]
      | apply preserves_if
      | apply say_keeps_ops
      | apply IH ].
Qed.

Lemma downloadPdfs_keeps_ops fuel urls category :
  preserves consolidations (downloadPdfs E fuel urls category).
Proof.
  unfold downloadPdfs.
  repeat first
    [ apply preserves_bind; [|intros ?]
    | apply preserves_try_catch; [|intros ?]
    | apply preserves_forEach; intros ?
    | apply preserves_ret
    | apply preserves_throw
    | apply say_keeps_ops
    | apply clearDirectory_keeps_ops
    | apply downloadWithRetry_keeps_ops
    | apply preserves_fs_only; [reflexivity|intros ?]; apply fs_only_readdirSync ].
Qed.

Lemma copyPages_keeps_world src indices w :
  snd (copyPages src indices w) = w.
Proof.
  revert w. induction indices as [|i rest IH]; intros w; cbn [copyPages]; auto.
  destruct (nth_error src i); auto.
  unfold bind. specialize (IH w).
  destruct (copyPages src rest w) as [[a|e|] w1]; cbn in *; auto.
Qed.

Lemma mergeInto_keeps_ops pdfPaths : forall mergedPdf,
  preserves consolidations (mergeInto E mergedPdf pdfPaths).
Proof.
  induction pdfPaths as [|pdfPath rest IH]; intros mergedPdf; cbn [mergeInto].
  - apply preserves_ret.
  - apply preserves_bind;
      [apply preserves_fs_only; [reflexivity|intros ?; apply fs_only_readFile]|].
    intros pdfBytes. apply preserves_bind.
    { unfold PDFDocument_load. destruct (pdf_load E pdfBytes);
        [apply preserves_ret | apply preserves_throw]. }
    intros pdfDoc. apply preserves_bind; [|intros ?; apply IH].
    intros w. now rewrite copyPages_keeps_world.
Qed.

Lemma writeFile_keeps_ops p data : preserves consolidations (writeFile p data).
Proof. apply preserves_fs_only; [reflexivity|intros ?; apply fs_only_open_w]. Qed.

Lemma mergePdfs_ops pdfPaths outputPath w :
  consolidations (snd (mergePdfs E pdfPaths outputPath w))
  = consolidations w ++ [Merge pdfPaths outputPath].
Proof.
  unfold mergePdfs. rewrite bind_enter.
  change (consolidations w ++ [Merge pdfPaths outputPath])
    with (consolidations (snd (enter (Merge pdfPaths outputPath) w))).
  generalize (snd (enter (Merge pdfPaths outputPath) w)).
  match goal with |- forall w1, consolidations (snd (?m w1)) = _ =>
    change (preserves consolidations m)
  end.
  repeat first
    [ apply preserves_bind; [|intros ?]
    | apply mergeInto_keeps_ops
    | apply writeFile_keeps_ops
    | apply say_keeps_ops ].
Qed.

Lemma createEmptyPdf_ops outputPath w :
  consolidations (snd (createEmptyPdf E outputPath w))
  = consolidations w ++ [Placeholder outputPath].
Proof.
  unfold createEmptyPdf. rewrite bind_enter. cbv zeta.
  change (consolidations w ++ [Placeholder outputPath])
    with (consolidations (snd (enter (Placeholder outputPath) w))).
  generalize (snd (enter (Placeholder outputPath) w)).
  match goal with |- forall w1, consolidations (snd (?m w1)) = _ =>
    change (preserves consolidations m)
  end.
  repeat first
    [ apply preserves_bind; [|intros ?]
    | apply writeFile_keeps_ops
    | apply say_keeps_ops ].
Qed.
End KeepsOperations.

(** ** Paths *)

Lemma append_assoc (a b c : string) : (a +++ b) +++ c = a +++ b +++ c.
Proof. induction a as [|x a IH]; cbn; [reflexivity | now rewrite IH]. Qed.

Lemma length_append (a b : string) :
  String.length (a +++ b) = String.length a + String.length b.
Proof. induction a as [|x a IH]; cbn; [reflexivity | now rewrite IH]. Qed.

Lemma append_empty (a : string) : a +++ "" = a.
Proof. induction a as [|x a IH]; cbn; [reflexivity | now rewrite IH]. Qed.

Lemma no_slash_append a b : no_slash (a +++ b) = no_slash a && no_slash b.
Proof.
  induction a as [|x a IH]; cbn; [reflexivity|].
  now rewrite IH, andb_assoc.
Qed.

(** A string without slash is one piece. *)
Lemma pieces_no_slash s : forall piece,
  no_slash s = true -> pieces piece s = [piece +++ s].
Proof.
  induction s as [|a s IH]; intros piece; cbn.
  - now rewrite append_empty.
  - intros H. apply andb_true_iff in H. destruct H as [Ha Hs].
    apply negb_true_iff in Ha. rewrite Ha, IH by assumption.
    now rewrite append_assoc.
Qed.

(** On a plain name, [path.join] and [path.resolve] add one segment. *)
Lemma path_join_any_plain p s :
  plain s = true -> path_join_any p s = path_join p s.
Proof.
  unfold plain. intros H.
  apply andb_true_iff in H. destruct H as [H Hdd].
  apply andb_true_iff in H. destruct H as [H Hd].
  apply andb_true_iff in H. destruct H as [Hs He].
  apply negb_true_iff in Hdd, Hd, He.
  unfold path_join_any. rewrite pieces_no_slash by assumption.
  cbn [String.append fold_left]. unfold walk. now rewrite He, Hd, Hdd.
Qed.

Lemma path_resolve_plain p s :
  plain s = true -> path_resolve p s = path_join p s.
Proof.
  intros H. unfold path_resolve. destruct s as [|a s]; [discriminate|].
  destruct (Ascii.eqb_spec a "/") as [->|_]; [discriminate|].
  now apply path_join_any_plain.
Qed.

Lemma plain_long s :
  no_slash s = true -> 3 <= String.length s -> plain s = true.
Proof.
  intros Hs Hl. unfold plain. rewrite Hs.
  destruct s as [|a [|b [|c s]]]; cbn in Hl; try lia.
  cbn [String.eqb negb andb].
  destruct (Ascii.eqb a "."), (Ascii.eqb b "."); reflexivity.
Qed.

(** The file of an invoice whose number holds no slash lies in the
    scratch directory. *)
Lemma destOf_plain tmpDir url :
  no_slash (template (Link.invoice_number url)) = true ->
  destOf tmpDir url = path_join tmpDir (fileNameOf url).
Proof.
  intros H. unfold destOf. apply path_resolve_plain, plain_long.
  - unfold fileNameOf. now rewrite no_slash_append, H.
  - unfold fileNameOf. rewrite length_append. cbn. lia.
Qed.

(** Two paths are equal, or one lies within the other, or they part
    ways. *)
Lemma path_cases (p : path) : forall q,
  p = q \/ (exists c r, q = p ++ c :: r) \/ (exists c r, p = q ++ c :: r) \/
  apart p q.
Proof.
  induction p as [|a p IH]; intros [|b q].
  - now left.
  - right; left. now exists b, q.
  - right; right; left. now exists a, p.
  - destruct (string_dec a b) as [<-|Hab].
    + destruct (IH q) as [->|[(c & r & ->)|[(c & r & ->)|Hap]]].
      * now left.
      * right; left. now exists c, r.
      * right; right; left. now exists c, r.
      * right; right; right.
        destruct Hap as (stem & x & y & p' & q' & -> & -> & Hxy).
        exists (a :: stem), x, y, p', q'. auto.
    + right; right; right. exists [], a, b, p, q. auto.
Qed.

Lemma apart_sym p q : apart p q -> apart q p.
Proof.
  intros (stem & a & b & p' & q' & -> & -> & Hab).
  exists stem, b, a, q', p'. auto.
Qed.

(** ** Names without slash *)

Lemma upper_ascii_slash a : Ascii.eqb (upper_ascii a) "/" = Ascii.eqb a "/".
Proof. destruct a as [[] [] [] [] [] [] [] []]; reflexivity. Qed.

Lemma lower_ascii_slash a : Ascii.eqb (lower_ascii a) "/" = Ascii.eqb a "/".
Proof. destruct a as [[] [] [] [] [] [] [] []]; reflexivity. Qed.

Lemma no_slash_map_string f s :
  (forall a, Ascii.eqb (f a) "/" = Ascii.eqb a "/") ->
  no_slash (map_string f s) = no_slash s.
Proof.
  intros Hf. induction s as [|a s IH]; cbn [map_string no_slash];
    [reflexivity|]. now rewrite Hf, IH.
Qed.

Lemma length_map_string f s :
  String.length (map_string f s) = String.length s.
Proof. induction s as [|a s IH]; cbn; [reflexivity | now rewrite IH]. Qed.

Lemma no_slash_string_of_uint u : no_slash (NilEmpty.string_of_uint u) = true.
Proof. induction u; cbn; auto. Qed.

Lemma no_slash_string_of_Z z : no_slash (string_of_Z z) = true.
Proof.
  unfold string_of_Z, NilZero.string_of_int, NilZero.string_of_uint.
  destruct (Z.to_int z) as [u|u]; destruct u; cbn [no_slash];
    try reflexivity; apply no_slash_string_of_uint.
Qed.

Lemma no_slash_zeros n : no_slash (zeros n) = true.
Proof. induction n as [|n IH]; cbn; auto. Qed.

(** A number is printed without slash. *)
Lemma no_slash_Number_toString x : no_slash (Number_toString x) = true.
Proof.
  unfold Number_toString. cbv zeta.
  assert (Hsign : no_slash (if (x <? 0)%Z then "-" else "") = true)
    by now destruct (x <? 0)%Z.
  destruct (Z.abs x <? 2 ^ 53)%Z; [apply no_slash_string_of_Z|].
  destruct (Infinity <=? Z.abs x)%Z;
    [now rewrite no_slash_append, Hsign|].
  destruct (shortest_from 17 (Z.abs x) _ 1) as [s n].
  pose proof (no_slash_string_of_Z s) as Hs.
  destruct (n <=? 21)%Z.
  - now rewrite !no_slash_append, Hsign, Hs, no_slash_zeros.
  - destruct (string_of_Z s) as [|first rest]; [exact Hsign|].
    cbn [no_slash] in Hs. apply andb_true_iff in Hs. destruct Hs as [H1 H2].
    rewrite no_slash_append, Hsign. cbn [String.append no_slash andb].
    rewrite H1. cbn [andb].
    rewrite no_slash_append. cbn [no_slash Ascii.eqb Bool.eqb negb andb].
    rewrite no_slash_string_of_Z, andb_true_r.
    destruct (_ =? 1)%Z; cbn [no_slash Ascii.eqb Bool.eqb negb andb];
      [reflexivity | exact H2].
Qed.

(** The scratch directory and the output file of an account whose key
    holds no slash lie directly in [/tmp]. *)
Lemma scratch_in_tmp categoryName configKey :
  no_slash categoryName = true -> 3 <= String.length categoryName ->
  no_slash configKey = true ->
  path_join_any ["tmp"] (scratchCategory categoryName configKey)
  = ["tmp"; scratchCategory categoryName configKey].
Proof.
  intros Hc Hl Hk. apply path_join_any_plain, plain_long.
  - unfold scratchCategory, toLowerCase.
    rewrite !no_slash_append, Hk,
      (no_slash_map_string _ _ lower_ascii_slash), Hc. reflexivity.
  - unfold scratchCategory, toLowerCase.
    rewrite length_append, length_map_string. lia.
Qed.

Lemma output_in_tmp configKey categoryName monthName year :
  no_slash configKey = true -> no_slash categoryName = true ->
  (forall m, monthName = Some m -> no_slash m = true) ->
  exists rest,
    outputPathOf configKey categoryName monthName year
    = ["tmp"; toUpperCase configKey +++ "-" +++ rest].
Proof.
  intros Hk Hc Hm. eexists. unfold outputPathOf.
  rewrite path_join_any_plain; [reflexivity|]. apply plain_long.
  - unfold toUpperCase.
    rewrite !no_slash_append, (no_slash_map_string _ _ upper_ascii_slash),
      Hk, Hc, no_slash_Number_toString.
    destruct monthName as [m|]; [now rewrite (Hm m eq_refl) | reflexivity].
  - rewrite !length_append. cbn [String.length]. lia.
Qed.

Lemma upper_ascii_not_p_o a : upper_ascii a <> "p"%char /\ upper_ascii a <> "o"%char.
Proof. destruct a as [[] [] [] [] [] [] [] []]; split; discriminate. Qed.

(** No output file carries the name of a scratch directory: a scratch
    directory begins with a small letter, which an output file does not. *)
Lemma scratch_not_output categoryName configKey configKey' rest :
  categoryName = "Paid_And_Open" \/ categoryName = "Other_Status" ->
  scratchCategory categoryName configKey
  <> toUpperCase configKey' +++ "-" +++ rest.
Proof.
  intros [-> | ->]; unfold scratchCategory;
    [change (toLowerCase "Paid_And_Open") with "paid_and_open"
    |change (toLowerCase "Other_Status") with "other_status"];
    (destruct configKey' as [|a k];
     cbn [toUpperCase map_string String.append]; [discriminate|]);
    intros [= H _]; destruct (upper_ascii_not_p_o a); congruence.
Qed.

(** ** What the stager and the downloads leave alone *)

Lemma apart_cons c p q : apart p q -> apart (c :: p) (c :: q).
Proof.
  intros (stem & a & b & p' & q' & -> & -> & Hab).
  exists (c :: stem), a, b, p', q'. auto.
Qed.

Lemma apart_extend p q name : apart p q -> apart (path_join p name) q.
Proof.
  intros (stem & a & b & p' & q' & -> & -> & Hab).
  exists stem, a, b, (p' ++ [name]), q'. unfold path_join.
  rewrite <- app_assoc. auto.
Qed.

Lemma apart_not_nil p q : apart p q -> p <> [].
Proof.
  intros (stem & a & b & p' & q' & -> & _). destruct stem; discriminate.
Qed.

Lemma lookup_upd_apart p q x : forall cur,
  apart p q -> lookup q (upd p x cur) = lookup q cur.
Proof.
  intros cur (stem & a & b & p' & q' & -> & -> & Hab). revert cur.
  induction stem as [|c stem IH]; intros cur; cbn [app upd lookup].
  - destruct cur as [[d|es]|]; auto.
    now rewrite assoc_set_entry_ne.
  - destruct cur as [[d|es]|]; auto.
    now rewrite assoc_set_entry_eq, IH.
Qed.

Lemma lookup_mkdirp_apart whole p q : forall cur r,
  apart p q -> mkdirp whole p cur = inr r -> lookup q r = lookup q cur.
Proof.
  intros cur r (stem & a & b & p' & q' & -> & -> & Hab). revert cur r.
  induction stem as [|c stem IH]; intros cur r; cbn [app].
  - destruct cur as [[d|es]|]; cbn [mkdirp]; try discriminate.
    + destruct (mkdirp whole p' (assoc a es)) as [e|new]; try discriminate.
      intros [= <-]. cbn [lookup]. now rewrite assoc_set_entry_ne.
    + intros [= <-]. cbn [chain lookup assoc].
      destruct (String.eqb_spec b a) as [->|_]; [congruence|].
      now rewrite lookup_None.
  - destruct cur as [[d|es]|]; cbn [mkdirp]; try discriminate.
    + destruct (mkdirp whole (stem ++ a :: p') (assoc c es)) as [e|new] eqn:Hm;
        try discriminate.
      intros [= <-]. cbn [lookup]. rewrite assoc_set_entry_eq.
      now apply IH.
    + intros [= <-]. cbn [chain lookup assoc]. rewrite String.eqb_refl.
      rewrite (IH None (Some (chain (stem ++ a :: p')))).
      * now rewrite !lookup_None.
      * now destruct (stem ++ a :: p').
Qed.

Section Apart.
Variable q : path.

Lemma at_path_set_fs_same r w :
  lookup q (Some r) = lookup q (Some (fs w)) ->
  at_path q (set_fs r w) = at_path q w.
Proof. auto. Qed.

Lemma unlinkSync_apart p : apart p q -> preserves (at_path q) (unlinkSync p).
Proof.
  intros Hap w. unfold unlinkSync.
  destruct (at_path p w) as [[d|es]|]; auto. cbn [snd].
  apply at_path_set_fs_same.
  rewrite store_Some by (eapply apart_not_nil; eauto).
  now apply lookup_upd_apart.
Qed.

Lemma rmSync_apart p : apart p q -> preserves (at_path q) (rmSync p).
Proof.
  intros Hap w. unfold rmSync. destruct p as [|c p]; auto. cbn [snd].
  apply at_path_set_fs_same. rewrite store_Some by discriminate.
  now apply lookup_upd_apart.
Qed.

Lemma mkdirSync_apart p : apart p q -> preserves (at_path q) (mkdirSync p).
Proof.
  intros Hap w. unfold mkdirSync.
  destruct (mkdirp p p (Some (fs w))) as [e|[r|]] eqn:Hm; auto. cbn [snd].
  apply at_path_set_fs_same. eapply lookup_mkdirp_apart; eauto.
Qed.

Lemma open_w_apart p data : apart p q -> preserves (at_path q) (open_w p data).
Proof.
  intros Hap w. unfold open_w. destruct p as [|c p]; auto.
  destruct (at_path (removelast (c :: p)) w) as [[d|es]|]; auto.
  destruct (at_path (c :: p) w) as [[d|es']|]; auto; cbn [snd];
    apply at_path_set_fs_same; rewrite store_Some by discriminate;
    now apply lookup_upd_apart.
Qed.

Lemma reads_keep_at_path :
  (forall p, preserves (at_path q) (existsSync p)) /\
  (forall p, preserves (at_path q) (readdirSync p)) /\
  (forall p, preserves (at_path q) (lstatSync_isDirectory p)) /\
  (forall l, preserves (at_path q) (say l)).
Proof.
  repeat split; intros p w;
    unfold existsSync, readdirSync, lstatSync_isDirectory, say;
    try destruct (at_path p w) as [[d|es]|]; reflexivity.
Qed.

Lemma clearDirectory_apart fuel : forall directory,
  apart directory q -> preserves (at_path q) (clearDirectory fuel directory).
Proof.
  destruct reads_keep_at_path as (Hex & Hrd & Hls & _).
  induction fuel as [|fuel IH]; intros directory Hap; cbn [clearDirectory];
    [apply preserves_hang|].
  apply preserves_bind; [|intros _; now apply mkdirSync_apart].
  apply preserves_bind; [apply Hex|]. intros present.
  apply preserves_if; [|apply preserves_ret].
  apply preserves_bind; [apply Hrd|]. intros files.
  apply preserves_bind; [|intros _; now apply rmSync_apart].
  apply preserves_forEach. intros file.
  apply preserves_bind; [apply Hls|]. intros isDir.
  apply preserves_if.
  - apply IH. now apply apart_extend.
  - apply unlinkSync_apart. now apply apart_extend.
Qed.

(** X2.  However it ends (returning, throwing, or cut off), the
    Directory Stager changes nothing at a path that parts ways with the
    directory it is given: siblings and everything else outside the
    directory keep their files. *)
Theorem clearDirectory_touches_nothing_outside :
  forall (fuel : nat) (directory : path) (w : World),
    apart directory q ->
    at_path q (snd (clearDirectory fuel directory w)) = at_path q w.
Proof.
  intros fuel directory w Hap. now apply clearDirectory_apart.
Qed.
End Apart.

(** The old file next to the scratch directory of the demo disk. *)
Lemma clearDirectory_touches_nothing_outside_witness :
  apart ["tmp"; "paid_and_open_acme"] ["tmp"; "old.pdf"] /\
  at_path ["tmp"; "old.pdf"]
          (snd (clearDirectory 6 ["tmp"; "paid_and_open_acme"] Demo.world))
  = Some (File "x").
Proof.
  assert (Hap : apart ["tmp"; "paid_and_open_acme"] ["tmp"; "old.pdf"]).
  { exists ["tmp"], "paid_and_open_acme", "old.pdf", [], [].
    repeat split; discriminate. }
  split; [exact Hap|].
  rewrite (clearDirectory_touches_nothing_outside
             ["tmp"; "old.pdf"] 6 ["tmp"; "paid_and_open_acme"] Demo.world Hap).
  reflexivity.
Defined.

Section DownloadsApart.
Variable E : Env.
Variable q : path.

Lemma http_request_keeps_fs url w :
  fs (snd (http_request E url w)) = fs w.
Proof. unfold http_request. now destruct (http_get E _ url). Qed.

Lemma attemptDownload_apart url dest :
  apart dest q -> preserves (at_path q) (attemptDownload E url dest).
Proof.
  intros Hap. destruct reads_keep_at_path with (q := q) as (_ & _ & _ & Hsay).
  unfold attemptDownload, pipelineAsync.
  repeat first
    [ apply preserves_bind; [|intros ?]
    | apply preserves_if
    | apply preserves_ret
    | apply preserves_throw
    | apply Hsay
    | apply open_w_apart; exact Hap ].
  intros w. unfold at_path. now rewrite http_request_keeps_fs.
Qed.

Lemma downloadWithRetry_apart fuel : forall url dest attempt,
  apart dest q ->
  preserves (at_path q) (downloadWithRetry E fuel url dest attempt).
Proof.
  destruct reads_keep_at_path with (q := q) as (_ & _ & _ & Hsay).
  induction fuel as [|fuel IH]; intros url dest attempt Hap;
    cbn [downloadWithRetry].
  - apply preserves_hang.
  - apply preserves_try_catch; [now apply attemptDownload_apart|intros e].
    repeat first
      [ apply preserves_bind; [|intros ?]
      | apply preserves_if
      | apply Hsay
      | apply IH; exact Hap ].
Qed.

Lemma downloadPdfs_apart fuel urls category :
  apart (path_join_any ["tmp"] category) q ->
  Forall (fun url => apart (destOf (path_join_any ["tmp"] category) url) q)
         urls ->
  preserves (at_path q) (downloadPdfs E fuel urls category).
Proof.
  intros Hap Hdest.
  destruct reads_keep_at_path with (q := q) as (_ & Hrd & _ & Hsay).
  unfold downloadPdfs. cbv zeta.
  apply preserves_bind; [now apply clearDirectory_apart|].
  intros _. apply preserves_bind.
  { apply preserves_forEach_in. intros url Hin.
    apply downloadWithRetry_apart.
    exact (proj1 (Forall_forall _ _) Hdest url Hin). }
  intros _. apply preserves_try_catch.
  - repeat first
      [ apply preserves_bind; [|intros ?]
      | apply preserves_ret | apply Hsay | apply Hrd ].
  - intros e. apply preserves_bind; [apply Hsay|intros _; apply preserves_throw].
Qed.

(** The destinations of links whose invoice numbers hold no slash part
    ways with what parts ways with the scratch directory. *)
Lemma destinations_apart tmpDir urls :
  apart tmpDir q ->
  Forall (fun url =>
            no_slash (template (Link.invoice_number url)) = true \/
            apart (destOf tmpDir url) q) urls ->
  Forall (fun url => apart (destOf tmpDir url) q) urls.
Proof.
  intros Hap Hall. eapply Forall_impl; [|exact Hall].
  intros url [Hplain|Hd]; [|exact Hd].
  rewrite destOf_plain by assumption. now apply apart_extend.
Qed.

(** X3.  However it ends, downloading a category changes nothing at a
    path that parts ways with the category's scratch directory and with
    the file of every link: the downloads write at these places only.
    The file of a link whose invoice number holds no slash lies inside the
    scratch directory; an invoice number with a slash can place it
    elsewhere. *)
Theorem downloadPdfs_writes_inside_scratch_directory_only :
  forall (fuel : nat) (urls : list Link.t) (category : string) (w : World),
    let tmpDir := path_join_any ["tmp"] category in
    apart tmpDir q ->
    Forall (fun url =>
              no_slash (template (Link.invoice_number url)) = true \/
              apart (destOf tmpDir url) q) urls ->
    at_path q (snd (downloadPdfs E fuel urls category w)) = at_path q w.
Proof.
  intros fuel urls category w tmpDir Hap Hall.
  apply downloadPdfs_apart; [exact Hap|].
  now apply destinations_apart.
Qed.
End DownloadsApart.

(** The old file in [/tmp] while an invoice of the demo account is
    downloaded next to it; and an invoice number that leads out of the
    scratch directory. *)
Lemma downloadPdfs_writes_inside_scratch_directory_only_witness :
  at_path ["tmp"; "old.pdf"]
          (snd (downloadPdfs Demo.env 6 [Demo.link9] "paid_and_open_acme"
                             Demo.world))
  = Some (File "x") /\
  destOf ["tmp"; "paid_and_open_acme"]
         (Link.mk (Some "https://pay/a") (Some "../old") 0 0)
  = ["tmp"; "old.pdf"].
Proof.
  split; [|reflexivity].
  rewrite (downloadPdfs_writes_inside_scratch_directory_only
             Demo.env ["tmp"; "old.pdf"] 6 [Demo.link9] "paid_and_open_acme"
             Demo.world).
  - reflexivity.
  - exists ["tmp"], "paid_and_open_acme", "old.pdf", [], [].
    repeat split; discriminate.
  - constructor; [left; reflexivity | constructor].
Defined.

(** ** When the stager cannot stage *)

Lemma stageable_dir p : forall cur es,
  lookup p cur = Some (Dir es) -> stageable p cur = true.
Proof.
  induction p as [|c p IH]; intros cur es H; cbn in *.
  - now subst cur.
  - destruct cur as [[d|es']|]; try discriminate. cbn. eapply IH, H.
Qed.

Lemma mkdirp_file_in_the_way whole p : forall cur,
  stageable p cur = false -> exists e, mkdirp whole p cur = inl e.
Proof.
  induction p as [|c p IH]; intros cur Hs.
  - destruct cur as [[d|es]|]; cbn in *; try discriminate. eauto.
  - destruct cur as [[d|es]|]; cbn in Hs; try discriminate.
    + cbn. eauto.
    + destruct (IH _ Hs) as [e He]. rewrite mkdirp_cons_Dir, He. eauto.
Qed.

(** X4.  When a regular file sits at the directory's path or at one of
    its ancestors, the Directory Stager throws and leaves the file system
    and everything else as it was. *)
Theorem clearDirectory_throws_when_a_file_is_in_the_way :
  forall (fuel : nat) (directory : path) (w : World),
    stageable directory (Some (fs w)) = false ->
    exists e, clearDirectory (S fuel) directory w = (Throw e, w).
Proof.
  intros fuel p w Hs. cbn [clearDirectory].
  destruct (at_path p w) as [[d|es]|] eqn:Hat.
  - exists (ENOTDIR p). unfold bind at 1. unfold bind at 1.
    unfold existsSync at 1. rewrite Hat.
    unfold bind at 1. unfold readdirSync at 1. now rewrite Hat.
  - unfold at_path in Hat. rewrite (stageable_dir _ _ _ Hat) in Hs.
    discriminate.
  - destruct (mkdirp_file_in_the_way p p _ Hs) as [e He]. exists e.
    unfold bind at 1. unfold bind at 1. unfold existsSync at 1. rewrite Hat.
    cbn. unfold mkdirSync. now rewrite He.
Qed.

(** The configuration file of the demo disk taken for a directory, and a
    directory wanted below it. *)
Lemma clearDirectory_throws_when_a_file_is_in_the_way_witness :
  stageable ["etc"; "x"] (Some (fs Demo.world)) = false /\
  clearDirectory 1 ["etc"] Demo.world = (Throw (ENOTDIR ["etc"]), Demo.world) /\
  exists e, clearDirectory 1 ["etc"; "x"] Demo.world = (Throw e, Demo.world).
Proof.
  split; [reflexivity|]. split; [reflexivity|].
  apply (clearDirectory_throws_when_a_file_is_in_the_way 0 ["etc"; "x"]
           Demo.world).
  reflexivity.
Defined.

(** ** Invariants kept however a computation ends *)

Section Keeps.
Variable P : World -> Prop.

Lemma keeps_ret {A} (a : A) : keeps P (ret a).
Proof. intros w H. exact H. Qed.

Lemma keeps_throw {A} e : keeps P (@throw A e).
Proof. intros w H. exact H. Qed.

Lemma keeps_hang {A} : keeps P (@hang A).
Proof. intros w H. exact H. Qed.

Lemma keeps_bind {A B} (m : M A) (k : A -> M B) :
  keeps P m -> (forall a, keeps P (k a)) -> keeps P (bind m k).
Proof.
  intros Hm Hk w H. unfold bind. specialize (Hm w H).
  destruct (m w) as [[a|e|] w1]; cbn in *; auto. now apply Hk.
Qed.

Lemma keeps_try_catch {A} (m : M A) h :
  keeps P m -> (forall e, keeps P (h e)) -> keeps P (try_catch m h).
Proof.
  intros Hm Hh w H. unfold try_catch. specialize (Hm w H).
  destruct (m w) as [[a|e|] w1]; cbn in *; auto. now apply Hh.
Qed.

Lemma keeps_forEach {A} (l : list A) (g : A -> M unit) :
  (forall a, In a l -> keeps P (g a)) -> keeps P (forEach l g).
Proof.
  induction l as [|a l IH]; intros Hg; cbn [forEach].
  - apply keeps_ret.
  - apply keeps_bind; [apply Hg; now left|].
    intros _. apply IH. intros b Hb. apply Hg. now right.
Qed.

Lemma keeps_if {A} (b : bool) (m1 m2 : M A) :
  keeps P m1 -> keeps P m2 -> keeps P (if b then m1 else m2).
Proof. now destruct b. Qed.

(** A step that leaves the file system alone keeps what depends on the
    file system only. *)
Lemma keeps_same_fs {A} (m : M A) :
  (forall w w', fs w' = fs w -> P w -> P w') ->
  (forall w, fs (snd (m w)) = fs w) -> keeps P m.
Proof. intros HP Hm w H. eapply HP; eauto. Qed.
End Keeps.

Lemma lookup_upd_None p : forall cur,
  p <> [] -> lookup p (upd p None cur) = None.
Proof.
  induction p as [|c p IH]; intros cur Hp; [congruence|].
  cbn [upd]. destruct cur as [[d|es]|]; cbn [lookup]; auto.
  rewrite assoc_set_entry_eq.
  destruct p as [|c' p]; [reflexivity|]. apply IH. discriminate.
Qed.

Lemma mkdirp_absent_empty whole p : forall cur r,
  lookup p cur = None -> mkdirp whole p cur = inr (Some r) ->
  lookup p (Some r) = Some (Dir []).
Proof.
  induction p as [|c p IH]; intros cur r Hl.
  - cbn in Hl. subst cur. cbn. now intros [= <-].
  - destruct cur as [[d|es]|]; cbn [mkdirp]; try discriminate.
    + destruct (mkdirp whole p (assoc c es)) as [e|new] eqn:Hm;
        try discriminate.
      intros [= <-]. cbn [lookup] in Hl |- *.
      rewrite assoc_set_entry_eq.
      destruct new as [r'|]; [eapply IH; eauto|].
      now apply mkdirp_inr_Some in Hm.
    + intros [= <-]. apply lookup_chain.
Qed.

(** Whenever the stager returns, the directory is there and empty. *)
Lemma clearDirectory_Ok_empty fuel p w w' :
  clearDirectory fuel p w = (Ok tt, w') -> at_path p w' = Some (Dir []).
Proof.
  destruct fuel as [|fuel]; [discriminate|]. cbn [clearDirectory].
  intros Hrun. apply bind_Ok_inv in Hrun.
  destruct Hrun as ([] & wa & Hbefore & Hmk).
  assert (Habsent : at_path p wa = None).
  { apply bind_Ok_inv in Hbefore. destruct Hbefore as (present & w0 & Hex & Hb).
    unfold existsSync in Hex. injection Hex as <- <-.
    destruct (at_path p w) as [n|] eqn:Hat; [|now injection Hb as <-].
    apply bind_Ok_inv in Hb. destruct Hb as (files & w1 & _ & Hb).
    apply bind_Ok_inv in Hb. destruct Hb as ([] & w2 & _ & Hrm).
    unfold rmSync in Hrm. destruct p as [|c p]; [discriminate|].
    injection Hrm as <-. unfold at_path. cbn [fs set_fs].
    rewrite store_Some by discriminate. apply lookup_upd_None. discriminate. }
  unfold mkdirSync in Hmk.
  destruct (mkdirp p p (Some (fs wa))) as [e|[r|]] eqn:Hm; try discriminate.
  injection Hmk as <-. unfold at_path. cbn [fs set_fs].
  eapply mkdirp_absent_empty; eauto.
Qed.

Lemma lookup_store_parent d c x w es :
  at_path d w = Some (Dir es) ->
  lookup d (Some (store (d ++ [c]) x (fs w))) = Some (Dir (set_entry c x es)).
Proof.
  intros Hat. unfold at_path in Hat.
  rewrite store_Some by (destruct d; discriminate).
  rewrite upd_app, Hat. now rewrite (lookup_upd_same _ _ _ _ Hat).
Qed.

Lemma writeFile_writable p data w :
  writable p w = true ->
  exists r, writeFile p data w = (Ok tt, set_fs r w) /\
            lookup p (Some r) = Some (File data).
Proof.
  unfold writable, writeFile, open_w, not_a_directory.
  destruct p as [|c p']; [discriminate|]. set (p := c :: p').
  destruct (at_path (removelast p) w) as [[d|es]|] eqn:Hparent; try discriminate.
  intros Hnd. exists (store p (Some (File data)) (fs w)). split.
  - destruct (at_path p w) as [[d|es']|]; try discriminate; reflexivity.
  - rewrite store_Some by discriminate.
    rewrite (app_removelast_last "" (l := p)) by discriminate.
    unfold at_path in Hparent.
    rewrite lookup_app, upd_app, (lookup_upd_same _ _ _ _ Hparent), Hparent.
    cbn [upd lookup]. now rewrite assoc_set_entry_eq.
Qed.

(** ** What a category's download returns *)

Lemma holds_only_same_fs tmpDir Q w w' :
  fs w' = fs w -> holds_only tmpDir Q w -> holds_only tmpDir Q w'.
Proof. unfold holds_only, at_path. now intros ->. Qed.

Lemma is_file_same_fs p w w' : fs w' = fs w -> is_file p w -> is_file p w'.
Proof. unfold is_file, at_path. now intros ->. Qed.

Lemma lookup_within p c r cur n :
  lookup (p ++ c :: r) cur = Some n -> exists es, lookup p cur = Some (Dir es).
Proof.
  rewrite lookup_app.
  destruct (lookup p cur) as [[d|es]|]; cbn [lookup]; try discriminate. eauto.
Qed.

(** A file directly inside a directory of regular files can be opened. *)
Lemma open_w_directly tmpDir c data w es :
  at_path tmpDir w = Some (Dir es) ->
  (forall c n, assoc c es = Some n -> exists d, n = File d) ->
  open_w (path_join tmpDir c) data w
  = (Ok tt, set_fs (store (path_join tmpDir c) (Some (File data)) (fs w)) w).
Proof.
  intros Hat Hall. unfold open_w, path_join.
  destruct (tmpDir ++ [c]) as [|c0 rest] eqn:Hp; [now destruct tmpDir|].
  rewrite <- Hp, removelast_last, Hat.
  unfold at_path in *. rewrite lookup_app, Hat. cbn [lookup].
  destruct (assoc c es) as [n|] eqn:Hc; [|reflexivity].
  now destruct (Hall c n Hc) as (d & ->).
Qed.

(** Opening [dest] leaves a directory of regular files as it is, unless
    [dest] lies directly inside it, which then holds the file. *)
Lemma open_w_in_directory tmpDir dest data w es :
  at_path tmpDir w = Some (Dir es) ->
  (forall c n, assoc c es = Some n -> exists d, n = File d) ->
  at_path tmpDir (snd (open_w dest data w)) = Some (Dir es) \/
  exists c,
    dest = path_join tmpDir c /\
    at_path tmpDir (snd (open_w dest data w))
    = Some (Dir (set_entry c (Some (File data)) es)).
Proof.
  intros Hat Hall.
  destruct (path_cases tmpDir dest) as [<-|[(c & r & ->)|[(c & r & ->)|Hap]]].
  - left. replace (snd (open_w tmpDir data w)) with w; [exact Hat|].
    unfold open_w. destruct tmpDir as [|c p]; [reflexivity|].
    destruct (at_path (removelast (c :: p)) w) as [[d|es0]|]; try reflexivity.
    now rewrite Hat.
  - destruct r as [|c' r].
    + right. exists c. split; [reflexivity|].
      fold (path_join tmpDir c).
      rewrite (open_w_directly tmpDir c data w es Hat Hall). cbn [snd].
      unfold at_path. cbn [fs set_fs]. now apply lookup_store_parent.
    + left. replace (snd (open_w (tmpDir ++ c :: c' :: r) data w)) with w;
        [exact Hat|].
      unfold open_w.
      destruct (tmpDir ++ c :: c' :: r) as [|c0 rest] eqn:Hp; [reflexivity|].
      rewrite <- Hp. rewrite removelast_app by discriminate.
      change (removelast (c :: c' :: r)) with (c :: removelast (c' :: r)).
      unfold at_path in *. rewrite lookup_app, Hat. cbn [lookup].
      destruct (assoc c es) as [n|] eqn:Hc.
      * destruct (Hall c n Hc) as (d & ->).
        now destruct (removelast (c' :: r)).
      * now rewrite lookup_None.
  - left. replace (snd (open_w dest data w)) with w; [exact Hat|].
    unfold open_w. destruct dest as [|c0 p]; [reflexivity|].
    destruct (at_path (removelast (c0 :: p)) w) as [[d|es0]|]; try reflexivity.
    unfold at_path in *. apply lookup_within in Hat.
    destruct Hat as (es1 & ->). reflexivity.
  - left. rewrite <- Hat.
    exact (open_w_apart tmpDir dest data (apart_sym _ _ Hap) w).
Qed.

Lemma open_w_holds_only tmpDir Q dest data :
  (forall c, dest = path_join tmpDir c -> Q c data) ->
  keeps (holds_only tmpDir Q) (open_w dest data).
Proof.
  intros HQ w (es & Hat & Hall).
  destruct (open_w_in_directory tmpDir dest data w es Hat) as [Hsame|(c & -> & Hnew)].
  - intros c n Hc. destruct (Hall c n Hc) as (d & -> & _). eauto.
  - exists es. auto.
  - eexists. split; [exact Hnew|].
    intros c' n. destruct (string_dec c c') as [<-|Hne].
    + rewrite assoc_set_entry_eq. intros [= <-]. eauto.
    + rewrite assoc_set_entry_ne by assumption. apply Hall.
Qed.

(** A file in such a directory stays one. *)
Lemma open_w_keeps_file tmpDir Q name dest data :
  (forall c, dest = path_join tmpDir c -> Q c data) ->
  keeps (fun w => holds_only tmpDir Q w /\ is_file (path_join tmpDir name) w)
        (open_w dest data).
Proof.
  intros HQ w [Hinv (d0 & Hfile)].
  split; [now apply open_w_holds_only|].
  destruct Hinv as (es & Hat & Hall).
  assert (Hentry : assoc name es = Some (File d0)).
  { unfold at_path, path_join in *. now rewrite lookup_app, Hat in Hfile. }
  assert (Hfiles : forall c n, assoc c es = Some n -> exists d, n = File d).
  { intros c n Hc. destruct (Hall c n Hc) as (d & -> & _). eauto. }
  destruct (open_w_in_directory tmpDir dest data w es Hat Hfiles)
    as [Hsame|(c & -> & Hnew)]; unfold is_file, at_path, path_join in *;
    rewrite lookup_app.
  - rewrite Hsame. cbn [lookup]. eauto.
  - rewrite Hnew. cbn [lookup]. destruct (string_dec c name) as [<-|Hne].
    + rewrite assoc_set_entry_eq. eauto.
    + rewrite assoc_set_entry_ne by assumption. eauto.
Qed.

Lemma height_replace_file c d es :
  height (Dir (replace_entry c (File d) es)) <= height (Dir es).
Proof.
  cbn [height]. apply le_n_S.
  induction es as [|[c' n'] es IH]; cbn [replace_entry fold_right snd height];
    [lia|].
  destruct (String.eqb c c'); cbn [fold_right snd height]; lia.
Qed.

Lemma height_flat_files es :
  height (Dir es) <= 1 ->
  forall c n, assoc c es = Some n -> exists d, n = File d.
Proof.
  intros Hh c n Hc. pose proof (height_assoc _ _ _ Hc) as Hlt.
  destruct n as [d|es']; [eauto|].
  assert (1 <= height (Dir es')) by (cbn [height]; lia). lia.
Qed.

Lemma flat_same_fs p w w' : fs w' = fs w -> flat p w -> flat p w'.
Proof. unfold flat, at_path. now intros ->. Qed.

Lemma open_w_flat tmpDir dest data : keeps (flat tmpDir) (open_w dest data).
Proof.
  intros w (es & Hat & Hh).
  destruct (open_w_in_directory tmpDir dest data w es Hat
                                (height_flat_files es Hh))
    as [Hsame|(c & -> & Hnew)].
  - exists es. auto.
  - eexists. split; [exact Hnew|]. cbn [set_entry].
    pose proof (height_replace_file c data es). lia.
Qed.

(** What the fetcher keeps, given what opening its destination keeps. *)
Section FetchKeeps.
Variable E : Env.
Variable P : World -> Prop.
Hypothesis P_fs : forall w w', fs w' = fs w -> P w -> P w'.
Variable url : Link.t.
Variable dest : path.
Hypothesis P_open :
  forall data,
    served E (template (Link.invoice_pdf url)) data ->
    keeps P (open_w dest data).

Lemma attemptDownload_keeps : keeps P (attemptDownload E url dest).
Proof.
  intros w Hinv. unfold attemptDownload.
  destruct (falsy (Link.invoice_pdf url)); [exact Hinv|]. rewrite bind_ret.
  unfold bind at 1.
  destruct (http_request_cases E (template (Link.invoice_pdf url)) w)
    as (w0 & _ & Hfs & _ & [Hr|(body & complete & Hr & Hget)]); rewrite Hr.
  - eapply P_fs; eauto.
  - assert (H0 : P w0) by (eapply P_fs; eauto).
    clear Hfs Hr. revert w0 H0. change (keeps P
      (pipelineAsync (template (Link.invoice_pdf url)) (body, complete) dest ;;
       say (FileDownloaded dest))).
    unfold pipelineAsync.
    repeat first
      [ apply keeps_bind; [|intros ?]
      | apply keeps_if
      | apply keeps_ret
      | apply keeps_throw
      | apply P_open; now exists (List.length (requests w)), complete
      | apply keeps_same_fs; [exact P_fs | reflexivity] ].
Qed.

Lemma retry_keeps fuel attempt e :
  (forall attempt', keeps P (downloadWithRetry E fuel url dest attempt')) ->
  keeps P
    (say (ErrorDownloading (template (Link.invoice_number url)) e) ;;
     if Nat.leb attempt 5 then
       say (RetryingDownload (template (Link.invoice_number url)) attempt) ;;
       downloadWithRetry E fuel url dest (attempt + 1)
     else say (FailedToDownload (template (Link.invoice_number url)) attempt)).
Proof.
  intros IH.
  repeat first
    [ apply keeps_bind; [|intros ?]
    | apply keeps_if
    | apply IH
    | apply keeps_same_fs; [exact P_fs | reflexivity] ].
Qed.

Lemma downloadWithRetry_keeps fuel : forall attempt,
  keeps P (downloadWithRetry E fuel url dest attempt).
Proof.
  induction fuel as [|fuel IH]; intros attempt; cbn [downloadWithRetry].
  - apply keeps_hang.
  - apply keeps_try_catch; [apply attemptDownload_keeps|intros e].
    now apply retry_keeps.
Qed.
End FetchKeeps.

Section Returned.
Variable E : Env.

Lemma downloadWithRetry_holds_only tmpDir Q fuel url dest attempt :
  (forall c data,
     dest = path_join tmpDir c ->
     served E (template (Link.invoice_pdf url)) data -> Q c data) ->
  keeps (holds_only tmpDir Q) (downloadWithRetry E fuel url dest attempt).
Proof.
  intros HQ. apply downloadWithRetry_keeps.
  - apply holds_only_same_fs.
  - intros data Hs. apply open_w_holds_only. intros c Hc. now apply HQ.
Qed.

Lemma downloadWithRetry_keeps_file tmpDir Q name fuel url dest attempt :
  (forall c data,
     dest = path_join tmpDir c ->
     served E (template (Link.invoice_pdf url)) data -> Q c data) ->
  keeps (fun w => holds_only tmpDir Q w /\ is_file (path_join tmpDir name) w)
        (downloadWithRetry E fuel url dest attempt).
Proof.
  intros HQ. apply downloadWithRetry_keeps.
  - intros w w' Hfs [Hh Hf].
    split; [eapply holds_only_same_fs | eapply is_file_same_fs]; eauto.
  - intros data Hs. apply open_w_keeps_file. intros c Hc. now apply HQ.
Qed.

(** The fetch of a link whose requests the server never rejects writes
    the link's file, when this lies directly inside a directory of
    regular files. *)
Lemma downloadWithRetry_writes tmpDir Q name fuel url attempt w :
  (forall data,
     served E (template (Link.invoice_pdf url)) data -> Q name data) ->
  falsy (Link.invoice_pdf url) = false ->
  (forall n, http_get E n (template (Link.invoice_pdf url)) <> HttpRejected) ->
  holds_only tmpDir Q w ->
  let w' := snd (downloadWithRetry E (S fuel) url (path_join tmpDir name)
                                   attempt w) in
  holds_only tmpDir Q w' /\ is_file (path_join tmpDir name) w'.
Proof.
  intros HQ Hf Hserves Hinv. cbn [downloadWithRetry].
  assert (HQ' : forall c data,
            path_join tmpDir name = path_join tmpDir c ->
            served E (template (Link.invoice_pdf url)) data -> Q c data).
  { intros c data Hc Hs. apply app_inv_head in Hc. injection Hc as <-. auto. }
  set (P := fun w => holds_only tmpDir Q w /\ is_file (path_join tmpDir name) w).
  assert (Hatt : P (snd (attemptDownload E url (path_join tmpDir name) w))).
  { unfold attemptDownload. rewrite Hf, bind_ret. unfold bind at 1.
    destruct (http_request_cases E (template (Link.invoice_pdf url)) w)
      as (w0 & _ & Hfs & _ & [Hr|(body & complete & Hr & Hget)]).
    { exfalso. unfold http_request in Hr.
      destruct (http_get E (List.length (requests w))
                         (template (Link.invoice_pdf url))) eqn:Hg;
        [now apply (Hserves (List.length (requests w))) | discriminate]. }
    rewrite Hr. unfold pipelineAsync. cbn [fst snd].
    assert (H0 : holds_only tmpDir Q w0) by (eapply holds_only_same_fs; eauto).
    assert (Hopen : P (snd (open_w (path_join tmpDir name) body w0))).
    { split.
      - apply open_w_holds_only; auto. intros c Hc. apply HQ'; auto.
        now exists (List.length (requests w)), complete.
      - destruct H0 as (es & Hat & Hall).
        assert (Hfiles : forall c n, assoc c es = Some n -> exists d, n = File d).
        { intros c n Hc. destruct (Hall c n Hc) as (d & -> & _). eauto. }
        pose proof (open_w_directly tmpDir name body w0 es Hat Hfiles) as Hd.
        rewrite Hd. cbn [snd]. exists body. eapply open_w_Ok. exact Hd. }
    unfold bind.
    destruct (open_w (path_join tmpDir name) body w0) as [[[]|e|] w1];
      cbn [snd] in *; auto.
    destruct complete; cbn; exact Hopen. }
  assert (Hrest : forall e, keeps P
    (say (ErrorDownloading (template (Link.invoice_number url)) e) ;;
     if Nat.leb attempt 5 then
       say (RetryingDownload (template (Link.invoice_number url)) attempt) ;;
       downloadWithRetry E fuel url (path_join tmpDir name) (attempt + 1)
     else say (FailedToDownload (template (Link.invoice_number url)) attempt))).
  { intros e. apply retry_keeps.
    - intros w1 w2 Hfs [Hh Hfile].
      split; [eapply holds_only_same_fs | eapply is_file_same_fs]; eauto.
    - intros attempt'. now apply downloadWithRetry_keeps_file. }
  unfold try_catch.
  destruct (attemptDownload E url (path_join tmpDir name) w) as [[[]|e|] w1];
    cbn [snd] in *; auto.
  now apply Hrest.
Qed.

Lemma forEach_downloads_return fuel (dest : Link.t -> path) urls :
  6 <= fuel ->
  forall w, exists w',
    forEach urls (fun url => downloadWithRetry E fuel url (dest url) 1) w
    = (Ok tt, w').
Proof.
  intros Hfuel. induction urls as [|url urls IH]; intros w; cbn [forEach].
  - exists w. reflexivity.
  - destruct (downloadWithRetry_from E 5 fuel url (dest url) 1 w eq_refl
                                     ltac:(lia)) as (w1 & errors & Hrun & _).
    rewrite (bind_Ok _ _ _ _ _ Hrun). apply IH.
Qed.

(** What [downloadPdfs] returns is the listing of the scratch directory in
    the state it leaves. *)
Lemma downloadPdfs_listing fuel urls category w files w1 :
  downloadPdfs E fuel urls category w = (Ok files, w1) ->
  exists es,
    at_path (path_join_any ["tmp"] category) w1 = Some (Dir es) /\
    files = map (path_join (path_join_any ["tmp"] category)) (listing es).
Proof.
  unfold downloadPdfs. cbv zeta. set (tmpDir := path_join_any ["tmp"] category).
  unfold bind at 1.
  destruct (clearDirectory fuel _ w) as [[u|e|] wa]; try discriminate.
  unfold bind at 1.
  destruct (forEach urls _ wa) as [[u'|e|] wb]; try discriminate.
  unfold try_catch. rewrite bind_say.
  set (wc := snd (say (AllDownloaded category) wb)).
  assert (Hat : at_path tmpDir wc = at_path tmpDir wb) by reflexivity.
  unfold bind, readdirSync. rewrite Hat.
  destruct (at_path tmpDir wb) as [[d|es]|] eqn:Hl;
    cbn [ret say throw]; try discriminate.
  intros [= <- <-]. exists es. split; [|reflexivity]. now rewrite Hat.
Qed.

(** The downloads of a category return whenever its scratch directory can
    be staged: no fetch throws, and the directory is there to be listed. *)
Lemma downloadPdfs_returns fuel urls category w :
  let tmpDir := path_join_any ["tmp"] category in
  tmpDir <> [] ->
  stageable tmpDir (Some (fs w)) = true ->
  6 <= fuel ->
  (forall es, at_path tmpDir w = Some (Dir es) -> height (Dir es) <= fuel) ->
  exists files w1, downloadPdfs E fuel urls category w = (Ok files, w1).
Proof.
  intros tmpDir Hne Hs Hfuel Hh. unfold downloadPdfs. cbv zeta. fold tmpDir.
  destruct (clearDirectory_stages_local fuel tmpDir w Hne Hs ltac:(lia) Hh)
    as (wa & Hclear & Hempty & _).
  rewrite (bind_Ok _ _ _ _ _ Hclear).
  destruct (forEach_downloads_return fuel
              (fun url => path_resolve tmpDir
                            (template (Link.invoice_number url) +++ ".pdf"))
              urls Hfuel wa) as (wb & Hloop).
  rewrite (bind_Ok _ _ _ _ _ Hloop).
  assert (Hb : holds_only tmpDir (fun _ _ => True) wb).
  { pose proof (keeps_forEach (holds_only tmpDir (fun _ _ => True)) urls
                  (fun url => downloadWithRetry E fuel url
                     (path_resolve tmpDir
                        (template (Link.invoice_number url) +++ ".pdf")) 1))
      as Hk.
    assert (Ha : holds_only tmpDir (fun _ _ => True) wa).
    { exists []. split; [exact Hempty|]. intros c n Hc. discriminate. }
    specialize (Hk ltac:(intros url _; now apply downloadWithRetry_holds_only)
                   wa Ha).
    now rewrite Hloop in Hk. }
  destruct Hb as (es & Hat & _).
  unfold try_catch. rewrite bind_say. unfold bind, readdirSync.
  change (at_path tmpDir (snd (say (AllDownloaded category) wb)))
    with (at_path tmpDir wb).
  rewrite Hat. cbn. eauto.
Qed.

(** When the downloads of a category return, the scratch directory holds
    nothing but regular files, each the file of one of the links with
    bytes the server sent for it. *)
Lemma downloadPdfs_holds_only fuel urls category w files w1 :
  let tmpDir := path_join_any ["tmp"] category in
  downloadPdfs E fuel urls category w = (Ok files, w1) ->
  holds_only tmpDir
    (fun c data =>
       exists url,
         In url urls /\ destOf tmpDir url = path_join tmpDir c /\
         served E (template (Link.invoice_pdf url)) data) w1.
Proof.
  intros tmpDir Hrun. set (Q := fun (c data : string) => _).
  unfold downloadPdfs in Hrun. cbv zeta in Hrun. fold tmpDir in Hrun.
  apply bind_Ok_inv in Hrun. destruct Hrun as ([] & wa & Hclear & Hrun).
  apply bind_Ok_inv in Hrun. destruct Hrun as ([] & wb & Hloop & Hrun).
  assert (Ha : holds_only tmpDir Q wa).
  { exists []. split; [eapply clearDirectory_Ok_empty; eauto|].
    intros c n Hc. discriminate. }
  assert (Hb : holds_only tmpDir Q wb).
  { pose proof (keeps_forEach (holds_only tmpDir Q) urls
                  (fun url => downloadWithRetry E fuel url
                                (destOf tmpDir url) 1)) as Hk.
    assert (Hall : forall url, In url urls ->
              keeps (holds_only tmpDir Q)
                    (downloadWithRetry E fuel url (destOf tmpDir url) 1)).
    { intros url Hin. apply downloadWithRetry_holds_only.
      intros c data Hc Hs. exists url. auto. }
    specialize (Hk Hall wa Ha). unfold destOf, fileNameOf in Hk.
    now rewrite Hloop in Hk. }
  unfold try_catch in Hrun. rewrite bind_say in Hrun.
  unfold bind, readdirSync in Hrun.
  destruct (at_path tmpDir (snd (say (AllDownloaded category) wb)))
    as [[d|es']|]; cbn in Hrun; try discriminate.
  injection Hrun as _ <-. eapply holds_only_same_fs; [|exact Hb]. reflexivity.
Qed.

(** And the scratch directory holds nothing but regular files, hidden
    entries included. *)
Lemma downloadPdfs_flat fuel urls category w files w1 :
  downloadPdfs E fuel urls category w = (Ok files, w1) ->
  flat (path_join_any ["tmp"] category) w1.
Proof.
  intros Hrun. set (tmpDir := path_join_any ["tmp"] category).
  unfold downloadPdfs in Hrun. cbv zeta in Hrun. fold tmpDir in Hrun.
  apply bind_Ok_inv in Hrun. destruct Hrun as ([] & wa & Hclear & Hrun).
  apply bind_Ok_inv in Hrun. destruct Hrun as ([] & wb & Hloop & Hrun).
  assert (Ha : flat tmpDir wa).
  { exists []. split; [eapply clearDirectory_Ok_empty; eauto|]. cbn. lia. }
  assert (Hb : flat tmpDir wb).
  { pose proof (keeps_forEach (flat tmpDir) urls
                  (fun url => downloadWithRetry E fuel url
                                (destOf tmpDir url) 1)) as Hk.
    assert (Hall : forall url, In url urls ->
              keeps (flat tmpDir)
                    (downloadWithRetry E fuel url (destOf tmpDir url) 1)).
    { intros url Hin. apply downloadWithRetry_keeps.
      - apply flat_same_fs.
      - intros data _. apply open_w_flat. }
    specialize (Hk Hall wa Ha). unfold destOf, fileNameOf in Hk.
    now rewrite Hloop in Hk. }
  unfold try_catch in Hrun. rewrite bind_say in Hrun.
  unfold bind, readdirSync in Hrun.
  destruct (at_path tmpDir (snd (say (AllDownloaded category) wb)))
    as [[d|es']|]; cbn in Hrun; try discriminate.
  injection Hrun as _ <-. eapply flat_same_fs; [|exact Hb]. reflexivity.
Qed.

Lemma NoDup_map_injective {A B} (f : A -> B) (l : list A) :
  (forall a b, f a = f b -> a = b) -> NoDup l -> NoDup (map f l).
Proof.
  intros Hinj Hnd. induction Hnd as [|a l Hnotin _ IH]; cbn; constructor; auto.
  intros Hin. apply in_map_iff in Hin. destruct Hin as (b & Hb & Hbl).
  apply Hinj in Hb. now subst b.
Qed.

Lemma path_join_inj d a b : path_join d a = path_join d b -> a = b.
Proof. unfold path_join. intros H. apply app_inv_head in H. congruence. Qed.

(** X5.  The paths a category's download returns are distinct, each is
    the file of one of the category's own links (the path the link's
    download is written to: in the scratch directory, named by the
    invoice number, when this holds no slash), each holds a regular file,
    and they are no more than the links: whatever was in the directory
    before is never handed on. *)
Theorem downloadPdfs_returns_files_of_its_links :
  forall (fuel : nat) (urls : list Link.t) (category : string)
         (w : World) (files : list path) (w1 : World),
    downloadPdfs E fuel urls category w = (Ok files, w1) ->
    NoDup files /\
    (forall f, In f files ->
       exists url,
         In url urls /\
         f = destOf (path_join_any ["tmp"] category) url /\
         (no_slash (template (Link.invoice_number url)) = true ->
          f = path_join (path_join_any ["tmp"] category) (fileNameOf url)) /\
         exists data, at_path f w1 = Some (File data)) /\
    List.length files <= List.length urls.
Proof.
  intros fuel urls category w files w1 Hrun.
  pose proof (downloadPdfs_holds_only _ _ _ _ _ _ Hrun) as Hinv.
  cbv zeta in Hinv.
  set (tmpDir := path_join_any ["tmp"] category) in *.
  destruct (downloadPdfs_listing fuel urls category w files w1 Hrun)
    as (es & Hat & Hfiles). fold tmpDir in Hat, Hfiles.
  destruct Hinv as (es' & Hat' & Hall). rewrite Hat in Hat'.
  injection Hat' as <-.
  assert (Hnd : NoDup files).
  { subst files. apply NoDup_map_injective; [|apply NoDup_listing].
    intros a b. apply path_join_inj. }
  assert (Hown : forall f, In f files ->
            exists url, In url urls /\ f = destOf tmpDir url /\
                        exists data, at_path f w1 = Some (File data)).
  { intros f Hf. subst files. apply in_map_iff in Hf.
    destruct Hf as (c & <- & Hc). apply listing_In, assoc_in in Hc.
    destruct Hc as [n Hn].
    destruct (Hall c n Hn) as (data & -> & url & Hurl & Hdest & _).
    exists url. repeat split; auto.
    exists data. unfold at_path, path_join in *.
    now rewrite lookup_app, Hat. }
  split; [exact Hnd|]. split.
  { intros f Hf. destruct (Hown f Hf) as (url & Hurl & -> & Hfile).
    exists url. repeat split; auto. intros Hplain. now apply destOf_plain. }
  rewrite <- (length_map (destOf tmpDir) urls).
  apply NoDup_incl_length; [exact Hnd|].
  intros f Hf. destruct (Hown f Hf) as (url & Hurl & -> & _).
  now apply (in_map (destOf tmpDir)).
Qed.
End Returned.

(** The paid invoices of the demo account, downloaded over a scratch
    directory that held a stale file and a subdirectory. *)
Lemma downloadPdfs_returns_files_of_its_links_witness :
  let urls := [Link.mk (Some "https://pay/a") (Some "A-0001") 0 0;
               Link.mk (Some "https://pay/b") (Some "A-0002") 0 0] in
  let files := [["tmp"; "paid_and_open_acme"; "A-0001.pdf"];
                ["tmp"; "paid_and_open_acme"; "A-0002.pdf"]] in
  let w1 := snd (downloadPdfs Demo.env 6 urls "paid_and_open_acme" Demo.world) in
  downloadPdfs Demo.env 6 urls "paid_and_open_acme" Demo.world = (Ok files, w1) /\
  NoDup files /\ List.length files <= List.length urls.
Proof.
  intros urls files w1.
  assert (Hrun : downloadPdfs Demo.env 6 urls "paid_and_open_acme" Demo.world
                 = (Ok files, w1)) by (vm_compute; reflexivity).
  split; [exact Hrun|].
  destruct (downloadPdfs_returns_files_of_its_links
              Demo.env 6 urls "paid_and_open_acme" Demo.world files w1 Hrun)
    as (Hnd & _ & Hlen).
  split; [exact Hnd | exact Hlen].
Defined.

(** ** A fetch that recovers *)

Section Recovers.
Variable E : Env.

Lemma attemptDownload_rejected url dest w :
  falsy (Link.invoice_pdf url) = false ->
  http_get E (List.length (requests w)) (template (Link.invoice_pdf url))
  = HttpRejected ->
  attemptDownload E url dest w
  = (Throw (RequestFailed (template (Link.invoice_pdf url))),
     mkWorld (fs w) (console w)
             (requests w ++ [template (Link.invoice_pdf url)])
             (listCalls w) (consolidations w) (uploads w) (mails w)).
Proof.
  intros Hf Hget. unfold attemptDownload. rewrite Hf, bind_ret.
  unfold bind at 1, http_request. now rewrite Hget.
Qed.

Lemma attemptDownload_complete url dest w body :
  falsy (Link.invoice_pdf url) = false ->
  http_get E (List.length (requests w)) (template (Link.invoice_pdf url))
  = HttpResponse body true ->
  writable dest w = true ->
  exists w',
    attemptDownload E url dest w = (Ok tt, w') /\
    at_path dest w' = Some (File body) /\
    requests w' = requests w ++ [template (Link.invoice_pdf url)] /\
    console w' = console w ++ [FileDownloaded dest].
Proof.
  intros Hf Hget Hw. unfold attemptDownload. rewrite Hf, bind_ret.
  unfold bind at 1, http_request. rewrite Hget.
  set (w0 := mkWorld _ _ _ _ _ _ _).
  destruct (writeFile_writable dest body w0 Hw) as (r & Hrun & Hl).
  unfold writeFile in Hrun. unfold pipelineAsync. cbn [fst snd].
  rewrite bind_bind, (bind_Ok _ _ _ _ _ Hrun), bind_ret.
  eexists. split; [reflexivity|]. repeat split. exact Hl.
Qed.

(** X6.  A fetch whose first [k] requests are rejected and whose next
    request gets a complete response (there being attempts left) returns
    with the destination holding exactly that response's body, having
    sent [k + 1] requests and logged [k] retries and the download. *)
Theorem downloadWithRetry_recovers :
  forall (k fuel : nat) (url : Link.t) (dest : path) (attempt : nat)
         (w : World) (body : string),
    let u := template (Link.invoice_pdf url) in
    falsy (Link.invoice_pdf url) = false ->
    attempt + k <= 6 -> k < fuel ->
    writable dest w = true ->
    (forall i, i < k ->
       http_get E (List.length (requests w) + i) u = HttpRejected) ->
    http_get E (List.length (requests w) + k) u = HttpResponse body true ->
    exists w',
      downloadWithRetry E fuel url dest attempt w = (Ok tt, w') /\
      at_path dest w' = Some (File body) /\
      requests w' = requests w ++ repeat u (S k) /\
      console w' = console w
                   ++ retried (template (Link.invoice_number url)) attempt
                              (repeat (RequestFailed u) k)
                   ++ [FileDownloaded dest].
Proof.
  induction k as [|k IH];
    intros fuel url dest attempt w body u Hf Ha Hfuel Hw Hrej Hok;
    (destruct fuel as [|fuel]; [lia|]); cbn [downloadWithRetry].
  - rewrite Nat.add_0_r in Hok.
    destruct (attemptDownload_complete url dest w body Hf Hok Hw)
      as (w' & Hrun & Hat & Hreq & Hcon).
    rewrite (try_catch_Ok _ _ _ _ _ Hrun). exists w'. auto.
  - pose proof (Hrej 0 ltac:(lia)) as Hfirst. rewrite Nat.add_0_r in Hfirst.
    rewrite (try_catch_Throw _ _ _ _ _
               (attemptDownload_rejected url dest w Hf Hfirst)).
    rewrite bind_say.
    replace (Nat.leb attempt 5) with true by (symmetry; apply Nat.leb_le; lia).
    rewrite bind_say.
    match goal with |- context [downloadWithRetry E fuel url dest _ ?w2] =>
      set (w1 := w2)
    end.
    assert (Hlen : List.length (requests w1) = S (List.length (requests w)))
      by (cbn; rewrite length_app; cbn; lia).
    destruct (IH fuel url dest (attempt + 1) w1 body Hf ltac:(lia) ltac:(lia))
      as (w' & Hrun & Hat & Hreq & Hcon).
    + exact Hw.
    + intros i Hi. rewrite Hlen.
      replace (S (List.length (requests w)) + i)
        with (List.length (requests w) + S i) by lia.
      apply Hrej. lia.
    + rewrite Hlen.
      replace (S (List.length (requests w)) + k)
        with (List.length (requests w) + S k) by lia. exact Hok.
    + exists w'. split; [exact Hrun|]. split; [exact Hat|]. split.
      * rewrite Hreq. cbn [requests w1 say snd]. cbn [repeat].
        fold u. now rewrite <- app_assoc.
      * rewrite Hcon. cbn [console w1 say snd]. cbn [repeat retried].
        fold u. rewrite Nat.add_1_r, <- !app_assoc. reflexivity.
Qed.
End Recovers.

(** The second paid invoice of the demo account: the server rejects the
    first request for it and answers the second. *)
Lemma downloadWithRetry_recovers_witness :
  let url := Link.mk (Some "https://pay/b") (Some "A-0002") 0 0 in
  let w := mkWorld Demo.disk [] ["https://pay/a"] [] [] [] [] in
  exists w',
    downloadWithRetry Demo.env 6 url ["tmp"; "A-0002.pdf"] 1 w = (Ok tt, w') /\
    at_path ["tmp"; "A-0002.pdf"] w' = Some (File "c") /\
    requests w' = ["https://pay/a"; "https://pay/b"; "https://pay/b"].
Proof.
  intros url w.
  destruct (downloadWithRetry_recovers Demo.env 1 6 url ["tmp"; "A-0002.pdf"] 1
              w "c") as (w' & Hrun & Hat & Hreq & _).
  - reflexivity.
  - lia.
  - lia.
  - reflexivity.
  - intros i Hi. replace i with 0 by lia. reflexivity.
  - reflexivity.
  - exists w'. split; [exact Hrun|]. split; [exact Hat | exact Hreq].
Defined.

(** ** PDF Consolidator: merging *)

Lemma copyPages_from (pre : list page) : forall (d : list page) w,
  copyPages (pre ++ d) (seq (List.length pre) (List.length d)) w = (Ok d, w).
Proof.
  intros d. revert pre. induction d as [|pg d IH]; intros pre w;
    cbn [List.length seq copyPages]; [reflexivity|].
  rewrite nth_error_app2, Nat.sub_diag by lia. cbn [nth_error].
  specialize (IH (pre ++ [pg]) w).
  rewrite <- app_assoc, length_app, Nat.add_1_r in IH. cbn [app List.length] in IH.
  now rewrite (bind_Ok _ _ _ _ _ IH).
Qed.

(** Copying the pages at all the indices of a document gives its pages in
    their order. *)
Lemma copyPages_all (d : list page) w :
  copyPages d (getPageIndices d) w = (Ok d, w).
Proof. exact (copyPages_from [] d w). Qed.

Lemma fold_addPage copied : forall merged,
  fold_left addPage copied merged = merged ++ copied.
Proof.
  induction copied as [|pg copied IH]; intros merged; cbn [fold_left].
  - now rewrite app_nil_r.
  - rewrite IH. unfold addPage. now rewrite <- app_assoc.
Qed.

Section Merging.
Variable E : Env.

Lemma mergeInto_concat pdfPaths : forall docs mergedPdf w,
  Forall2 (holds_pdf E w) pdfPaths docs ->
  mergeInto E mergedPdf pdfPaths w = (Ok (mergedPdf ++ List.concat docs), w).
Proof.
  induction pdfPaths as [|pdfPath rest IH]; intros docs mergedPdf w Hall;
    inversion Hall as [|? pdfDoc ? docs' (pdfBytes & Hat & Hload) Hrest];
    subst; cbn [mergeInto List.concat].
  - now rewrite app_nil_r.
  - unfold bind at 1, readFile. rewrite Hat.
    unfold bind at 1, PDFDocument_load. rewrite Hload. cbn [ret].
    rewrite (bind_Ok _ _ _ _ _ (copyPages_all pdfDoc w)).
    rewrite fold_addPage, (IH docs' _ w Hrest), <- app_assoc. reflexivity.
Qed.

Lemma mergePdfs_returns pdfPaths outputPath docs w :
  Forall2 (holds_pdf E w) pdfPaths docs ->
  writable outputPath w = true ->
  exists w',
    mergePdfs E pdfPaths outputPath w = (Ok tt, w') /\
    at_path outputPath w' = Some (File (pdf_save E (List.concat docs))) /\
    console w' = console w ++ [PdfsMerged outputPath].
Proof.
  intros Hall Hw.
  unfold mergePdfs. rewrite bind_enter.
  set (w0 := snd (enter (Merge pdfPaths outputPath) w)).
  assert (Hall0 : Forall2 (holds_pdf E w0) pdfPaths docs) by exact Hall.
  rewrite (bind_Ok _ _ _ _ _ (mergeInto_concat pdfPaths docs [] w0 Hall0)).
  cbn [app].
  destruct (writeFile_writable outputPath (pdf_save E (List.concat docs)) w0 Hw)
    as (r & Hrun & Hl).
  rewrite (bind_Ok _ _ _ _ _ Hrun).
  eexists. split; [reflexivity|]. split; [exact Hl | reflexivity].
Qed.

(** C5.  For every ordered list of input paths holding readable PDFs (the
    empty list included) and every writable output path, the Merge
    operation returns and the output file holds the saved document whose
    page sequence is the concatenation of the inputs' page sequences, in
    input-list order, each input's own page order kept. *)
Theorem mergePdfs_concatenates_pages_in_order :
  forall (pdfPaths : list path) (outputPath : path) (docs : list (list page))
         (w : World),
    Forall2 (holds_pdf E w) pdfPaths docs ->
    writable outputPath w = true ->
    exists w',
      mergePdfs E pdfPaths outputPath w = (Ok tt, w') /\
      at_path outputPath w' = Some (File (pdf_save E (List.concat docs))) /\
      console w' = console w ++ [PdfsMerged outputPath].
Proof.
  intros pdfPaths outputPath docs w Hall Hw.
  unfold mergePdfs. rewrite bind_enter.
  set (w0 := snd (enter (Merge pdfPaths outputPath) w)).
  assert (Hall0 : Forall2 (holds_pdf E w0) pdfPaths docs) by exact Hall.
  rewrite (bind_Ok _ _ _ _ _ (mergeInto_concat pdfPaths docs [] w0 Hall0)).
  cbn [app].
  destruct (writeFile_writable outputPath (pdf_save E (List.concat docs)) w0 Hw)
    as (r & Hrun & Hl).
  rewrite (bind_Ok _ _ _ _ _ Hrun).
  eexists. split; [reflexivity|]. split; [exact Hl | reflexivity].
Qed.
End Merging.

(** Merging A (two pages) and B (one page) of the demo format: the output
    holds A's two pages in order, then B's page. *)
Lemma mergePdfs_concatenates_pages_in_order_witness :
  let w := mkWorld (Dir [("tmp", Dir [("A.pdf", File "ab"); ("B.pdf", File "c")])])
                   [] [] [] [] [] [] in
  Forall2 (holds_pdf Demo.env w) [["tmp"; "A.pdf"]; ["tmp"; "B.pdf"]]
          [[Page "a"; Page "b"]; [Page "c"]] /\
  writable ["tmp"; "out.pdf"] w = true /\
  exists w',
    mergePdfs Demo.env [["tmp"; "A.pdf"]; ["tmp"; "B.pdf"]] ["tmp"; "out.pdf"] w
    = (Ok tt, w') /\
    at_path ["tmp"; "out.pdf"] w' = Some (File "abc") /\
    pdf_load Demo.env "abc" = Some [Page "a"; Page "b"; Page "c"].
Proof.
  intros w.
  assert (Hall : Forall2 (holds_pdf Demo.env w)
                         [["tmp"; "A.pdf"]; ["tmp"; "B.pdf"]]
                         [[Page "a"; Page "b"]; [Page "c"]]).
  { repeat constructor; eexists; split; reflexivity. }
  split; [exact Hall|]. split; [reflexivity|].
  destruct (mergePdfs_concatenates_pages_in_order
              Demo.env [["tmp"; "A.pdf"]; ["tmp"; "B.pdf"]] ["tmp"; "out.pdf"]
              [[Page "a"; Page "b"]; [Page "c"]] w Hall eq_refl)
    as (w' & Hrun & Hout & _).
  exists w'. split; [exact Hrun|]. split; [exact Hout | reflexivity].
Defined.

(** ** A merge that fails *)

Section MergeFails.
Variable E : Env.

Lemma mergeInto_keeps_world pdfPaths : forall mergedPdf w,
  snd (mergeInto E mergedPdf pdfPaths w) = w.
Proof.
  induction pdfPaths as [|pdfPath rest IH]; intros mergedPdf w;
    cbn [mergeInto]; [reflexivity|].
  unfold bind at 1, readFile.
  destruct (at_path pdfPath w) as [[pdfBytes|es]|]; try reflexivity.
  unfold bind at 1, PDFDocument_load.
  destruct (pdf_load E pdfBytes) as [pdfDoc|]; try reflexivity. cbn [ret].
  rewrite (bind_Ok _ _ _ _ _ (copyPages_all pdfDoc w)). apply IH.
Qed.

Lemma mergeInto_unreadable good : forall docs bad rest mergedPdf w e,
  Forall2 (holds_pdf E w) good docs ->
  unreadable_as_pdf E w bad = Some e ->
  mergeInto E mergedPdf (good ++ bad :: rest) w = (Throw e, w).
Proof.
  induction good as [|pdfPath good IH];
    intros docs bad rest mergedPdf w e Hall Hbad;
    inversion Hall as [|? pdfDoc ? docs' (pdfBytes & Hat & Hload) Hrest];
    subst; cbn [app mergeInto].
  - unfold unreadable_as_pdf in Hbad. unfold bind at 1, readFile.
    destruct (at_path bad w) as [[pdfBytes|es]|];
      try (injection Hbad as <-; reflexivity).
    unfold bind at 1, PDFDocument_load.
    destruct (pdf_load E pdfBytes); [discriminate|].
    injection Hbad as <-. reflexivity.
  - unfold bind at 1, readFile. rewrite Hat.
    unfold bind at 1, PDFDocument_load. rewrite Hload. cbn [ret].
    rewrite (bind_Ok _ _ _ _ _ (copyPages_all pdfDoc w)).
    eapply IH; eauto.
Qed.

(** X7.  A merge that throws has written nothing: the file system and
    the console are as before (no partial output file, no "merged" line).
    And it does throw, with the error of the first input that is missing,
    a directory, or not a PDF the library reads, when the inputs before
    that one are readable. *)
Theorem mergePdfs_failure_writes_nothing :
  forall (pdfPaths : list path) (outputPath : path) (w : World),
    (forall e w',
       mergePdfs E pdfPaths outputPath w = (Throw e, w') ->
       fs w' = fs w /\ console w' = console w) /\
    (forall good docs bad rest e,
       pdfPaths = good ++ bad :: rest ->
       Forall2 (holds_pdf E w) good docs ->
       unreadable_as_pdf E w bad = Some e ->
       exists w', mergePdfs E pdfPaths outputPath w = (Throw e, w')).
Proof.
  intros pdfPaths outputPath w. unfold mergePdfs. rewrite bind_enter.
  set (w0 := snd (enter (Merge pdfPaths outputPath) w)). split.
  - intros e w'. unfold bind at 1.
    pose proof (mergeInto_keeps_world pdfPaths [] w0) as Hkeep.
    destruct (mergeInto E [] pdfPaths w0) as [[mergedPdf|e0|] w1];
      cbn [snd] in Hkeep; subst w1; try discriminate.
    + unfold bind at 1, writeFile.
      destruct (open_w_cases outputPath (pdf_save E mergedPdf) w0)
        as [[r ->]|(e1 & -> & _)]; [discriminate|].
      intros [= _ <-]. split; reflexivity.
    + intros [= _ <-]. split; reflexivity.
  - intros good docs bad rest e -> Hall Hbad.
    assert (Hall0 : Forall2 (holds_pdf E w0) good docs) by exact Hall.
    assert (Hbad0 : unreadable_as_pdf E w0 bad = Some e) by exact Hbad.
    rewrite (bind_Throw _ _ _ _ _
               (mergeInto_unreadable good docs bad rest [] w0 e Hall0 Hbad0)).
    eauto.
Qed.
End MergeFails.

(** A PDF followed by an error page saved under a PDF name. *)
Lemma mergePdfs_failure_writes_nothing_witness :
  let w := mkWorld (Dir [("tmp", Dir [("A.pdf", File "ab");
                                      ("B.pdf", File "<html>")])])
                   [] [] [] [] [] [] in
  Forall2 (holds_pdf Demo.env w) [["tmp"; "A.pdf"]] [[Page "a"; Page "b"]] /\
  unreadable_as_pdf Demo.env w ["tmp"; "B.pdf"]
  = Some (InvalidPdf ["tmp"; "B.pdf"]) /\
  exists w',
    mergePdfs Demo.env [["tmp"; "A.pdf"]; ["tmp"; "B.pdf"]] ["tmp"; "out.pdf"] w
    = (Throw (InvalidPdf ["tmp"; "B.pdf"]), w') /\
    fs w' = fs w.
Proof.
  intros w.
  assert (Hall : Forall2 (holds_pdf Demo.env w) [["tmp"; "A.pdf"]]
                         [[Page "a"; Page "b"]]).
  { repeat constructor. eexists. split; reflexivity. }
  split; [exact Hall|]. split; [reflexivity|].
  destruct (mergePdfs_failure_writes_nothing Demo.env
              [["tmp"; "A.pdf"]; ["tmp"; "B.pdf"]] ["tmp"; "out.pdf"] w)
    as [Hnothing Hthrows].
  destruct (Hthrows [["tmp"; "A.pdf"]] [[Page "a"; Page "b"]] ["tmp"; "B.pdf"]
                    [] (InvalidPdf ["tmp"; "B.pdf"]) eq_refl Hall eq_refl)
    as [w' Hrun].
  exists w'. split; [exact Hrun|]. exact (proj1 (Hnothing _ _ Hrun)).
Defined.

(** ** The placeholder *)

(** X8.  On a writable output path the Placeholder operation returns and
    the file holds the saved one-page document whose page carries the
    notice "No data available for this category."; a file already there
    is replaced. *)
Theorem createEmptyPdf_writes_one_page_notice :
  forall (E : Env) (outputPath : path) (w : World),
    writable outputPath w = true ->
    exists w',
      createEmptyPdf E outputPath w = (Ok tt, w') /\
      at_path outputPath w'
      = Some (File (pdf_save E [Page "No data available for this category."])) /\
      console w' = console w ++ [EmptyPdfCreated outputPath].
Proof.
  intros E outputPath w Hw. unfold createEmptyPdf. cbv zeta.
  rewrite bind_enter.
  set (w0 := snd (enter (Placeholder outputPath) w)).
  destruct (writeFile_writable outputPath
              (pdf_save E (addPage [] (drawText
                 "No data available for this category." (Page "")))) w0 Hw)
    as (r & Hrun & Hl).
  rewrite (bind_Ok _ _ _ _ _ Hrun).
  eexists. split; [reflexivity|]. split; [exact Hl | reflexivity].
Qed.

(** The other-status output of the demo account, over an older file. *)
Lemma createEmptyPdf_writes_one_page_notice_witness :
  writable ["tmp"; "old.pdf"] Demo.world = true /\
  exists w',
    createEmptyPdf Demo.env ["tmp"; "old.pdf"] Demo.world = (Ok tt, w') /\
    at_path ["tmp"; "old.pdf"] w'
    = Some (File "No data available for this category.").
Proof.
  split; [reflexivity|].
  destruct (createEmptyPdf_writes_one_page_notice
              Demo.env ["tmp"; "old.pdf"] Demo.world eq_refl)
    as (w' & Hrun & Hat & _).
  exists w'. split; [exact Hrun | exact Hat].
Defined.

(** ** Invoice Lister *)

Lemma paid_or_open_iff status :
  paid_or_open status = true <-> status = Some "paid" \/ status = Some "open".
Proof.
  destruct status as [s|]; cbn.
  - rewrite orb_true_iff, !String.eqb_eq. split.
    + intros [->| ->]; auto.
    + intros [[= ->]|[= ->]]; auto.
  - split; [discriminate | intros [H|H]; discriminate].
Qed.

Lemma fold_sortInvoice data : forall paid other,
  fold_left sortInvoice data (paid, other)
  = (paid ++ map pdfLink (filter is_paid_or_open data),
     other ++ map pdfLink (filter (fun i => negb (is_paid_or_open i)) data)).
Proof.
  induction data as [|invoice data IH]; intros paid other; cbn [fold_left].
  - cbn. now rewrite !app_nil_r.
  - cbn [filter]. unfold sortInvoice at 2. unfold is_paid_or_open in *.
    destruct (paid_or_open (Invoice.status invoice)); cbn [negb map];
      rewrite IH, <- app_assoc; reflexivity.
Qed.

Lemma nth_error_last_Some {A} (a : A) (l : list A) :
  exists x, nth_error (a :: l) (List.length (a :: l) - 1) = Some x.
Proof.
  destruct (nth_error (a :: l) (List.length (a :: l) - 1)) as [x|] eqn:H; eauto.
  apply nth_error_None in H. cbn in H. lia.
Qed.

Section Lister.
Variable E : Env.
Variable secret : option string.
Variables gte lte : option Z.

Lemma stripe_invoices_list_calls params w :
  listCalls (snd (stripe_invoices_list E secret params w))
  = listCalls w ++ [(params, invoices_list E secret (List.length (listCalls w))
                                           params)].
Proof.
  unfold stripe_invoices_list. now destruct (invoices_list E secret _ params).
Qed.

(** Every invoice of every page returned goes to one of the two arrays,
    by its status, in the order returned. *)
Lemma listFrom_sorts fuel : forall cursor lists w r w',
  listFrom E fuel secret gte lte cursor lists w = (Ok r, w') ->
  exists calls,
    listCalls w' = listCalls w ++ calls /\
    r = (fst lists ++ map pdfLink (filter is_paid_or_open (invoices_of calls)),
         snd lists ++ map pdfLink (filter (fun i => negb (is_paid_or_open i))
                                          (invoices_of calls))).
Proof.
  induction fuel as [|fuel IH]; intros cursor [paid other] w r w';
    cbn [listFrom]; [discriminate|].
  unfold bind at 1.
  pose proof (stripe_invoices_list_calls
                (mkListParams 100 cursor gte lte) w) as Hcalls.
  set (params := mkListParams 100 cursor gte lte) in *.
  unfold stripe_invoices_list in *.
  set (answer := invoices_list E secret (List.length (listCalls w)) params) in *.
  destruct answer as [what|[[|invoice data]|] more] eqn:Hanswer;
    cbn [snd fst] in *; try discriminate.
  - intros [= <- <-]. exists [(params, ListPage (Some []) more)].
    split; [exact Hcalls|]. cbn. now rewrite !app_nil_r.
  - rewrite fold_sortInvoice.
    destruct (nth_error_last_Some invoice data) as [lastInvoice ->].
    destruct more.
    + intros Hrun. apply IH in Hrun. destruct Hrun as (calls & Hc & ->).
      exists ((params, ListPage (Some (invoice :: data)) true) :: calls).
      rewrite Hc, Hcalls, <- app_assoc. split; [reflexivity|].
      cbn [invoices_of flat_map snd fst].
      fold (invoices_of calls).
      rewrite !filter_app, !map_app, <- !app_assoc. reflexivity.
    + intros [= <- <-].
      exists [(params, ListPage (Some (invoice :: data)) false)].
      split; [exact Hcalls|].
      cbn [invoices_of flat_map snd fst]. now rewrite !app_nil_r.
  - intros [= <- <-]. exists [(params, ListPage None more)].
    split; [exact Hcalls|]. cbn. now rewrite !app_nil_r.
Qed.

(** The loop walks any chain of pages the provider serves and returns
    the invoices of all of them, sorted. *)
Lemma listFrom_serves calls : forall fuel cursor lists w,
  calls <> [] ->
  List.length calls <= fuel ->
  provided E secret (List.length (listCalls w)) calls ->
  chained cursor calls ->
  Forall (asks_page gte lte) calls ->
  ends_listing (snd (last calls (mkListParams 0 None None None,
                                 ListRejected ""))) ->
  exists w',
    listFrom E fuel secret gte lte cursor lists w
    = (Ok (fst lists
           ++ map pdfLink (filter is_paid_or_open (invoices_of calls)),
           snd lists
           ++ map pdfLink (filter (fun i => negb (is_paid_or_open i))
                                  (invoices_of calls))), w') /\
    listCalls w' = listCalls w ++ calls.
Proof.
  induction calls as [|[params answer] rest IH];
    intros fuel cursor [paid other] w Hne Hfuel Hprov Hchain Hasks Hends;
    [congruence|].
  destruct fuel as [|fuel]; [cbn in Hfuel; lia|].
  destruct Hprov as [Hanswer Hprov]. destruct Hchain as [Hcursor Hchain].
  apply Forall_cons_iff in Hasks.
  destruct Hasks as [(Hlimit & Hgte & Hlte) Hasks].
  destruct params as [lim after cgte clte].
  cbn [fst limit starting_after created_gte created_lte] in *.
  subst lim after cgte clte. cbn [listFrom]. unfold bind at 1.
  pose proof (stripe_invoices_list_calls
                (mkListParams 100 cursor gte lte) w) as Hcalls.
  unfold stripe_invoices_list in *. rewrite Hanswer in *.
  destruct rest as [|call rest].
  - cbn [last snd] in Hends. cbn [invoices_of flat_map snd].
    rewrite app_nil_r.
    destruct Hends as [Hempty|[data ->]].
    + destruct answer as [what|[[|invoice data]|] more]; try discriminate;
        cbn [fst snd filter map] in *; rewrite !app_nil_r;
        eexists; (split; [reflexivity | exact Hcalls]).
    + destruct data as [|invoice data];
        [cbn [fst snd filter map] in *; rewrite !app_nil_r;
         eexists; (split; [reflexivity | exact Hcalls])|].
      cbn [fst snd] in *. rewrite fold_sortInvoice.
      destruct (nth_error_last_Some invoice data) as [lastInvoice ->].
      eexists; (split; [reflexivity | exact Hcalls]).
  - destruct Hchain as (data & -> & Hdata & Hchain).
    destruct data as [|invoice data]; [congruence|].
    cbn [fst snd] in *. rewrite fold_sortInvoice.
    destruct (nth_error_last_Some invoice data) as [lastInvoice Hlast].
    rewrite Hlast. unfold lastId in Hchain. rewrite Hlast in Hchain.
    cbn [option_map] in Hchain.
    edestruct (IH fuel (Some (Invoice.id lastInvoice))) as (w' & Hrun & Hc);
      [discriminate
      |cbn [List.length] in Hfuel |- *; lia
      | |exact Hchain|exact Hasks|exact Hends|].
    + rewrite Hcalls, length_app, Nat.add_1_r. exact Hprov.
    + exists w'. rewrite Hrun, Hc, Hcalls, <- app_assoc.
      split; [|reflexivity]. cbn [fst snd invoices_of flat_map].
      fold (invoices_of (call :: rest)).
      now rewrite !filter_app, !map_app, <- !app_assoc.
Qed.

Lemma getInvoicesList_serves calls fuel w :
  listing_served E secret gte lte fuel (List.length (listCalls w)) calls ->
  exists w',
    getInvoicesList E fuel secret gte lte w
    = (Ok (map pdfLink (filter is_paid_or_open (invoices_of calls)),
           map pdfLink (filter (fun i => negb (is_paid_or_open i))
                               (invoices_of calls))), w') /\
    listCalls w' = listCalls w ++ calls.
Proof.
  intros (Hne & Hfuel & Hprov & Hchain & Hasks & Hends).
  destruct (listFrom_serves calls fuel None ([], []) w
                            Hne Hfuel Hprov Hchain Hasks Hends)
    as (w' & Hrun & Hc).
  exists w'. unfold getInvoicesList, try_catch. rewrite Hrun. auto.
Qed.

(** C4.  The Invoice Lister returns whenever the provider serves it a
    chain of pages that ends: it then has made the calls of the chain and
    its two lists hold the invoices of all the pages.  And whenever it
    returns, its two lists are, in the order the provider returned them
    over all the pages of the call, the links of the invoices whose status
    is "paid" or "open" and the links of all the others; so every
    returned invoice is in exactly one list. *)
Theorem getInvoicesList_partitions_by_status :
  forall (fuel : nat) (w : World),
    (forall calls,
       listing_served E secret gte lte fuel (List.length (listCalls w)) calls ->
       exists w',
         getInvoicesList E fuel secret gte lte w
         = (Ok (map pdfLink (filter is_paid_or_open (invoices_of calls)),
                map pdfLink (filter (fun i => negb (is_paid_or_open i))
                                    (invoices_of calls))), w') /\
         listCalls w' = listCalls w ++ calls) /\
    (forall paidAndOpenLinks otherStatusLinks w',
       getInvoicesList E fuel secret gte lte w
       = (Ok (paidAndOpenLinks, otherStatusLinks), w') ->
       exists calls,
         listCalls w' = listCalls w ++ calls /\
         paidAndOpenLinks
         = map pdfLink (filter is_paid_or_open (invoices_of calls)) /\
         otherStatusLinks
         = map pdfLink (filter (fun i => negb (is_paid_or_open i))
                               (invoices_of calls)) /\
         List.length paidAndOpenLinks + List.length otherStatusLinks
         = List.length (invoices_of calls) /\
         (forall invoice,
            is_paid_or_open invoice = true <->
            Invoice.status invoice = Some "paid" \/
            Invoice.status invoice = Some "open")).
Proof.
  intros fuel w. split.
  - intros calls Hserved.
    destruct (getInvoicesList_serves calls fuel w Hserved) as (w' & Hrun & Hc).
    exists w'. auto.
  - intros paid other w'. unfold getInvoicesList, try_catch.
    destruct (listFrom E fuel secret gte lte None ([], []) w)
      as [[r|e|] w1] eqn:Hrun; try discriminate.
    intros [= -> ->]. apply listFrom_sorts in Hrun.
    destruct Hrun as (calls & Hcalls & [= -> ->]).
    exists calls. cbn [fst snd app]. repeat split; auto.
    + rewrite !length_map, filter_length. reflexivity.
    + apply paid_or_open_iff.
    + apply paid_or_open_iff.
Qed.

(** The cursor is read from a non-empty page only: the loop never fails on
    the last-element access. *)
Lemma listFrom_no_TypeError fuel : forall cursor lists w what,
  fst (listFrom E fuel secret gte lte cursor lists w) <> Throw (TypeError what).
Proof.
  induction fuel as [|fuel IH]; intros cursor lists w what;
    cbn [listFrom]; [discriminate|].
  unfold bind at 1, stripe_invoices_list.
  destruct (invoices_list E secret _ _) as [w0|[[|invoice data]|] more];
    cbn [fst snd]; try discriminate.
  destruct (nth_error_last_Some invoice data) as [lastInvoice ->].
  destruct more; [apply IH | discriminate].
Qed.

(** An empty page ends the loop at once, whatever [has_more] says. *)
Lemma listFrom_empty_page fuel cursor lists w :
  empty_page (invoices_list E secret (List.length (listCalls w))
                            (mkListParams 100 cursor gte lte)) = true ->
  exists w1,
    listFrom E (S fuel) secret gte lte cursor lists w = (Ok lists, w1) /\
    List.length (listCalls w1) = S (List.length (listCalls w)).
Proof.
  intros Hempty. cbn [listFrom]. unfold bind at 1, stripe_invoices_list.
  destruct (invoices_list E secret _ _) as [w0|[[|invoice data]|] more];
    try discriminate; cbn [fst snd]; eexists; (split; [reflexivity|]);
    cbn; rewrite length_app; cbn; lia.
Qed.

(** Once the provider answers with an empty page the loop is over. *)
Lemma listFrom_stops k : forall fuel cursor lists w r w',
  k < fuel ->
  (forall params,
     empty_page (invoices_list E secret (List.length (listCalls w) + k) params)
     = true) ->
  listFrom E fuel secret gte lte cursor lists w = (r, w') ->
  r <> Hang /\ List.length (listCalls w') <= List.length (listCalls w) + k + 1.
Proof.
  induction k as [|k IH]; intros fuel cursor lists w r w' Hfuel Hempty;
    (destruct fuel as [|fuel]; [lia|]).
  - rewrite Nat.add_0_r in Hempty.
    destruct (listFrom_empty_page fuel cursor lists w (Hempty _))
      as (w1 & -> & Hlen).
    intros [= <- <-]. split; [discriminate | lia].
  - cbn [listFrom]. unfold bind at 1.
    pose proof (stripe_invoices_list_calls
                  (mkListParams 100 cursor gte lte) w) as Hcalls.
    destruct (stripe_invoices_list E secret _ w) as [[[data more]|e|] w1] eqn:Hs;
      cbn [snd fst] in *.
    + assert (Hlen : List.length (listCalls w1) = S (List.length (listCalls w)))
        by (rewrite Hcalls, length_app; cbn; lia).
      destruct data as [[|invoice data]|];
        try (intros [= <- <-]; split; [discriminate | lia]).
      destruct (nth_error_last_Some invoice data) as [lastInvoice ->].
      destruct more; [|intros [= <- <-]; split; [discriminate | lia]].
      intros Hrun. apply IH in Hrun; [|lia|].
      * destruct Hrun as [Hnh Hle]. split; [exact Hnh | lia].
      * intros params. rewrite Hlen.
        replace (S (List.length (listCalls w)) + k)
          with (List.length (listCalls w) + S k) by lia. apply Hempty.
    + intros [= <- <-]. split; [discriminate|].
      rewrite Hcalls, length_app. cbn. lia.
    + exfalso. unfold stripe_invoices_list in Hs.
      destruct (invoices_list E secret _ _); discriminate.
Qed.

(** C9.  In the Invoice Lister the last-element access never meets an
    empty array (the call never throws a TypeError); a page whose data is
    missing or empty, whatever its [has_more], makes the loop return its
    two arrays after that one call; and once the provider answers some
    call with such a page, the lister has ended (it does not run on) and
    has made no call after it. *)
Theorem getInvoicesList_reads_cursor_from_nonempty_page_only :
  forall (fuel : nat) (w : World),
    (forall what,
       fst (getInvoicesList E fuel secret gte lte w) <> Throw (TypeError what)) /\
    (forall cursor lists,
       empty_page (invoices_list E secret (List.length (listCalls w))
                                 (mkListParams 100 cursor gte lte)) = true ->
       exists w1,
         listFrom E (S fuel) secret gte lte cursor lists w = (Ok lists, w1) /\
         List.length (listCalls w1) = S (List.length (listCalls w))) /\
    (forall k,
       k < fuel ->
       (forall params,
          empty_page (invoices_list E secret (List.length (listCalls w) + k)
                                    params) = true) ->
       fst (getInvoicesList E fuel secret gte lte w) <> Hang /\
       List.length (listCalls (snd (getInvoicesList E fuel secret gte lte w)))
       <= List.length (listCalls w) + k + 1).
Proof.
  intros fuel w. split; [|split].
  - intros what. unfold getInvoicesList, try_catch.
    pose proof (listFrom_no_TypeError fuel None ([], []) w what) as Hno.
    destruct (listFrom E fuel secret gte lte None ([], []) w)
      as [[r|e|] w1]; cbn in *; congruence.
  - intros cursor lists. apply listFrom_empty_page.
  - intros k Hk Hempty. unfold getInvoicesList, try_catch.
    destruct (listFrom E fuel secret gte lte None ([], []) w)
      as [r w1] eqn:Hrun.
    destruct (listFrom_stops k fuel None ([], []) w r w1 Hk Hempty Hrun)
      as [Hnh Hle].
    destruct r as [r|e|]; cbn in *; (split; [congruence | exact Hle]).
Qed.
End Lister.

(** A provider that keeps saying [has_more] but whose second page is empty:
    the lister returns after the second call. *)
Lemma getInvoicesList_reads_cursor_from_nonempty_page_only_witness :
  1 < 5 /\
  (forall params,
     empty_page (invoices_list Demo.endless_env (Some "sk_test")
                               (List.length (listCalls Demo.world) + 1) params)
     = true) /\
  fst (getInvoicesList Demo.endless_env 5 (Some "sk_test") None None Demo.world)
  <> Hang /\
  List.length (listCalls (snd (getInvoicesList Demo.endless_env 5
                                 (Some "sk_test") None None Demo.world)))
  <= List.length (listCalls Demo.world) + 1 + 1.
Proof.
  split; [lia|]. split; [reflexivity|].
  apply (getInvoicesList_reads_cursor_from_nonempty_page_only
           Demo.endless_env (Some "sk_test") None None 5 Demo.world);
    [lia | reflexivity].
Defined.

(** The three invoices of the demo account on the two pages of the
    paging provider: two paid, one draft. *)
Lemma getInvoicesList_partitions_by_status_witness :
  let calls :=
    [(mkListParams 100 None (Some 1%Z) (Some 2%Z),
      ListPage (Some (firstn 2 Demo.march)) true);
     (mkListParams 100 (Some "in_2") (Some 1%Z) (Some 2%Z),
      ListPage (Some (skipn 2 Demo.march)) false)] in
  exists w',
    getInvoicesList paging_env 3 (Some "sk_test") (Some 1%Z) (Some 2%Z)
                    Demo.world
    = (Ok ([Link.mk (Some "https://pay/a") (Some "A-0001") 0 0;
            Link.mk (Some "https://pay/b") (Some "A-0002") 0 0],
           [Link.mk None None 0 0]), w') /\
    listCalls w' = listCalls Demo.world ++ calls.
Proof.
  intros calls.
  destruct (proj1 (getInvoicesList_partitions_by_status
                     paging_env (Some "sk_test") (Some 1%Z) (Some 2%Z)
                     3 Demo.world) calls) as (w' & Hrun & Hc).
  - split; [discriminate|]. split; [cbn; lia|].
    split; [split; [reflexivity|]; split; [reflexivity | exact I]|].
    split.
    { split; [reflexivity|]. exists (firstn 2 Demo.march).
      split; [reflexivity|]. split; [discriminate|].
      split; [reflexivity | exact I]. }
    split; [repeat constructor|]. right. eexists. reflexivity.
  - exists w'. split; [exact Hrun | exact Hc].
Defined.

(** ** Pagination *)

Section Pagination.
Variable E : Env.
Variable secret : option string.
Variables gte lte : option Z.

Lemma lastId_cons invoice data lastInvoice :
  nth_error (invoice :: data) (List.length (invoice :: data) - 1)
  = Some lastInvoice ->
  lastId (invoice :: data) = Some (Invoice.id lastInvoice).
Proof. unfold lastId. now intros ->. Qed.

Lemma listFrom_chains fuel : forall cursor lists w r w',
  listFrom E fuel secret gte lte cursor lists w = (Ok r, w') ->
  exists calls params answer,
    listCalls w' = listCalls w ++ calls /\
    chained cursor calls /\
    Forall (asks_page gte lte) calls /\
    last calls (mkListParams 0 None None None, ListRejected "")
    = (params, answer) /\
    calls <> [] /\ ends_listing answer.
Proof.
  induction fuel as [|fuel IH]; intros cursor lists w r w';
    cbn [listFrom]; [discriminate|].
  unfold bind at 1.
  pose proof (stripe_invoices_list_calls E secret
                (mkListParams 100 cursor gte lte) w) as Hcalls.
  set (params := mkListParams 100 cursor gte lte) in *.
  unfold stripe_invoices_list in *.
  set (answer := invoices_list E secret (List.length (listCalls w)) params) in *.
  assert (Hone : forall ans, ends_listing ans ->
    listCalls (snd (Ok tt, mkWorld (fs w) (console w) (requests w)
                                   (listCalls w ++ [(params, ans)])
                                   (consolidations w) (uploads w) (mails w)))
    = listCalls w ++ [(params, ans)] ->
    exists calls params0 answer0,
      listCalls w ++ [(params, ans)] = listCalls w ++ calls /\
      chained cursor calls /\ Forall (asks_page gte lte) calls /\
      last calls (mkListParams 0 None None None, ListRejected "")
      = (params0, answer0) /\ calls <> [] /\ ends_listing answer0).
  { intros ans Hends _. exists [(params, ans)], params, ans.
    repeat split; auto; try discriminate.
    constructor; [|constructor]. repeat split. }
  destruct answer as [what|[[|invoice data]|] more] eqn:Hanswer;
    cbn [snd fst] in *; try discriminate.
  - intros [= <- <-]. rewrite Hcalls. apply Hone; auto. now left.
  - destruct (nth_error_last_Some invoice data) as [lastInvoice Hlast].
    rewrite Hlast. destruct more.
    + intros Hrun. apply IH in Hrun.
      destruct Hrun as (calls & params0 & answer0 & Hc & Hch & Hall & Hl & Hne & He).
      exists ((params, ListPage (Some (invoice :: data)) true) :: calls),
        params0, answer0.
      rewrite Hc, Hcalls, <- app_assoc. split; [reflexivity|].
      split; [|split; [|split; [|split]]]; auto; try discriminate.
      * cbn [chained]. split; [reflexivity|].
        destruct calls as [|call calls]; [congruence|].
        exists (invoice :: data). split; [reflexivity|].
        split; [discriminate|].
        now rewrite (lastId_cons _ _ _ Hlast).
      * constructor; [repeat split | exact Hall].
      * destruct calls as [|call calls]; [congruence | exact Hl].
    + intros [= <- <-]. rewrite Hcalls. apply Hone; auto.
      right. eauto.
  - intros [= <- <-]. rewrite Hcalls. apply Hone; auto. now left.
Qed.

(** X9.  When the Invoice Lister returns it has made at least one call;
    every call asked for a page of 100 within the date range; the first
    carried no cursor and every later one the identifier of the last
    invoice of the page before, which was non-empty and announced more;
    and the last answer was a page without invoices or one that did not
    announce more. *)
Theorem getInvoicesList_pages_by_cursor :
  forall (fuel : nat) (w : World) (lists : list Link.t * list Link.t)
         (w' : World),
    getInvoicesList E fuel secret gte lte w = (Ok lists, w') ->
    exists calls params answer,
      listCalls w' = listCalls w ++ calls /\
      chained None calls /\
      Forall (asks_page gte lte) calls /\
      last calls (mkListParams 0 None None None, ListRejected "")
      = (params, answer) /\
      calls <> [] /\ ends_listing answer.
Proof.
  intros fuel w lists w'. unfold getInvoicesList, try_catch.
  destruct (listFrom E fuel secret gte lte None ([], []) w)
    as [[r|e|] w1] eqn:Hrun; try discriminate.
  intros [= -> ->]. now apply listFrom_chains in Hrun.
Qed.

(** X10.  When the Invoice Lister throws, the error is the provider's
    rejection of the last call made, it is logged as the last console
    line, and no list is returned. *)
Theorem getInvoicesList_rethrows_the_rejection :
  forall (fuel : nat) (w : World) (e : error) (w' : World),
    getInvoicesList E fuel secret gte lte w = (Throw e, w') ->
    exists calls params what,
      listCalls w' = listCalls w ++ calls ++ [(params, ListRejected what)] /\
      e = ProviderError what /\
      console w' = console w ++ [ErrorRetrievingList e].
Proof.
  intros fuel w e w'. unfold getInvoicesList, try_catch.
  assert (Hloop : forall fuel cursor lists w e w1,
    listFrom E fuel secret gte lte cursor lists w = (Throw e, w1) ->
    exists calls params what,
      listCalls w1 = listCalls w ++ calls ++ [(params, ListRejected what)] /\
      e = ProviderError what /\ console w1 = console w).
  { clear. induction fuel as [|fuel IH]; intros cursor lists w e w1;
      cbn [listFrom]; [discriminate|].
    unfold bind at 1.
    pose proof (stripe_invoices_list_calls E secret
                  (mkListParams 100 cursor gte lte) w) as Hcalls.
    set (params := mkListParams 100 cursor gte lte) in *.
    unfold stripe_invoices_list in *.
    destruct (invoices_list E secret (List.length (listCalls w)) params)
      as [what|[[|invoice data]|] more];
      cbn [snd fst] in *; try discriminate.
    - intros [= <- <-]. exists [], params, what. cbn [app].
      repeat split; auto.
    - destruct (nth_error_last_Some invoice data) as [lastInvoice ->].
      destruct more; [|discriminate].
      intros Hrun. apply IH in Hrun.
      destruct Hrun as (calls & params0 & what & Hc & He & Hcon).
      exists ((params, ListPage (Some (invoice :: data)) true) :: calls),
        params0, what.
      rewrite Hc, Hcalls, <- !app_assoc. repeat split; auto. }
  destruct (listFrom E fuel secret gte lte None ([], []) w)
    as [[r|e0|] w1] eqn:Hrun; try discriminate.
  rewrite bind_say. cbn. intros [= <- <-].
  apply Hloop in Hrun. destruct Hrun as (calls & params & what & Hc & He & Hcon).
  exists calls, params, what. rewrite Hcon. repeat split; auto.
Qed.
End Pagination.

(** The two pages of the paging provider. *)
Lemma getInvoicesList_pages_by_cursor_witness :
  exists lists w' calls,
    getInvoicesList paging_env 3 (Some "sk_test") (Some 1%Z) (Some 2%Z)
                    Demo.world = (Ok lists, w') /\
    listCalls w' = listCalls Demo.world ++ calls /\
    map (fun call => starting_after (fst call)) calls = [None; Some "in_2"] /\
    chained None calls.
Proof.
  destruct (getInvoicesList paging_env 3 (Some "sk_test") (Some 1%Z) (Some 2%Z)
                            Demo.world) as [r w'] eqn:Hrun.
  assert (Hr : r = Ok (fst (fold_left sortInvoice Demo.march ([], [])),
                       snd (fold_left sortInvoice Demo.march ([], []))))
    by (vm_compute in Hrun; now injection Hrun as <- _).
  subst r.
  destruct (getInvoicesList_pages_by_cursor
              paging_env (Some "sk_test") (Some 1%Z) (Some 2%Z) 3 Demo.world
              _ w' Hrun) as (calls & params & answer & Hc & Hch & _).
  eexists _, w', calls. split; [reflexivity|]. split; [exact Hc|].
  split; [|exact Hch].
  vm_compute in Hrun. injection Hrun as <-. cbn in Hc.
  subst calls. reflexivity.
Defined.

(** The demo provider called without the account's secret. *)
Lemma getInvoicesList_rethrows_the_rejection_witness :
  exists w',
    getInvoicesList Demo.env 3 None None None Demo.world
    = (Throw (ProviderError "Invalid API Key provided"), w') /\
    console w'
    = console Demo.world
      ++ [ErrorRetrievingList (ProviderError "Invalid API Key provided")].
Proof.
  destruct (getInvoicesList Demo.env 3 None None None Demo.world)
    as [r w'] eqn:Hrun.
  assert (Hr : r = Throw (ProviderError "Invalid API Key provided"))
    by (vm_compute in Hrun; now injection Hrun as <- _).
  subst r. exists w'. split; [reflexivity|].
  destruct (getInvoicesList_rethrows_the_rejection
              Demo.env None None None 3 Demo.world _ w' Hrun)
    as (calls & params & what & _ & _ & Hcon).
  exact Hcon.
Defined.

(** ** Pipeline Orchestrator: placeholder or merge *)

Section PlaceholderOrMerge.
Variable E : Env.

Lemma attemptDownload_unreachable url dest w :
  unreachable E url ->
  exists e w1, attemptDownload E url dest w = (Throw e, w1) /\ fs w1 = fs w.
Proof.
  intros Hu. unfold attemptDownload.
  destruct (falsy (Link.invoice_pdf url)) eqn:Hf.
  - do 2 eexists. rewrite bind_throw. split; reflexivity.
  - destruct Hu as [Hu|Hu]; [congruence|]. rewrite bind_ret.
    unfold bind at 1, http_request. rewrite Hu. do 2 eexists.
    split; reflexivity.
Qed.

Lemma downloadWithRetry_unreachable url dest :
  unreachable E url ->
  forall d fuel attempt w, attempt + d = 6 -> d < fuel ->
    exists w', downloadWithRetry E fuel url dest attempt w = (Ok tt, w') /\
               fs w' = fs w.
Proof.
  intros Hu. induction d as [|d IH]; intros fuel attempt w Ha Hfuel;
    (destruct fuel as [|fuel]; [lia|]); cbn [downloadWithRetry];
    destruct (attemptDownload_unreachable url dest w Hu) as (e & w1 & Hrun & Hfs);
    rewrite (try_catch_Throw _ _ _ _ _ Hrun), bind_say.
  - replace (Nat.leb attempt 5) with false by (symmetry; apply Nat.leb_gt; lia).
    eexists. split; [reflexivity|]. exact Hfs.
  - replace (Nat.leb attempt 5) with true by (symmetry; apply Nat.leb_le; lia).
    rewrite bind_say.
    destruct (IH fuel (attempt + 1)
                (snd (say (RetryingDownload (template (Link.invoice_number url))
                                            attempt)
                          (snd (say (ErrorDownloading
                                       (template (Link.invoice_number url)) e)
                                    w1))))
                ltac:(lia) ltac:(lia)) as (w' & Hrun' & Hfs').
    exists w'. split; [exact Hrun'|]. rewrite Hfs'. exact Hfs.
Qed.

Lemma forEach_unreachable fuel (dest : Link.t -> path) urls :
  6 <= fuel -> Forall (unreachable E) urls ->
  forall w, exists w',
    forEach urls (fun url => downloadWithRetry E fuel url (dest url) 1) w
    = (Ok tt, w') /\ fs w' = fs w.
Proof.
  intros Hfuel Hall. induction Hall as [|url urls Hu _ IH]; intros w;
    cbn [forEach].
  - exists w. split; reflexivity.
  - destruct (downloadWithRetry_unreachable url (dest url) Hu 5 fuel 1 w
                eq_refl ltac:(lia)) as (w1 & Hrun & Hfs).
    rewrite (bind_Ok _ _ _ _ _ Hrun).
    destruct (IH w1) as (w' & Hrun' & Hfs').
    exists w'. split; [exact Hrun'|]. now rewrite Hfs'.
Qed.

(** When no link of the category can be fetched, the scratch directory
    stays empty and [downloadPdfs] returns the empty list. *)
Lemma downloadPdfs_unreachable fuel urls category w files w1 :
  downloadPdfs E fuel urls category w = (Ok files, w1) ->
  6 <= fuel -> Forall (unreachable E) urls -> files = [].
Proof.
  intros Hrun Hfuel Hall.
  destruct (downloadPdfs_listing E fuel urls category w files w1 Hrun)
    as (es & Hat & ->).
  unfold downloadPdfs in Hrun. cbv zeta in Hrun.
  set (tmpDir := path_join_any ["tmp"] category) in *.
  apply bind_Ok_inv in Hrun. destruct Hrun as ([] & wa & Hclear & Hrun).
  apply clearDirectory_Ok_empty in Hclear.
  destruct (forEach_unreachable fuel
              (fun url => path_resolve tmpDir
                            (template (Link.invoice_number url) +++ ".pdf"))
              urls Hfuel Hall wa) as (wb & Hloop & Hfs).
  rewrite (bind_Ok _ _ _ _ _ Hloop) in Hrun.
  unfold try_catch in Hrun. rewrite bind_say in Hrun.
  unfold bind, readdirSync in Hrun.
  assert (Hb : at_path tmpDir (snd (say (AllDownloaded category) wb))
               = Some (Dir [])).
  { unfold at_path in *. cbn [say snd fs]. now rewrite Hfs. }
  rewrite Hb in Hrun. cbn in Hrun. injection Hrun as _ <-.
  unfold at_path in *. cbn [fs] in Hat. rewrite Hfs, Hclear in Hat.
  now injection Hat as <-.
Qed.

(** A link whose requests the server never rejects has its file in what
    [downloadPdfs] returns, whether or not its fetch failed. *)
Lemma forEach_writes fuel tmpDir url name : forall urls w wb,
  forEach urls (fun url => downloadWithRetry E (S fuel) url
                             (destOf tmpDir url) 1) w = (Ok tt, wb) ->
  holds_only tmpDir (fun _ _ => True) w ->
  In url urls ->
  destOf tmpDir url = path_join tmpDir name ->
  falsy (Link.invoice_pdf url) = false ->
  (forall n, http_get E n (template (Link.invoice_pdf url)) <> HttpRejected) ->
  holds_only tmpDir (fun _ _ => True) wb /\ is_file (path_join tmpDir name) wb.
Proof.
  induction urls as [|u urls IH]; intros w wb Hrun Hinv Hin Hdest Hf Hserves;
    [contradiction|].
  cbn [forEach] in Hrun. apply bind_Ok_inv in Hrun.
  destruct Hrun as ([] & w1 & Hone & Hrest).
  destruct Hin as [->|Hin].
  - pose proof (downloadWithRetry_writes E tmpDir (fun _ _ => True) name fuel
                  url 1 w (fun _ _ => I) Hf Hserves Hinv) as Hw.
    cbv zeta in Hw. rewrite <- Hdest, Hone in Hw. cbn [snd] in Hw.
    rewrite Hdest in Hw.
    pose proof (keeps_forEach
                  (fun w => holds_only tmpDir (fun _ _ => True) w /\
                            is_file (path_join tmpDir name) w) urls
                  (fun url => downloadWithRetry E (S fuel) url
                                (destOf tmpDir url) 1)) as Hk.
    specialize (Hk (fun u' _ =>
                      downloadWithRetry_keeps_file E tmpDir (fun _ _ => True)
                        name (S fuel) u' (destOf tmpDir u') 1
                        (fun _ _ _ _ => I)) w1).
    rewrite Hrest in Hk. now apply Hk.
  - apply (IH w1 wb Hrest); auto.
    pose proof (downloadWithRetry_holds_only E tmpDir (fun _ _ => True)
                  (S fuel) u (destOf tmpDir u) 1 (fun _ _ _ _ => I) w Hinv)
      as Hk.
    now rewrite Hone in Hk.
Qed.

Lemma downloadPdfs_lists_served fuel urls category w files w1 url name :
  let tmpDir := path_join_any ["tmp"] category in
  downloadPdfs E fuel urls category w = (Ok files, w1) ->
  In url urls ->
  destOf tmpDir url = path_join tmpDir name ->
  falsy (Link.invoice_pdf url) = false ->
  (forall n, http_get E n (template (Link.invoice_pdf url)) <> HttpRejected) ->
  In (path_join tmpDir name) files.
Proof.
  intros tmpDir Hrun Hin Hdest Hf Hserves.
  destruct (downloadPdfs_listing E fuel urls category w files w1 Hrun)
    as (es & Hat & ->). fold tmpDir in Hat |- *.
  apply in_map, In_listing.
  destruct fuel as [|fuel]; [discriminate|].
  unfold downloadPdfs in Hrun. cbv zeta in Hrun. fold tmpDir in Hrun.
  apply bind_Ok_inv in Hrun. destruct Hrun as ([] & wa & Hclear & Hrun).
  apply bind_Ok_inv in Hrun. destruct Hrun as ([] & wb & Hloop & Hrun).
  apply clearDirectory_Ok_empty in Hclear.
  destruct (forEach_writes fuel tmpDir url name urls wa wb Hloop)
    as [_ (data & Hfile)]; auto.
  { exists []. split; [exact Hclear|]. intros c n Hc. discriminate. }
  unfold try_catch in Hrun. rewrite bind_say in Hrun.
  unfold bind, readdirSync in Hrun.
  destruct (at_path tmpDir (snd (say (AllDownloaded category) wb)))
    as [[d|es']|] eqn:Hb; cbn in Hrun; try discriminate.
  injection Hrun as _ <-.
  unfold at_path, path_join in *. cbn [say snd fs] in *.
  rewrite Hat in Hb. injection Hb as <-.
  rewrite lookup_app, Hat in Hfile. cbn [lookup] in Hfile.
  clear - Hfile. induction es as [|[c n] es IH]; [discriminate|].
  cbn [assoc] in Hfile. cbn [map fst].
  destruct (String.eqb_spec name c) as [->|_]; [now left | right; auto].
Qed.

Lemma snd_bind_ret {A B} (m : M A) (b : B) w :
  snd (bind m (fun _ => ret b) w) = snd (m w).
Proof. unfold bind. now destruct (m w) as [[a|e|] w1]. Qed.

End PlaceholderOrMerge.



(** ** What a run leaves alone *)

Section RunApart.
Variable E : Env.
Variable q : path.

Lemma same_fs_keeps_at_path {A} (m : M A) :
  preserves fs m -> preserves (at_path q) m.
Proof. intros H w. unfold at_path. now rewrite H. Qed.

Lemma enter_keeps_fs o : preserves fs (enter o).
Proof. intros w. reflexivity. Qed.

Lemma say_keeps_fs l : preserves fs (say l).
Proof. intros w. reflexivity. Qed.

Lemma mergePdfs_apart pdfPaths outputPath :
  apart outputPath q -> preserves (at_path q) (mergePdfs E pdfPaths outputPath).
Proof.
  intros Hap. unfold mergePdfs, writeFile.
  apply preserves_bind;
    [apply same_fs_keeps_at_path, enter_keeps_fs|intros _].
  apply preserves_bind;
    [intros w; now rewrite mergeInto_keeps_world|intros mergedPdf].
  apply preserves_bind; [now apply open_w_apart|intros _].
  apply same_fs_keeps_at_path, say_keeps_fs.
Qed.

Lemma createEmptyPdf_apart outputPath :
  apart outputPath q -> preserves (at_path q) (createEmptyPdf E outputPath).
Proof.
  intros Hap. unfold createEmptyPdf, writeFile. cbv zeta.
  apply preserves_bind;
    [apply same_fs_keeps_at_path, enter_keeps_fs|intros _].
  apply preserves_bind; [now apply open_w_apart|intros _].
  apply same_fs_keeps_at_path, say_keeps_fs.
Qed.

Lemma processCategory_apart fuel category configKey monthName year :
  let tmpDir :=
    path_join_any ["tmp"] (scratchCategory (fst category) configKey) in
  apart tmpDir q ->
  apart (outputPathOf configKey (fst category) monthName year) q ->
  Forall (fun url =>
            no_slash (template (Link.invoice_number url)) = true \/
            apart (destOf tmpDir url) q) (snd category) ->
  preserves (at_path q)
            (processCategory E fuel category configKey monthName year).
Proof.
  intros tmpDir Hscratch Hout Hdest. unfold processCategory. cbv zeta.
  apply preserves_bind; [|intros _; apply preserves_ret].
  apply preserves_if.
  - apply preserves_bind; [|intros pdfPaths; now apply mergePdfs_apart].
    apply downloadPdfs_apart; [exact Hscratch|].
    now apply destinations_apart.
  - now apply createEmptyPdf_apart.
Qed.

(** X14.  However it ends, processing one category of one account changes
    nothing at a path that parts ways with the category's scratch
    directory, with its output file and with the file of every link of
    the category.  The file of a link whose invoice number holds no slash
    lies inside the scratch directory; an invoice number with a slash can
    place it elsewhere. *)
Theorem processCategory_touches_scratch_and_output_only :
  forall (fuel : nat) (category : string * list Link.t) (configKey : string)
         (monthName : option string) (year : Z) (w : World),
    let tmpDir :=
      path_join_any ["tmp"] (scratchCategory (fst category) configKey) in
    apart tmpDir q ->
    apart (outputPathOf configKey (fst category) monthName year) q ->
    Forall (fun url =>
              no_slash (template (Link.invoice_number url)) = true \/
              apart (destOf tmpDir url) q) (snd category) ->
    at_path q (snd (processCategory E fuel category configKey monthName year w))
    = at_path q w.
Proof.
  intros fuel category configKey monthName year w tmpDir Hscratch Hout Hdest.
  now apply processCategory_apart.
Qed.
End RunApart.

(** The old file in [/tmp] while a category of the demo account is
    processed; and what an invoice number that leads out of the scratch
    directory does to it. *)
Lemma processCategory_touches_scratch_and_output_only_witness :
  at_path ["tmp"; "old.pdf"]
          (snd (processCategory Demo.env 6 ("Paid_And_Open", [Demo.link9])
                                "acme" (Some "March") 2024 Demo.world))
  = Some (File "x") /\
  at_path ["tmp"; "old.pdf"]
          (snd (processCategory Demo.env 6
                  ("Paid_And_Open",
                   [Link.mk (Some "https://pay/a") (Some "../old") 0 0])
                  "acme" (Some "March") 2024 Demo.world))
  = Some (File "ab").
Proof.
  split; [|vm_compute; reflexivity].
  rewrite (processCategory_touches_scratch_and_output_only Demo.env
             ["tmp"; "old.pdf"] 6 ("Paid_And_Open", [Demo.link9])
             "acme" (Some "March") 2024 Demo.world).
  - reflexivity.
  - exists ["tmp"], "paid_and_open_acme", "old.pdf", [], [].
    repeat split. discriminate.
  - exists ["tmp"], "ACME-Paid_And_Open-March-2024.pdf", "old.pdf", [], [].
    repeat split. discriminate.
  - constructor; [left; reflexivity | constructor].
Defined.

(** ** Pipeline Orchestrator: the output paths *)

Section OutputPaths.
Variable E : Env.

Lemma processCategory_returns fuel category configKey monthName year w p w' :
  processCategory E fuel category configKey monthName year w = (Ok p, w') ->
  p = outputPathOf configKey (fst category) monthName year.
Proof.
  unfold processCategory. cbv zeta. unfold bind at 1.
  match goal with |- context [match ?m w with _ => _ end] =>
    destruct (m w) as [[u|e|] w1]; try discriminate
  end.
  now intros [= <- _].
Qed.

Lemma processInvoices_returns fuel paid other configKey monthName year w ps w' :
  processInvoices E fuel paid other configKey monthName year w = (Ok ps, w') ->
  ps = [outputPathOf configKey "Paid_And_Open" monthName year;
        outputPathOf configKey "Other_Status" monthName year].
Proof.
  unfold processInvoices, categories. cbn [processCategories].
  unfold bind at 1.
  destruct (processCategory E fuel ("Paid_And_Open", paid) _ _ _ w)
    as [[p1|e|] w1] eqn:H1; try discriminate.
  unfold bind at 1.
  destruct (processCategory E fuel ("Other_Status", other) _ _ _ w1)
    as [[p2|e|] w2] eqn:H2; try discriminate.
  apply processCategory_returns in H1, H2. cbn [fst] in H1, H2. subst.
  now intros [= <- _].
Qed.

Lemma collectAccounts_returns fuel configKeys startDate endDate monthName year :
  forall acc w ps w',
    collectAccounts E fuel configKeys startDate endDate monthName year acc w
    = (Ok ps, w') ->
    ps = acc ++ expectedPaths configKeys monthName year.
Proof.
  induction configKeys as [|configKey rest IH]; intros acc w ps w';
    cbn [collectAccounts expectedPaths flat_map].
  - intros [= <- _]. now rewrite app_nil_r.
  - unfold bind at 1.
    destruct (getInvoicesList E fuel _ startDate endDate w)
      as [[lists|e|] w1]; try discriminate.
    unfold bind at 1.
    destruct (processInvoices E fuel (fst lists) (snd lists) configKey
                              monthName year w1) as [[ps1|e|] w2] eqn:Hp;
      try discriminate.
    apply processInvoices_returns in Hp. subst ps1.
    intros H. apply IH in H. rewrite H, <- app_assoc. reflexivity.
Qed.

Lemma expectedPaths_length configKeys monthName year :
  List.length (expectedPaths configKeys monthName year)
  = 2 * List.length configKeys.
Proof.
  induction configKeys as [|k rest IH]; cbn [expectedPaths flat_map]; auto.
  rewrite length_app. fold (expectedPaths rest monthName year).
  rewrite IH. cbn. lia.
Qed.

Lemma getInvoicesList_nothing fuel secret gte lte w :
  1 <= fuel ->
  (forall n params, empty_page (invoices_list E secret n params) = true) ->
  exists w1, getInvoicesList E fuel secret gte lte w = (Ok ([], []), w1) /\
             fs w1 = fs w.
Proof.
  intros Hfuel Hempty. destruct fuel as [|fuel]; [lia|].
  unfold getInvoicesList. cbn [listFrom].
  unfold try_catch, bind, stripe_invoices_list.
  specialize (Hempty (List.length (listCalls w))
                     (mkListParams 100 None gte lte)).
  destruct (invoices_list E secret _ _) as [what|[[|i data]|] more];
    try discriminate; cbn; eexists; split; reflexivity.
Qed.

Lemma at_path_tmp_entry name w es :
  at_path ["tmp"] w = Some (Dir es) -> at_path ["tmp"; name] w = assoc name es.
Proof.
  unfold at_path. intros H. change ["tmp"; name] with (["tmp"] ++ [name]).
  now rewrite lookup_app, H.
Qed.

Lemma writeFile_in_tmp name data w es :
  at_path ["tmp"] w = Some (Dir es) ->
  not_a_directory ["tmp"; name] w = true ->
  exists r,
    writeFile ["tmp"; name] data w = (Ok tt, set_fs r w) /\
    lookup ["tmp"] (Some r) = Some (Dir (set_entry name (Some (File data)) es)).
Proof.
  intros Htmp Hnd. unfold writeFile, open_w. cbn [removelast].
  rewrite Htmp. unfold not_a_directory in Hnd.
  exists (store ["tmp"; name] (Some (File data)) (fs w)).
  assert (Hl : lookup ["tmp"]
                 (Some (store ["tmp"; name] (Some (File data)) (fs w)))
               = Some (Dir (set_entry name (Some (File data)) es))).
  { rewrite store_Some by discriminate.
    change ["tmp"; name] with (["tmp"] ++ [name]). rewrite upd_app.
    unfold at_path in Htmp. rewrite Htmp.
    now rewrite (lookup_upd_same _ _ _ _ Htmp). }
  destruct (at_path ["tmp"; name] w) as [[d|es']|]; try discriminate; auto.
Qed.

Lemma createEmptyPdf_ready ps out w :
  tmp_ready ps w -> Forall (fun p => exists n, p = ["tmp"; n]) ps -> In out ps ->
  exists w', createEmptyPdf E out w = (Ok tt, w') /\ tmp_ready ps w'.
Proof.
  intros [[es Htmp] Hnd] Hin_tmp Hout.
  pose proof (proj1 (Forall_forall _ _) Hin_tmp _ Hout) as [name ->].
  pose proof (proj1 (Forall_forall _ _) Hnd _ Hout) as Hnd_out.
  unfold createEmptyPdf. cbv zeta. rewrite bind_enter.
  set (w0 := snd (enter (Placeholder ["tmp"; name]) w)).
  destruct (writeFile_in_tmp name
              (pdf_save E (addPage [] (drawText
                 "No data available for this category." (Page "")))) w0 es)
    as (r & Hrun & Hl); auto.
  rewrite (bind_Ok _ _ _ _ _ Hrun).
  set (w1 := snd (say (EmptyPdfCreated ["tmp"; name]) (set_fs r w0))).
  exists w1. split; [reflexivity|].
  assert (Hl1 : at_path ["tmp"] w1 = Some (Dir (set_entry name (Some (File
                  (pdf_save E (addPage [] (drawText
                     "No data available for this category." (Page ""))))))
                  es))) by exact Hl.
  split.
  - eexists. exact Hl1.
  - apply Forall_forall. intros p Hp.
    pose proof (proj1 (Forall_forall _ _) Hin_tmp _ Hp) as [n ->].
    pose proof (proj1 (Forall_forall _ _) Hnd _ Hp) as Hnd_p.
    unfold not_a_directory in *.
    rewrite (at_path_tmp_entry n _ _ Hl1).
    rewrite (at_path_tmp_entry n _ _ Htmp) in Hnd_p.
    destruct (string_dec name n) as [->|Hne].
    + now rewrite assoc_set_entry_eq.
    + now rewrite assoc_set_entry_ne.
Qed.

Lemma tmp_ready_same_fs ps w w1 : fs w1 = fs w -> tmp_ready ps w -> tmp_ready ps w1.
Proof.
  unfold tmp_ready, not_a_directory, at_path. intros ->. auto.
Qed.

Lemma expectedPaths_in_tmp configKeys monthName year :
  Forall (fun k => no_slash k = true) configKeys ->
  (forall m, monthName = Some m -> no_slash m = true) ->
  Forall (fun p => exists n, p = ["tmp"; n])
         (expectedPaths configKeys monthName year).
Proof.
  intros Hk Hm. apply Forall_forall. intros p Hp. unfold expectedPaths in Hp.
  apply in_flat_map in Hp. destruct Hp as (k & Hin & Hp).
  pose proof (proj1 (Forall_forall _ _) Hk k Hin) as Hks.
  destruct Hp as [<-|[<-|[]]];
    [destruct (output_in_tmp k "Paid_And_Open" monthName year Hks eq_refl Hm)
       as [rest ->]
    |destruct (output_in_tmp k "Other_Status" monthName year Hks eq_refl Hm)
       as [rest ->]]; eauto.
Qed.

Lemma scratchPaths_in_tmp configKeys :
  Forall (fun k => no_slash k = true) configKeys ->
  Forall (fun p => exists n, p = ["tmp"; n]) (scratchPaths configKeys).
Proof.
  intros Hk. apply Forall_forall. intros p Hp. unfold scratchPaths in Hp.
  apply in_flat_map in Hp. destruct Hp as (k & Hin & Hp).
  pose proof (proj1 (Forall_forall _ _) Hk k Hin) as Hks.
  destruct Hp as [<-|[<-|[]]]; rewrite scratch_in_tmp; eauto; cbn; lia.
Qed.

(** A scratch directory is no output file. *)
Lemma scratch_apart_from_output configKeys monthName year p :
  Forall (fun k => no_slash k = true) configKeys ->
  (forall m, monthName = Some m -> no_slash m = true) ->
  In p (scratchPaths configKeys) ->
  In p (expectedPaths configKeys monthName year) -> False.
Proof.
  intros Hk Hm Hs Ho. unfold scratchPaths, expectedPaths in *.
  apply in_flat_map in Hs. destruct Hs as (k1 & Hin1 & Hs).
  apply in_flat_map in Ho. destruct Ho as (k2 & Hin2 & Ho).
  pose proof (proj1 (Forall_forall _ _) Hk k1 Hin1) as Hk1.
  pose proof (proj1 (Forall_forall _ _) Hk k2 Hin2) as Hk2.
  assert (Hout : exists rest, p = ["tmp"; toUpperCase k2 +++ "-" +++ rest]).
  { destruct Ho as [<-|[<-|[]]];
      [destruct (output_in_tmp k2 "Paid_And_Open" monthName year Hk2 eq_refl
                               Hm) as [rest ->]
      |destruct (output_in_tmp k2 "Other_Status" monthName year Hk2 eq_refl
                               Hm) as [rest ->]]; eauto. }
  destruct Hout as [rest ->].
  destruct Hs as [Hs|[Hs|[]]]; rewrite scratch_in_tmp in Hs;
    try assumption; try reflexivity; try (cbn; lia);
    injection Hs as Hs; revert Hs; apply scratch_not_output; auto.
Qed.

(** Without any invoice, every account gets its two placeholder files. *)
Lemma collectAccounts_nothing fuel startDate endDate monthName year all :
  1 <= fuel ->
  (forall secret n params,
     empty_page (invoices_list E secret n params) = true) ->
  Forall (fun p => exists n, p = ["tmp"; n]) all ->
  forall configKeys acc w,
    incl (expectedPaths configKeys monthName year) all ->
    tmp_ready all w ->
    exists w',
      collectAccounts E fuel configKeys startDate endDate monthName year acc w
      = (Ok (acc ++ expectedPaths configKeys monthName year), w').
Proof.
  intros Hfuel Hempty Hall.
  induction configKeys as [|configKey rest IH]; intros acc w Hincl Hready;
    cbn [collectAccounts expectedPaths flat_map].
  - exists w. now rewrite app_nil_r.
  - set (secret := match assoc_string configKey (config E) with
                   | Some variable => process_env E variable
                   | None => None
                   end).
    destruct (getInvoicesList_nothing fuel secret startDate endDate w Hfuel
                (Hempty secret)) as (w1 & Hlist & Hfs).
    rewrite (bind_Ok _ _ _ _ _ Hlist). cbn [fst snd].
    pose proof (tmp_ready_same_fs _ _ _ Hfs Hready) as Hready1.
    unfold processInvoices, categories. cbn [processCategories].
    unfold processCategory at 1. cbn [fst snd List.length Nat.ltb Nat.leb].
    destruct (createEmptyPdf_ready all
                (outputPathOf configKey "Paid_And_Open" monthName year) w1
                Hready1 Hall) as (w2 & Hrun2 & Hready2).
    { apply Hincl. cbn [expectedPaths flat_map]. now left. }
    rewrite !bind_bind, (bind_Ok _ _ _ _ _ Hrun2), !bind_ret.
    unfold processCategory at 1. cbn [fst snd List.length Nat.ltb Nat.leb].
    destruct (createEmptyPdf_ready all
                (outputPathOf configKey "Other_Status" monthName year) w2
                Hready2 Hall) as (w3 & Hrun3 & Hready3).
    { apply Hincl. cbn [expectedPaths flat_map]. right; now left. }
    rewrite !bind_bind, (bind_Ok _ _ _ _ _ Hrun3), !bind_ret. cbn [app].
    destruct (IH (acc ++ [outputPathOf configKey "Paid_And_Open" monthName year;
                          outputPathOf configKey "Other_Status" monthName year])
                 w3) as (w' & Hrun'); auto.
    { intros p Hp. apply Hincl. cbn [expectedPaths flat_map].
      right; right. exact Hp. }
    exists w'. rewrite Hrun'. cbn [app]. rewrite <- app_assoc. reflexivity.
Qed.

Lemma stripe_keeps_fs secret params :
  preserves fs (stripe_invoices_list E secret params).
Proof.
  intros w. unfold stripe_invoices_list.
  now destruct (invoices_list E secret _ params).
Qed.

Lemma listFrom_keeps_fs secret gte lte fuel : forall cursor lists,
  preserves fs (listFrom E fuel secret gte lte cursor lists).
Proof.
  induction fuel as [|fuel IH]; intros cursor lists; cbn [listFrom];
    [apply preserves_hang|].
  apply preserves_bind; [apply stripe_keeps_fs|]. intros [data more].
  cbn [fst snd].
  destruct data as [[|invoice data]|];
    try (apply preserves_ret).
  destruct (nth_error _ _); [|apply preserves_throw].
  apply preserves_if; [apply IH | apply preserves_ret].
Qed.

Lemma getInvoicesList_keeps_fs fuel secret gte lte :
  preserves fs (getInvoicesList E fuel secret gte lte).
Proof.
  unfold getInvoicesList.
  apply preserves_try_catch; [apply listFrom_keeps_fs|intros e].
  apply preserves_bind; [apply say_keeps_fs|intros _; apply preserves_throw].
Qed.

(** The links the lister returns are links of invoices of the provider. *)
Lemma listFrom_links (P : Link.t -> Prop) secret gte lte fuel :
  (forall n params data more invoice,
     invoices_list E secret n params = ListPage (Some data) more ->
     In invoice data -> P (pdfLink invoice)) ->
  forall cursor lists w r w',
    listFrom E fuel secret gte lte cursor lists w = (Ok r, w') ->
    Forall P (fst lists) -> Forall P (snd lists) ->
    Forall P (fst r) /\ Forall P (snd r).
Proof.
  intros Hpages.
  induction fuel as [|fuel IH]; intros cursor [paid other] w r w';
    cbn [listFrom]; [discriminate|].
  unfold bind at 1, stripe_invoices_list.
  destruct (invoices_list E secret (List.length (listCalls w))
                          (mkListParams 100 cursor gte lte))
    as [what|[[|invoice data]|] more] eqn:Hanswer; cbn [fst snd];
    try discriminate; try (intros [= <- _]; now auto).
  rewrite fold_sortInvoice.
  destruct (nth_error_last_Some invoice data) as [lastInvoice ->].
  assert (Hnew : forall f (l : list Link.t),
            Forall P l ->
            Forall P (l ++ map pdfLink (filter f (invoice :: data)))).
  { intros f l Hl. apply Forall_app. split; [exact Hl|].
    apply Forall_forall. intros x Hx. apply in_map_iff in Hx.
    destruct Hx as (i & <- & Hi). apply filter_In in Hi.
    destruct Hi as [Hi _]. eapply Hpages; eauto. }
  destruct more.
  - intros Hrun Hp Ho.
    exact (IH _ _ _ _ _ Hrun (Hnew _ _ Hp) (Hnew _ _ Ho)).
  - intros [= <- _] Hp Ho.
    split; [exact (Hnew _ _ Hp) | exact (Hnew _ _ Ho)].
Qed.

Lemma getInvoicesList_links (P : Link.t -> Prop) fuel secret gte lte w lists w' :
  (forall n params data more invoice,
     invoices_list E secret n params = ListPage (Some data) more ->
     In invoice data -> P (pdfLink invoice)) ->
  getInvoicesList E fuel secret gte lte w = (Ok lists, w') ->
  Forall P (fst lists) /\ Forall P (snd lists).
Proof.
  intros Hpages. unfold getInvoicesList, try_catch.
  destruct (listFrom E fuel secret gte lte None ([], []) w)
    as [[r|e|] w1] eqn:Hrun; try discriminate.
  intros [= <- _]. eapply listFrom_links; eauto.
Qed.

Lemma Forall2_exists {A B} (R : A -> B -> Prop) (l : list A) :
  (forall a, In a l -> exists b, R a b) -> exists bs, Forall2 R l bs.
Proof.
  induction l as [|a l IH]; intros H; [exists []; constructor|].
  destruct (H a (or_introl eq_refl)) as [b Hb].
  destruct IH as [bs Hbs]; [intros a' Ha'; apply H; now right|].
  exists (b :: bs). now constructor.
Qed.

Lemma stageable_in_tmp fuel s w es :
  at_path ["tmp"] w = Some (Dir es) ->
  clearable fuel ["tmp"; s] w = true ->
  stageable ["tmp"; s] (Some (fs w)) = true.
Proof.
  unfold clearable, at_path. destruct (fs w) as [d|r]; [discriminate|].
  cbn [lookup stageable].
  destruct (assoc "tmp" r) as [[d|es0]|]; try discriminate.
  intros _. now destruct (assoc s es0) as [[d|es1]|].
Qed.

Lemma writable_in_tmp o w es :
  at_path ["tmp"] w = Some (Dir es) ->
  not_a_directory ["tmp"; o] w = true ->
  writable ["tmp"; o] w = true.
Proof. intros Htmp Hnd. unfold writable. cbn [removelast]. now rewrite Htmp. Qed.

Lemma createEmptyPdf_returns out w :
  writable out w = true ->
  exists w', createEmptyPdf E out w = (Ok tt, w') /\ is_file out w'.
Proof.
  intros Hw. unfold createEmptyPdf. cbv zeta. rewrite bind_enter.
  set (w0 := snd (enter (Placeholder out) w)).
  assert (Hw0 : writable out w0 = true) by exact Hw.
  destruct (writeFile_writable out
              (pdf_save E (addPage [] (drawText
                 "No data available for this category." (Page "")))) w0 Hw0)
    as (r & Hrun & Hl).
  rewrite (bind_Ok _ _ _ _ _ Hrun).
  eexists. split; [reflexivity|]. eexists. exact Hl.
Qed.

Lemma tmp_apart_entries a b : a <> b -> apart ["tmp"; a] ["tmp"; b].
Proof. intros Hab. exists ["tmp"], a, b, [], []. auto. Qed.

(** One category is processed to the end when its scratch directory can
    be staged, its output file written, and whatever the server sends
    for its links loads as a PDF. *)
Lemma processCategory_total fuel name links configKey monthName year s o w es :
  6 <= fuel -> serves_pdfs E ->
  Forall (fun url => no_slash (template (Link.invoice_number url)) = true)
         links ->
  path_join_any ["tmp"] (scratchCategory name configKey) = ["tmp"; s] ->
  outputPathOf configKey name monthName year = ["tmp"; o] ->
  s <> o ->
  at_path ["tmp"] w = Some (Dir es) ->
  clearable fuel ["tmp"; s] w = true ->
  not_a_directory ["tmp"; o] w = true ->
  exists w',
    processCategory E fuel (name, links) configKey monthName year w
    = (Ok ["tmp"; o], w') /\
    is_file ["tmp"; o] w' /\
    clearable fuel ["tmp"; s] w' = true.
Proof.
  intros Hfuel Hserves Hnum Hscratch Hout Hso Htmp Hclear Hnd.
  unfold processCategory. cbn [fst snd]. rewrite Hout.
  assert (Hos : apart ["tmp"; o] ["tmp"; s])
    by (apply tmp_apart_entries; congruence).
  destruct links as [|url links]; cbn [List.length Nat.ltb Nat.leb].
  - destruct (createEmptyPdf_returns ["tmp"; o] w
                (writable_in_tmp o w es Htmp Hnd)) as (w' & Hrun & Hfile).
    rewrite (bind_Ok _ _ _ _ _ Hrun). exists w'.
    split; [reflexivity|]. split; [exact Hfile|].
    pose proof (createEmptyPdf_apart E ["tmp"; s] ["tmp"; o] Hos w) as Hsame.
    rewrite Hrun in Hsame. cbn [snd] in Hsame.
    unfold clearable in *. now rewrite Hsame.
  - set (urls := url :: links) in *.
    set (category := scratchCategory name configKey) in *.
    pose proof (downloadPdfs_returns E fuel urls category w) as Hret.
    cbv zeta in Hret. rewrite Hscratch in Hret.
    destruct Hret as (files & w1 & Hd);
      [discriminate | eapply stageable_in_tmp; eauto | exact Hfuel | |].
    { intros es0 Hat. unfold clearable in Hclear. rewrite Hat in Hclear.
      now apply Nat.leb_le. }
    rewrite bind_bind, (bind_Ok _ _ _ _ _ Hd).
    destruct (downloadPdfs_listing E fuel urls category w files w1 Hd)
      as (es1 & Hat1 & Hfiles).
    pose proof (downloadPdfs_holds_only E fuel urls category w files w1 Hd)
      as Hinv.
    pose proof (downloadPdfs_flat E fuel urls category w files w1 Hd)
      as Hflat.
    cbv zeta in Hinv. rewrite Hscratch in Hat1, Hfiles, Hinv, Hflat.
    assert (Hout1 : at_path ["tmp"; o] w1 = at_path ["tmp"; o] w).
    { pose proof (downloadPdfs_apart E ["tmp"; o] fuel urls category) as Hframe.
      rewrite Hscratch in Hframe.
      specialize (Hframe (tmp_apart_entries s o Hso)).
      rewrite <- (Hframe ltac:(apply destinations_apart;
        [now apply tmp_apart_entries
        |eapply Forall_impl; [|exact Hnum]; intros u Hu; now left]) w).
      now rewrite Hd. }
    assert (Hdocs : exists docs, Forall2 (holds_pdf E w1) files docs).
    { subst files. apply Forall2_exists. intros f Hf.
      apply in_map_iff in Hf. destruct Hf as (c & <- & Hc).
      apply listing_In, assoc_in in Hc. destruct Hc as [n Hn].
      destruct Hinv as (es' & Hat' & Hall). rewrite Hat1 in Hat'.
      injection Hat' as <-.
      destruct (Hall c n Hn)
        as (data & -> & u & _ & _ & (k & complete & Hget)).
      destruct (pdf_load E data) as [doc|] eqn:Hload;
        [|exfalso; eapply Hserves; eauto].
      exists doc, data. split; [|exact Hload].
      unfold at_path, path_join in *. now rewrite lookup_app, Hat1. }
    destruct Hdocs as [docs Hdocs].
    assert (Htmp1 : exists es', at_path ["tmp"] w1 = Some (Dir es')).
    { unfold at_path in *.
      exact (lookup_within ["tmp"] s [] _ _ Hat1). }
    destruct Htmp1 as [es' Htmp1].
    destruct (mergePdfs_returns E files ["tmp"; o] docs w1 Hdocs)
      as (w2 & Hrun2 & Hout2 & _).
    { apply (writable_in_tmp o w1 es' Htmp1).
      unfold not_a_directory in *. now rewrite Hout1. }
    rewrite (bind_Ok _ _ _ _ _ Hrun2). exists w2.
    split; [reflexivity|]. split; [eexists; exact Hout2|].
    pose proof (mergePdfs_apart E ["tmp"; s] files ["tmp"; o] Hos w1) as Hsame.
    rewrite Hrun2 in Hsame. cbn [snd] in Hsame.
    unfold clearable. rewrite Hsame.
    destruct Hflat as (es2 & -> & Hh). apply Nat.leb_le. lia.
Qed.

Lemma run_ready_same_fs fuel scratch outputs w w1 :
  fs w1 = fs w -> run_ready fuel scratch outputs w ->
  run_ready fuel scratch outputs w1.
Proof.
  unfold run_ready, tmp_ready, clearable, not_a_directory, at_path.
  intros ->. auto.
Qed.

(** In a temporary directory ready for the run, a category is processed
    to the end and leaves the directory ready for the next. *)
Lemma processCategory_ready fuel name links configKey monthName year
      scratch outputs s o w :
  6 <= fuel -> serves_pdfs E ->
  Forall (fun url => no_slash (template (Link.invoice_number url)) = true)
         links ->
  path_join_any ["tmp"] (scratchCategory name configKey) = ["tmp"; s] ->
  outputPathOf configKey name monthName year = ["tmp"; o] ->
  Forall (fun p => exists n, p = ["tmp"; n]) scratch ->
  Forall (fun p => exists n, p = ["tmp"; n]) outputs ->
  (forall p, In p scratch -> In p outputs -> False) ->
  In ["tmp"; s] scratch -> In ["tmp"; o] outputs ->
  run_ready fuel scratch outputs w ->
  exists w',
    processCategory E fuel (name, links) configKey monthName year w
    = (Ok ["tmp"; o], w') /\
    run_ready fuel scratch outputs w'.
Proof.
  intros Hfuel Hserves Hnum Hscratch Hout HS HO Hdisj Hs Ho
         [[[es Htmp] Hnd] Hclear].
  assert (Hso : s <> o).
  { intros ->. exact (Hdisj _ Hs Ho). }
  destruct (processCategory_total fuel name links configKey monthName year
              s o w es Hfuel Hserves Hnum Hscratch Hout Hso Htmp
              (proj1 (Forall_forall _ _) Hclear _ Hs)
              (proj1 (Forall_forall _ _) Hnd _ Ho))
    as (w' & Hrun & Hfile & Hclear').
  exists w'. split; [exact Hrun|].
  assert (Hframe : forall n, n <> s -> n <> o ->
            at_path ["tmp"; n] w' = at_path ["tmp"; n] w).
  { intros n Hns Hno.
    pose proof (processCategory_apart E ["tmp"; n] fuel (name, links)
                  configKey monthName year) as Hf.
    cbv zeta in Hf. cbn [fst snd] in Hf. rewrite Hscratch, Hout in Hf.
    specialize (Hf (tmp_apart_entries s n (not_eq_sym Hns))
                   (tmp_apart_entries o n (not_eq_sym Hno))).
    rewrite <- (Hf ltac:(eapply Forall_impl; [|exact Hnum];
                         intros u Hu; now left) w).
    now rewrite Hrun. }
  split; [split|].
  - destruct Hfile as [data Hfile]. unfold at_path in *.
    exact (lookup_within ["tmp"] o [] _ _ Hfile).
  - apply Forall_forall. intros p Hp.
    destruct (proj1 (Forall_forall _ _) HO p Hp) as [n ->].
    destruct (string_dec n o) as [->|Hno].
    + destruct Hfile as [data Hfile]. unfold not_a_directory.
      now rewrite Hfile.
    + assert (Hns : n <> s) by (intros ->; exact (Hdisj _ Hs Hp)).
      unfold not_a_directory. rewrite (Hframe n Hns Hno).
      exact (proj1 (Forall_forall _ _) Hnd _ Hp).
  - apply Forall_forall. intros p Hp.
    destruct (proj1 (Forall_forall _ _) HS p Hp) as [n ->].
    destruct (string_dec n s) as [->|Hns]; [exact Hclear'|].
    assert (Hno : n <> o) by (intros ->; exact (Hdisj _ Hp Ho)).
    unfold clearable. rewrite (Hframe n Hns Hno).
    exact (proj1 (Forall_forall _ _) Hclear _ Hp).
Qed.

(** With the listing of every account returning, invoice numbers
    without slash and a server whose bodies load as PDFs, every account
    gets its two files. *)
Lemma collectAccounts_ready fuel startDate endDate monthName year all :
  6 <= fuel -> serves_pdfs E -> numbers_plain E ->
  Forall (fun k => no_slash k = true) all ->
  (forall m, monthName = Some m -> no_slash m = true) ->
  (forall k w0,
     In k all ->
     exists lists w1,
       getInvoicesList E fuel (secretOf E k) startDate endDate w0
       = (Ok lists, w1)) ->
  forall configKeys acc w,
    incl configKeys all ->
    run_ready fuel (scratchPaths all) (expectedPaths all monthName year) w ->
    exists w',
      collectAccounts E fuel configKeys startDate endDate monthName year acc w
      = (Ok (acc ++ expectedPaths configKeys monthName year), w').
Proof.
  intros Hfuel Hserves Hplain Hkeys Hmonth Hlist.
  pose proof (scratchPaths_in_tmp all Hkeys) as HS.
  pose proof (expectedPaths_in_tmp all monthName year Hkeys Hmonth) as HO.
  assert (Hdisj : forall p, In p (scratchPaths all) ->
                            In p (expectedPaths all monthName year) -> False).
  { intros p. now apply scratch_apart_from_output. }
  induction configKeys as [|configKey rest IH]; intros acc w Hincl Hready;
    cbn [collectAccounts expectedPaths flat_map].
  - exists w. now rewrite app_nil_r.
  - assert (Hin : In configKey all) by (apply Hincl; now left).
    pose proof (proj1 (Forall_forall _ _) Hkeys _ Hin) as Hk.
    fold (secretOf E configKey).
    destruct (Hlist configKey w Hin) as (lists & w1 & Hl).
    rewrite (bind_Ok _ _ _ _ _ Hl).
    assert (Hready1 : run_ready fuel (scratchPaths all)
                                (expectedPaths all monthName year) w1).
    { eapply run_ready_same_fs; [|exact Hready].
      pose proof (getInvoicesList_keeps_fs fuel (secretOf E configKey)
                    startDate endDate w) as Hfs.
      now rewrite Hl in Hfs. }
    destruct (getInvoicesList_links
                (fun url => no_slash (template (Link.invoice_number url)) = true)
                fuel (secretOf E configKey) startDate endDate w lists w1)
      as [Hpaid Hother]; [|exact Hl|].
    { intros n params data more invoice Hpage Hi. cbn.
      eapply Hplain; eauto. }
    unfold processInvoices, categories. cbn [processCategories].
    destruct (output_in_tmp configKey "Paid_And_Open" monthName year
                            Hk eq_refl Hmonth) as [rest1 Hout1].
    destruct (output_in_tmp configKey "Other_Status" monthName year
                            Hk eq_refl Hmonth) as [rest2 Hout2].
    destruct (processCategory_ready fuel "Paid_And_Open" (fst lists) configKey
                monthName year (scratchPaths all)
                (expectedPaths all monthName year) _ _ w1
                Hfuel Hserves Hpaid
                (scratch_in_tmp "Paid_And_Open" configKey eq_refl
                                ltac:(cbn; lia) Hk)
                Hout1 HS HO Hdisj) as (w2 & Hrun2 & Hready2); auto.
    { rewrite <- (scratch_in_tmp "Paid_And_Open" configKey eq_refl
                                 ltac:(cbn; lia) Hk).
      unfold scratchPaths. apply in_flat_map. exists configKey.
      split; [exact Hin | now left]. }
    { rewrite <- Hout1. unfold expectedPaths. apply in_flat_map.
      exists configKey. split; [exact Hin | now left]. }
    destruct (processCategory_ready fuel "Other_Status" (snd lists) configKey
                monthName year (scratchPaths all)
                (expectedPaths all monthName year) _ _ w2
                Hfuel Hserves Hother
                (scratch_in_tmp "Other_Status" configKey eq_refl
                                ltac:(cbn; lia) Hk)
                Hout2 HS HO Hdisj) as (w3 & Hrun3 & Hready3); auto.
    { rewrite <- (scratch_in_tmp "Other_Status" configKey eq_refl
                                 ltac:(cbn; lia) Hk).
      unfold scratchPaths. apply in_flat_map. exists configKey.
      split; [exact Hin | right; now left]. }
    { rewrite <- Hout2. unfold expectedPaths. apply in_flat_map.
      exists configKey. split; [exact Hin | right; now left]. }
    rewrite !bind_bind, (bind_Ok _ _ _ _ _ Hrun2).
    rewrite !bind_bind, (bind_Ok _ _ _ _ _ Hrun3), !bind_ret. cbn [app].
    destruct (IH (acc ++ [["tmp"; toUpperCase configKey +++ "-" +++ rest1];
                          ["tmp"; toUpperCase configKey +++ "-" +++ rest2]])
                 w3) as (w' & Hrun'); auto.
    { intros k Hkin. apply Hincl. now right. }
    exists w'. etransitivity; [exact Hrun'|].
    rewrite Hout1, Hout2, <- app_assoc. reflexivity.
Qed.

End OutputPaths.



(** ** The date range *)

Lemma leap_cases y :
  (InLeapYear y = true /\
   ((y mod 4 = 0 /\ y mod 100 <> 0) \/ y mod 400 = 0)%Z) \/
  (InLeapYear y = false /\
   ((y mod 4 <> 0 \/ y mod 100 = 0) /\ y mod 400 <> 0)%Z).
Proof.
  unfold InLeapYear.
  destruct (Z.eqb_spec (y mod 4) 0), (Z.eqb_spec (y mod 100) 0),
    (Z.eqb_spec (y mod 400) 0); cbn; intuition lia.
Qed.

(** [new Date(y, m - 1, 1)] falls on the first day of month [m]. *)
Lemma MakeDay_first y m :
  (1 <= m <= 12)%Z -> MakeDay y (m - 1) 1 = days_from_civil y m 1.
Proof.
  intros Hm. month_cases m; clear Hm;
  unfold MakeDay, days_from_civil, DayFromYear; closed_arith;
  rewrite ?Z.add_0_r;
  destruct (leap_cases y) as [[Hl Hc]|[Hl Hc]]; rewrite ?Hl;
  cbv beta iota zeta delta [DaysBeforeMonth]; closed_arith;
  Z.div_mod_to_equations; lia.
Qed.

(** Day 0 of the month after [m] is the last day of month [m]. *)
Lemma MakeDay_last y m :
  (1 <= m <= 12)%Z -> MakeDay y m 0 = days_from_civil y m (days_in_month y m).
Proof.
  intros Hm. month_cases m; clear Hm;
  unfold MakeDay, days_from_civil, DayFromYear, days_in_month; closed_arith;
  rewrite ?Z.add_0_r;
  destruct (leap_cases y) as [[Hl Hc]|[Hl Hc]]; rewrite ?Hl;
  cbv beta iota zeta delta [DaysBeforeMonth]; closed_arith;
  Z.div_mod_to_equations; lia.
Qed.

Lemma days_from_civil_bound y m d :
  valid_year y -> (1 <= m <= 12)%Z -> (0 <= d <= 31)%Z ->
  (-99800000 <= days_from_civil y m d <= 99800000)%Z.
Proof.
  unfold valid_year. intros Hy Hm Hd. month_cases m; clear Hm;
  unfold days_from_civil; closed_arith; Z.div_mod_to_equations; lia.
Qed.

Lemma days_in_month_bound y m : (28 <= days_in_month y m <= 31)%Z.
Proof.
  unfold days_in_month.
  repeat match goal with
         | |- context [match ?x with _ => _ end] => destruct x
         end; lia.
Qed.

Section DateRange.
Variable E : Env.
(** Zone offsets stay below a day. *)
Hypothesis tz_small : forall t, (Z.abs (tz_offset E t) <= 86400)%Z.

Lemma new_Date_seconds year m d hh mm ss ms :
  valid_year year -> (1 <= m <= 12)%Z -> (0 <= d <= 31)%Z ->
  (0 <= hh < 24)%Z -> (0 <= mm < 60)%Z -> (0 <= ss < 60)%Z ->
  (0 <= ms < 1000)%Z ->
  forall month date,
    MakeDay year month date = days_from_civil year m d ->
    seconds_of (new_Date E year month date hh mm ss ms)
    = Some (local_epoch_second E year m d hh mm ss).
Proof.
  intros Hy Hm Hd Hhh Hmm Hss Hms month date Hday.
  unfold new_Date.
  replace (if ((0 <=? year) && (year <=? 99))%Z then (1900 + year)%Z else year)
    with year
    by (unfold valid_year in Hy;
        destruct (Z.leb_spec 0 year), (Z.leb_spec year 99); cbn; lia).
  rewrite Hday. unfold local_epoch_second, MakeDate, MakeTime, UTC. cbv zeta.
  pose proof (days_from_civil_bound year m d Hy Hm Hd) as HD.
  set (D := days_from_civil year m d) in *.
  replace ((D * 86400000 + (hh * 3600000 + mm * 60000 + ss * 1000 + ms)) / 1000)%Z
    with (D * 86400 + hh * 3600 + mm * 60 + ss)%Z
    by (Z.div_mod_to_equations; lia).
  pose proof (tz_small (D * 86400 + hh * 3600 + mm * 60 + ss)%Z) as Htz.
  set (off := tz_offset E (D * 86400 + hh * 3600 + mm * 60 + ss)%Z) in *.
  unfold TimeClip.
  destruct (Z.leb_spec
              (Z.abs (D * 86400000 + (hh * 3600000 + mm * 60000 + ss * 1000 + ms)
                      - 1000 * off)) 8640000000000000); [|lia].
  cbn [seconds_of option_map]. f_equal. Z.div_mod_to_equations. lia.
Qed.

End DateRange.


(** ** Request validation *)

Lemma round_double_small z : (Z.abs z < 2 ^ 53)%Z -> round_double z = z.
Proof.
  intros H. unfold round_double. cbv zeta.
  now destruct (Z.ltb_spec (Z.abs z) (2 ^ 53)); [|lia].
Qed.

(** Rounding keeps the sign and does not go below [2^53] in magnitude. *)
Lemma round_double_large z :
  (2 ^ 53 <= Z.abs z)%Z ->
  (0 < z -> 2 ^ 53 <= round_double z)%Z /\
  (z < 0 -> round_double z <= - 2 ^ 53)%Z.
Proof.
  intros H. unfold round_double. cbv zeta.
  destruct (Z.ltb_spec (Z.abs z) (2 ^ 53)); [lia|].
  set (a := Z.abs z) in *.
  assert (Ha : (0 < a)%Z) by (assert (0 < 2 ^ 53)%Z by reflexivity; lia).
  pose proof (Z.log2_spec a Ha) as [Hlo _].
  assert (HL : (53 <= Z.log2 a)%Z).
  { change 53%Z with (Z.log2 (2 ^ 53)). now apply Z.log2_le_mono. }
  set (e := (Z.log2 a - 52)%Z) in *.
  assert (He : (1 <= e)%Z) by (unfold e; lia).
  assert (Hpow : (2 ^ Z.log2 a = 2 ^ 52 * 2 ^ e)%Z).
  { rewrite <- Z.pow_add_r by lia. f_equal. unfold e. lia. }
  assert (Hpe : (2 <= 2 ^ e)%Z).
  { change 2%Z with (2 ^ 1)%Z at 1. apply Z.pow_le_mono_r; lia. }
  assert (Hq : (2 ^ 52 <= a / 2 ^ e)%Z).
  { apply Z.div_le_lower_bound; [lia|]. rewrite Z.mul_comm. lia. }
  set (q := (a / 2 ^ e)%Z) in *.
  set (q' := if ((2 ^ (e - 1) <? a mod 2 ^ e) ||
                 ((2 ^ (e - 1) =? a mod 2 ^ e) && Z.odd q))%Z%bool
             then (q + 1)%Z else q).
  assert (Hq' : (q <= q')%Z) by (unfold q'; destruct (_ || _)%bool; lia).
  assert (Hv : (2 ^ 53 <= Z.min (q' * 2 ^ e) Infinity)%Z).
  { apply Z.min_glb; [|unfold Infinity; apply Z.pow_le_mono_r; lia].
    change (2 ^ 53)%Z with (2 ^ 52 * 2)%Z. apply Z.mul_le_mono_nonneg; lia. }
  split; intros Hz.
  - rewrite Z.sgn_pos by assumption. lia.
  - rewrite Z.sgn_neg by assumption. lia.
Qed.

(** A month that was rounded has the name it had, or none. *)
Lemma index_monthNames_round z :
  index monthNames (round_double z) = index monthNames z.
Proof.
  destruct (Z.lt_ge_cases (Z.abs z) (2 ^ 53)) as [Hs|Hl];
    [now rewrite round_double_small|].
  destruct (round_double_large z Hl) as [Hpos Hneg].
  assert (H53 : (2 ^ 53 = 9007199254740992)%Z) by reflexivity.
  unfold index.
  destruct (Z.ltb_spec z 0) as [Hz|Hz].
  - specialize (Hneg Hz).
    destruct (Z.ltb_spec (round_double z) 0); [reflexivity | lia].
  - assert (Hz' : (0 < z)%Z) by lia. specialize (Hpos Hz').
    destruct (Z.ltb_spec (round_double z) 0); [lia|].
    transitivity (@None string); [|symmetry];
      apply nth_error_None; cbn [monthNames List.length]; lia.
Qed.

Lemma strip_prefix_Some pre : forall s s',
  strip_prefix pre s = Some s' -> s = pre +++ s'.
Proof.
  induction pre as [|a pre IH]; intros s s'; cbn.
  - now intros [= ->].
  - destruct s as [|b s]; [discriminate|].
    destruct (Ascii.eqb_spec a b) as [->|_]; [|discriminate].
    intros H. now rewrite (IH _ _ H).
Qed.

Lemma strip_any_Some pres : forall s s',
  strip_any pres s = Some s' -> exists c, In c pres /\ s = c +++ s'.
Proof.
  induction pres as [|pre pres IH]; intros s s'; cbn; [discriminate|].
  destruct (strip_prefix pre s) as [s1|] eqn:Hp.
  - intros [= <-]. exists pre. split; [now left | now apply strip_prefix_Some].
  - intros H. destruct (IH _ _ H) as (c & Hc & ->). exists c. auto.
Qed.

Lemma white_space_not_empty c : In c StrWhiteSpaceChar -> 1 <= String.length c.
Proof.
  intros H. cbn in H.
  repeat (destruct H as [<-|H]; [cbn; lia|]). contradiction.
Qed.

(** A white-space character at the front is the one that is stripped. *)
Lemma strip_white_space c s :
  In c StrWhiteSpaceChar -> strip_any StrWhiteSpaceChar (c +++ s) = Some s.
Proof.
  intros H. cbn in H.
  repeat (destruct H as [<-|H]; [reflexivity|]). contradiction.
Qed.

Lemma skip_spaces_upto_stable n : forall m s,
  String.length s <= n -> String.length s <= m ->
  skip_spaces_upto n s = skip_spaces_upto m s.
Proof.
  induction n as [|n IH]; intros m s Hn Hm.
  - destruct s; [|cbn in Hn; lia]. now destruct m.
  - destruct m as [|m]; [destruct s; [reflexivity | cbn in Hm; lia]|].
    cbn [skip_spaces_upto].
    destruct (strip_any StrWhiteSpaceChar s) as [s'|] eqn:Hs; [|reflexivity].
    destruct (strip_any_Some _ _ _ Hs) as (c & Hc & ->).
    pose proof (white_space_not_empty c Hc) as Hne.
    rewrite length_append in Hn, Hm. apply IH; lia.
Qed.

Lemma skip_spaces_upto_enough n s :
  String.length s <= n -> skip_spaces_upto n s = skip_spaces s.
Proof. intros Hn. now apply skip_spaces_upto_stable. Qed.

Lemma skip_spaces_white_space c s :
  In c StrWhiteSpaceChar -> skip_spaces (c +++ s) = skip_spaces s.
Proof.
  intros Hc. unfold skip_spaces at 1.
  pose proof (white_space_not_empty c Hc) as Hne.
  destruct (String.length (c +++ s)) as [|n] eqn:Hlen;
    [rewrite length_append in Hlen; lia|].
  cbn [skip_spaces_upto]. rewrite (strip_white_space c s Hc).
  apply skip_spaces_upto_enough. rewrite length_append in Hlen. lia.
Qed.

Lemma skip_spaces_upto_split n : forall s,
  exists spaces, s = spaces +++ skip_spaces_upto n s /\ all_spaces spaces.
Proof.
  induction n as [|n IH]; intros s; cbn [skip_spaces_upto].
  - exists "". split; [reflexivity | constructor].
  - destruct (strip_any StrWhiteSpaceChar s) as [s'|] eqn:Hs.
    + destruct (strip_any_Some _ _ _ Hs) as (c & Hc & ->).
      destruct (IH s') as (sp & Hsp & Hall).
      exists (c +++ sp). split; [|now constructor].
      rewrite append_assoc. now rewrite <- Hsp.
    + exists "". split; [reflexivity | constructor].
Qed.

Lemma skip_spaces_split s :
  exists spaces, s = spaces +++ skip_spaces s /\ all_spaces spaces.
Proof. apply skip_spaces_upto_split. Qed.

Lemma skip_spaces_app spaces s :
  all_spaces spaces -> skip_spaces (spaces +++ s) = skip_spaces s.
Proof.
  induction 1 as [|c sp Hc _ IH]; [reflexivity|].
  now rewrite append_assoc, skip_spaces_white_space.
Qed.

(** A digit or a sign is no white space, and a digit is no sign. *)
Lemma digit_or_sign_stays a rest :
  digit_of a <> None \/ a = "-"%char \/ a = "+"%char ->
  skip_spaces (String a rest) = String a rest.
Proof.
  intros H. unfold skip_spaces. cbn [String.length skip_spaces_upto].
  replace (strip_any StrWhiteSpaceChar (String a rest)) with (@None string);
    [reflexivity|].
  destruct a as [[] [] [] [] [] [] [] []];
    try reflexivity;
    exfalso; destruct H as [H|[H|H]]; try discriminate; apply H; reflexivity.
Qed.

Lemma digit_not_sign a :
  digit_of a <> None -> a <> "-"%char /\ a <> "+"%char.
Proof.
  intros H. split; intros ->; apply H; reflexivity.
Qed.

(** [parseInt] reads a number from the strings that begin with a decimal
    integer, and from no other; what follows the digits is ignored. *)
Lemma parseInt_string_NaN s :
  parseInt_string s = None <-> ~ has_leading_integer s.
Proof.
  unfold parseInt_string. split.
  - intros Hnan (sp & sign & d & rest & -> & Hsp & Hsign & Hd).
    rewrite (skip_spaces_app _ _ Hsp) in Hnan.
    destruct (digit_not_sign d Hd) as (Hm & Hp).
    assert (Hdig : starts_with_digit (String d rest) = true)
      by (cbn; destruct (digit_of d); congruence).
    destruct Hsign as [-> | [-> | ->]]; cbn [String.append] in Hnan;
      rewrite digit_or_sign_stays in Hnan by auto.
    + destruct d as [[] [] [] [] [] [] [] []];
        try (apply Hm; reflexivity); try (apply Hp; reflexivity);
        cbv beta iota in Hnan; rewrite Hdig in Hnan; discriminate.
    + cbv iota in Hnan. rewrite Hdig in Hnan. discriminate.
    + cbv iota in Hnan. rewrite Hdig in Hnan. discriminate.
  - intros Hno.
    destruct (skip_spaces_split s) as (sp & Hs & Hsp).
    destruct (skip_spaces s) as [|a s1] eqn:Hskip; [reflexivity|].
    assert (Hcase : forall sign s2,
      (sign = "" \/ sign = "-" \/ sign = "+") ->
      String a s1 = sign +++ s2 ->
      (if starts_with_digit s2
       then Some (round_double (1 * digits s2 0))%Z else None) = None
      /\ (if starts_with_digit s2
          then Some (round_double (-1 * digits s2 0))%Z else None) = None).
    { intros sign s2 Hsign Heq.
      destruct s2 as [|d rest]; [split; reflexivity|]. cbn [starts_with_digit].
      destruct (digit_of d) eqn:Hd; [|split; reflexivity].
      exfalso. apply Hno. exists sp, sign, d, rest. rewrite Hs, Heq.
      repeat split; auto. congruence. }
    destruct (Ascii.ascii_dec a "-") as [->|Hm].
    { exact (proj2 (Hcase "-" s1 (or_intror (or_introl eq_refl)) eq_refl)). }
    destruct (Ascii.ascii_dec a "+") as [->|Hp].
    { exact (proj1 (Hcase "+" s1 (or_intror (or_intror eq_refl)) eq_refl)). }
    pose proof (proj1 (Hcase "" (String a s1) (or_introl eq_refl) eq_refl)) as H.
    destruct a as [[] [] [] [] [] [] [] []]; try congruence; exact H.
Qed.

Section Validation.
Variable E : Env.

(** A missing or falsy field stops the handler before anything else. *)
Lemma handler_required fuel req w :
  method req = "POST" ->
  truthy (year req) = false \/ truthy (month req) = false \/
  truthy (email req) = false ->
  handler E fuel req w
  = (Ok (mkResponse 400 "Year, month, and email are required."), w).
Proof.
  intros Hpost Hfalsy. unfold handler. rewrite Hpost. cbn [String.eqb negb].
  change (String.eqb "POST" "POST") with true. cbn [negb].
  destruct Hfalsy as [-> | [-> | ->]]; cbn [negb orb];
    rewrite ?orb_true_r; reflexivity.
Qed.


(** C10.  A POST request in which year, month or email is present but
    falsy (the number 0 or the empty string), or is not there at all,
    receives the 400 response "Year, month, and email are required.", and
    nothing else happens. *)
Theorem handler_requires_truthy_fields :
  forall (fuel : nat) (req : Request) (w : World) (v : jsval),
    method req = "POST" ->
    v = JNum 0 \/ v = JStr "" \/ v = JUndefined ->
    year req = v \/ month req = v \/ email req = v ->
    handler E fuel req w
    = (Ok (mkResponse 400 "Year, month, and email are required."), w).
Proof.
  intros fuel req w v Hpost Hv Hfield. apply handler_required; auto.
  assert (Hf : truthy v = false) by (destruct Hv as [-> | [-> | ->]]; reflexivity).
  destruct Hfield as [-> | [-> | ->]]; auto.
Qed.
End Validation.

(** What [parseInt] reads after a no-break space, beyond [2^53], and from
    a number printed in exponent form. *)
Example parseInt_reads_as_JavaScript_does :
  parseInt (JStr (utf8 [194; 160] +++ "2024")) = Some 2024%Z /\
  parseInt (JStr "9007199254740993") = Some 9007199254740992%Z /\
  ToString (JNum (10 ^ 21)) = "1e+21" /\
  parseInt (JNum (10 ^ 21)) = Some 1%Z /\
  parseInt (JStr "0x10") = Some 0%Z /\
  parseInt (JStr "- 7") = None.
Proof. vm_compute. repeat split. Qed.



(** Year 0, an empty month, and a request without email. *)
Lemma handler_requires_truthy_fields_witness :
  handler Demo.env 6 (mkRequest "POST" (JNum 0) (JStr "3") (JStr "a@b.com"))
          Demo.world
  = (Ok (mkResponse 400 "Year, month, and email are required."), Demo.world) /\
  handler Demo.env 6 (mkRequest "POST" (JStr "2024") (JStr "") (JStr "a@b.com"))
          Demo.world
  = (Ok (mkResponse 400 "Year, month, and email are required."), Demo.world) /\
  handler Demo.env 6 (mkRequest "POST" (JStr "2024") (JStr "3") JUndefined)
          Demo.world
  = (Ok (mkResponse 400 "Year, month, and email are required."), Demo.world).
Proof.
  split; [|split].
  - apply (handler_requires_truthy_fields Demo.env 6 _ Demo.world (JNum 0));
      [reflexivity | now left | now left].
  - apply (handler_requires_truthy_fields Demo.env 6 _ Demo.world (JStr ""));
      [reflexivity | right; now left | right; now left].
  - apply (handler_requires_truthy_fields Demo.env 6 _ Demo.world JUndefined);
      [reflexivity | right; now right | right; now right].
Defined.

(** ** The whole handler on the demo world

    One account with two paid invoices and a draft, March 2024: two
    consolidated files, two uploads, two mails, response 200. *)
Example handler_end_to_end :
  let run := handler Demo.env 6 Demo.request Demo.world in
  fst run = Ok (mkResponse 200 "All data is sent to admin email.") /\
  consolidations (snd run)
  = [Merge [["tmp"; "paid_and_open_acme"; "A-0001.pdf"];
            ["tmp"; "paid_and_open_acme"; "A-0002.pdf"]]
           ["tmp"; "ACME-Paid_And_Open-March-2024.pdf"];
     Merge [] ["tmp"; "ACME-Other_Status-March-2024.pdf"]] /\
  at_path ["tmp"; "ACME-Paid_And_Open-March-2024.pdf"] (snd run)
  = Some (File "abc") /\
  uploads (snd run)
  = [["tmp"; "ACME-Paid_And_Open-March-2024.pdf"];
     ["tmp"; "ACME-Other_Status-March-2024.pdf"]] /\
  map mail_to (mails (snd run)) = [Some "a@b.com"; Some "admin@acme.test"].
Proof. vm_compute. repeat split. Qed.

(** ** The exported function throws without a body only *)

Section HandlerAnswers.
Variable E : Env.

Lemma pipeline_answers fuel email parsedYear parsedMonth w :
  let run := pipeline E fuel email parsedYear parsedMonth w in
  fst run = Hang \/
  fst run = Ok (mkResponse 200 "All data is sent to admin email.") \/
  fst run = Ok (mkResponse 500 "Internal Server Error.").
Proof.
  unfold pipeline. cbv zeta. unfold try_catch.
  match goal with |- context [match ?m w with _ => _ end] =>
    destruct (m w) as [[resp|e|] w1] eqn:Hrun
  end; cbn [fst]; auto.
  right; left.
  repeat (apply bind_Ok_inv in Hrun; destruct Hrun as (? & ? & _ & Hrun)).
  unfold respond, ret in Hrun. now injection Hrun as <- _.
Qed.

(** On a request with a body the handler never throws: it answers 405 to
    any method but POST, 400 to a request it does not accept, and
    otherwise 200 or, whatever goes wrong in the pipeline, 500; a 400 or
    405 answer leaves everything as it was. *)
Lemma handler_answers :
  forall (fuel : nat) (req : Request) (w : World),
    let run := handler E fuel req w in
    (forall e, fst run <> Throw e) /\
    (forall response, fst run = Ok response ->
       In (statusCode response) [200; 400; 405; 500]%Z) /\
    (method req <> "POST" ->
     run = (Ok (mkResponse 405 "Method not allowed"), w)) /\
    (forall response, fst run = Ok response ->
       statusCode response = 405%Z -> method req <> "POST") /\
    (forall response, fst run = Ok response ->
       statusCode response = 400%Z \/ statusCode response = 405%Z ->
       snd run = w).
Proof.
  intros fuel req w. unfold handler.
  destruct (String.eqb_spec (method req) "POST") as [Hpost|Hpost]; cbn [negb].
  2:{ cbn. repeat split; try discriminate; auto.
      intros response [= <-]. cbn. auto. }
  assert (Hpipe : forall email y m,
    let run := pipeline E fuel email y m w in
    (forall e, fst run <> Throw e) /\
    (forall response, fst run = Ok response ->
       In (statusCode response) [200; 400; 405; 500]%Z) /\
    (method req <> "POST" ->
     run = (Ok (mkResponse 405 "Method not allowed"), w)) /\
    (forall response, fst run = Ok response ->
       statusCode response = 405%Z -> method req <> "POST") /\
    (forall response, fst run = Ok response ->
       statusCode response = 400%Z \/ statusCode response = 405%Z ->
       snd run = w)).
  { intros email y m run.
    destruct (pipeline_answers fuel email y m w) as [H|[H|H]];
      fold run in H; rewrite H; repeat split; try discriminate;
      try congruence;
      try (intros response [= <-]; cbn; intuition (auto; discriminate)). }
  assert (H400 : forall text,
    let run := respond 400 text w in
    (forall e, fst run <> Throw e) /\
    (forall response, fst run = Ok response ->
       In (statusCode response) [200; 400; 405; 500]%Z) /\
    (method req <> "POST" ->
     run = (Ok (mkResponse 405 "Method not allowed"), w)) /\
    (forall response, fst run = Ok response ->
       statusCode response = 405%Z -> method req <> "POST") /\
    (forall response, fst run = Ok response ->
       statusCode response = 400%Z \/ statusCode response = 405%Z ->
       snd run = w)).
  { intros text. cbn. repeat split; try discriminate; try congruence; auto.
    - intros response [= <-]. cbn. auto.
    - intros response [= <-]. cbn. discriminate. }
  destruct (negb (truthy (year req)) || negb (truthy (month req))
            || negb (truthy (email req)))%bool; [apply H400|].
  destruct (parseInt (year req)) as [y|]; [|apply H400].
  destruct (parseInt (month req)) as [m|]; cbn [option_map];
    [apply Hpipe | apply H400].
Qed.

End HandlerAnswers.


(** ** What happens before the delivery stage delivers nothing *)

Section BeforeDelivery.
Variable E : Env.

Lemma delivered_fs_only {A} (m : M A) :
  (forall w, exists r, snd (m w) = set_fs r w) -> preserves delivered m.
Proof. apply preserves_fs_only. reflexivity. Qed.

Lemma say_keeps_delivered l : preserves delivered (say l).
Proof. intros w. reflexivity. Qed.

Lemma enter_keeps_delivered o : preserves delivered (enter o).
Proof. intros w. reflexivity. Qed.

Lemma http_request_keeps_delivered url : preserves delivered (http_request E url).
Proof. intros w. unfold http_request. now destruct (http_get E _ url). Qed.

Lemma stripe_keeps_delivered secret params :
  preserves delivered (stripe_invoices_list E secret params).
Proof.
  intros w. unfold stripe_invoices_list.
  now destruct (invoices_list E secret _ params).
Qed.

Ltac frame_delivered :=
  repeat first
    [ apply preserves_bind; [|intros ?]
    | apply preserves_try_catch; [|intros ?]
    | apply preserves_if
    | apply preserves_forEach; intros ?
    | apply preserves_ret
    | apply preserves_throw
    | apply preserves_hang
    | apply say_keeps_delivered
    | apply enter_keeps_delivered
    | apply http_request_keeps_delivered
    | apply stripe_keeps_delivered
    | apply delivered_fs_only; intros ?;
      first [ apply fs_only_existsSync | apply fs_only_readdirSync
            | apply fs_only_lstatSync | apply fs_only_unlinkSync
            | apply fs_only_rmSync | apply fs_only_mkdirSync
            | apply fs_only_readFile | apply fs_only_open_w ] ].

Lemma clearDirectory_keeps_delivered fuel : forall p,
  preserves delivered (clearDirectory fuel p).
Proof.
  induction fuel as [|fuel IH]; intros p; cbn [clearDirectory];
    frame_delivered. apply IH.
Qed.

Lemma downloadWithRetry_keeps_delivered fuel : forall url dest attempt,
  preserves delivered (downloadWithRetry E fuel url dest attempt).
Proof.
  induction fuel as [|fuel IH]; intros url dest attempt;
    cbn [downloadWithRetry]; [apply preserves_hang|].
  unfold attemptDownload, pipelineAsync. frame_delivered. apply IH.
Qed.

Lemma mergeInto_keeps_delivered pdfPaths mergedPdf :
  preserves delivered (mergeInto E mergedPdf pdfPaths).
Proof. intros w. now rewrite mergeInto_keeps_world. Qed.

Lemma processCategory_keeps_delivered fuel category configKey monthName year :
  preserves delivered (processCategory E fuel category configKey monthName year).
Proof.
  unfold processCategory, downloadPdfs, mergePdfs, createEmptyPdf, writeFile.
  cbv zeta. frame_delivered;
    first [ apply clearDirectory_keeps_delivered
          | apply downloadWithRetry_keeps_delivered
          | apply mergeInto_keeps_delivered ].
Qed.

Lemma listFrom_keeps_delivered secret gte lte fuel : forall cursor lists,
  preserves delivered (listFrom E fuel secret gte lte cursor lists).
Proof.
  induction fuel as [|fuel IH]; intros cursor lists; cbn [listFrom];
    [apply preserves_hang|].
  apply preserves_bind; [apply stripe_keeps_delivered|]. intros [data more].
  cbn [fst snd]. destruct data as [[|invoice data]|]; frame_delivered.
  destruct (nth_error _ _); frame_delivered. apply IH.
Qed.

Lemma collectAccounts_keeps_delivered fuel startDate endDate monthName year
      configKeys : forall acc,
  preserves delivered
    (collectAccounts E fuel configKeys startDate endDate monthName year acc).
Proof.
  induction configKeys as [|configKey rest IH]; intros acc;
    cbn [collectAccounts]; [apply preserves_ret|].
  apply preserves_bind.
  { unfold getInvoicesList. frame_delivered. apply listFrom_keeps_delivered. }
  intros lists. apply preserves_bind; [|intros ?; apply IH].
  unfold processInvoices, categories. cbn [processCategories].
  apply preserves_bind; [apply processCategory_keeps_delivered|]. intros p1.
  apply preserves_bind; [apply processCategory_keeps_delivered|]. intros p2.
  apply preserves_ret.
Qed.
End BeforeDelivery.

(** ** The delivery stage *)

Section Delivery.
Variable E : Env.

Lemma uploadAll_mails : forall pdfPaths uploadedUrls w,
  mails (snd (uploadAll E pdfPaths uploadedUrls w)) = mails w /\
  fs (snd (uploadAll E pdfPaths uploadedUrls w)) = fs w /\
  fst (uploadAll E pdfPaths uploadedUrls w) <> Hang /\
  exists done rest,
    pdfPaths = done ++ rest /\
    uploads (snd (uploadAll E pdfPaths uploadedUrls w)) = uploads w ++ done.
Proof.
  induction pdfPaths as [|pdfPath rest IH]; intros uploadedUrls w;
    cbn [uploadAll].
  - cbn. repeat split; try discriminate. exists [], [].
    split; [reflexivity | now rewrite app_nil_r].
  - unfold bind, cloudinary_upload.
    destruct (at_path pdfPath w) as [[data|entries]|];
      [destruct (uploader_upload E pdfPath data) as [secure_url|]| |];
      cbn [fst snd];
      try (repeat split; try discriminate; exists [], (pdfPath :: rest);
           split; [reflexivity | now rewrite app_nil_r]).
    match goal with |- context [uploadAll E rest ?u ?w1] =>
      destruct (IH u w1) as (Hm & Hf & Hh & done & rest' & Hp & Hu)
    end.
    cbn [mails fs uploads] in Hm, Hf, Hu.
    repeat split; auto.
    exists (pdfPath :: done), rest'. split; [now rewrite Hp|].
    rewrite Hu, <- app_assoc. reflexivity.
Qed.

Lemma uploadAll_Ok : forall pdfPaths uploadedUrls w urls w',
  uploadAll E pdfPaths uploadedUrls w = (Ok urls, w') ->
  uploads w' = uploads w ++ pdfPaths /\
  exists new, urls = uploadedUrls ++ new /\
              Forall2 (uploaded_as E w) pdfPaths new.
Proof.
  induction pdfPaths as [|pdfPath rest IH]; intros uploadedUrls w urls w';
    cbn [uploadAll].
  - intros [= <- <-]. split; [now rewrite app_nil_r|].
    exists []. split; [now rewrite app_nil_r | constructor].
  - intros Hrun. apply bind_Ok_inv in Hrun.
    destruct Hrun as (secure_url & w1 & Hup & Hrun).
    unfold cloudinary_upload in Hup.
    destruct (at_path pdfPath w) as [[data|entries]|] eqn:Hat;
      try discriminate.
    destruct (uploader_upload E pdfPath data) as [url|] eqn:Hurl;
      try discriminate.
    injection Hup as <- <-.
    apply IH in Hrun. cbn [uploads] in Hrun.
    destruct Hrun as (Hu & new & -> & Hall).
    split; [rewrite Hu, <- app_assoc; reflexivity|].
    exists (url :: new). split; [now rewrite <- app_assoc|].
    constructor; [now exists data|].
    eapply Forall2_impl; [|exact Hall].
    intros p u (d & Hd & Hu'). exists d. split; auto.
Qed.
Lemma pipeline_delivery fuel email parsedYear parsedMonth w :
  let monthName := index monthNames parsedMonth in
  let paths := expectedPaths (map fst (config E)) monthName parsedYear in
  let run := pipeline E fuel email parsedYear parsedMonth w in
  (exists done rest,
      paths = done ++ rest /\
      uploads (snd run) = uploads w ++ done /\
      mails (snd run) = mails w /\
      (forall response, fst run = Ok response ->
         response = mkResponse 500 "Internal Server Error.")) \/
  (exists uploadedUrls,
      uploads (snd run) = uploads w ++ paths /\
      Forall2 (uploaded_as E (snd run)) paths uploadedUrls /\
      ((mails (snd run)
        = mails w ++ [mailOptionsUser email monthName parsedYear paths] /\
        fst run = Ok (mkResponse 500 "Internal Server Error.")) \/
       (mails (snd run)
        = mails w ++ [mailOptionsUser email monthName parsedYear paths;
                      mailOptionsAdmin E email monthName parsedYear
                                       uploadedUrls] /\
        fst run = Ok (mkResponse 200 "All data is sent to admin email.")))).
Proof.
  intros monthName paths run.
  set (startDate := fst (dateRange E parsedYear parsedMonth)).
  set (endDate := snd (dateRange E parsedYear parsedMonth)).
  pose proof (collectAccounts_keeps_delivered E fuel startDate endDate
                monthName parsedYear (map fst (config E)) [] w) as Hd.
  destruct (collectAccounts E fuel (map fst (config E)) startDate endDate
                            monthName parsedYear [] w)
    as [[all|e|] w1] eqn:Hc; cbn [snd] in Hd;
    injection Hd as Hup1 Hmail1.
  2:{ left. exists [], paths. subst run. unfold pipeline. cbv zeta.
      erewrite try_catch_Throw by (eapply bind_Throw; exact Hc).
      cbn. rewrite Hup1, Hmail1, app_nil_r.
      repeat split; auto. now intros response [= <-]. }
  2:{ left. exists [], paths. subst run. unfold pipeline. cbv zeta.
      erewrite try_catch_Hang by (eapply bind_Hang; exact Hc).
      cbn. rewrite Hup1, Hmail1, app_nil_r.
      repeat split; auto. discriminate. }
  apply collectAccounts_returns in Hc as Hall. cbn [app] in Hall.
  fold paths in Hall. subst all.
  destruct (uploadAll_mails paths [] w1)
    as (Hmail2 & Hfs2 & Hhang & done & rest & Hsplit & Hup2).
  destruct (uploadAll E paths [] w1) as [[uploadedUrls|e|] w2] eqn:Hu;
    cbn [fst snd] in Hmail2, Hfs2, Hhang, Hup2; [| |congruence].
  2:{ left. exists done, rest. subst run. unfold pipeline. cbv zeta.
      erewrite try_catch_Throw
        by (erewrite bind_Ok by exact Hc; eapply bind_Throw; exact Hu).
      cbn. rewrite Hup2, Hmail2, Hup1, Hmail1.
      repeat split; auto. now intros response [= <-]. }
  apply uploadAll_Ok in Hu as Hok. destruct Hok as (Hup3 & new & Hnew & Hurls).
  cbn [app] in Hnew. subst new.
  assert (Hfinal : forall w3, fs w3 = fs w1 ->
            Forall2 (uploaded_as E w3) paths uploadedUrls).
  { intros w3 Hfs. eapply Forall2_impl; [|exact Hurls].
    intros p u (d & Hd & Hu'). exists d. split; auto.
    unfold at_path in *. now rewrite Hfs. }
  assert (Hrun : run
    = try_catch
        (transporter_sendMail E
           (mailOptionsUser email monthName parsedYear paths) ;;
         say (EmailSentUser email) ;;
         transporter_sendMail E
           (mailOptionsAdmin E email monthName parsedYear uploadedUrls) ;;
         say (EmailSentAdmin (process_env E "ADMIN_EMAIL")) ;;
         respond 200 "All data is sent to admin email.")
        (fun error =>
           say (ErrorProcessing error) ;;
           respond 500 "Internal Server Error.") w2).
  { subst run. unfold pipeline. cbv zeta. unfold try_catch.
    erewrite bind_Ok by exact Hc. erewrite bind_Ok by exact Hu.
    reflexivity. }
  clearbody run. subst run.
  unfold try_catch, bind, transporter_sendMail.
  destruct (sendMail E (mailOptionsUser email monthName parsedYear paths)).
  2:{ left. exists paths, []. cbn. rewrite Hup3, Hmail2, Hup1, Hmail1.
      rewrite app_nil_r. repeat split; auto. now intros response [= <-]. }
  cbv beta iota. unfold say at 1. cbv beta iota.
  destruct (sendMail E (mailOptionsAdmin E email monthName parsedYear
                                         uploadedUrls)).
  - right. exists uploadedUrls. cbn. rewrite Hup3, Hmail2, Hup1, Hmail1.
    split; [reflexivity|]. split; [apply Hfinal; cbn; auto|].
    right. rewrite <- app_assoc. split; reflexivity.
  - right. exists uploadedUrls. cbn. rewrite Hup3, Hmail2, Hup1, Hmail1.
    split; [reflexivity|]. split; [apply Hfinal; cbn; auto|].
    left. split; reflexivity.
Qed.
End Delivery.

Section HandlerDelivers.
Variable E : Env.

(** X11.  A 200 answer means everything was delivered: every output file of
    every account was uploaded, in the order of the accounts, each one is
    on disk and the uploader answered a link for it; then exactly two
    mails went out, first the requester's with all the files attached,
    then the administrator's with all the links. *)
Theorem handler_200_means_all_delivered :
  forall (fuel : nat) (req : Request) (parsedYear parsedMonth : Z)
         (w : World) (response : Response) (w' : World),
    parseInt (year req) = Some parsedYear ->
    parseInt (month req) = Some parsedMonth ->
    handler E fuel req w = (Ok response, w') ->
    statusCode response = 200%Z ->
    let monthName := index monthNames (parsedMonth - 1) in
    let paths := expectedPaths (map fst (config E)) monthName parsedYear in
    exists uploadedUrls,
      uploads w' = uploads w ++ paths /\
      Forall2 (uploaded_as E w') paths uploadedUrls /\
      mails w'
      = mails w ++
        [mailOptionsUser (ToString (email req)) monthName parsedYear paths;
         mailOptionsAdmin E (ToString (email req)) monthName parsedYear
                          uploadedUrls].
Proof.
  intros fuel req parsedYear parsedMonth w response w' Hy Hm Hrun H200
         monthName paths.
  unfold handler in Hrun. rewrite Hy, Hm in Hrun. cbn [option_map] in Hrun.
  destruct (negb (String.eqb (method req) "POST"));
    [injection Hrun as <- _; discriminate|].
  destruct (negb (truthy (year req)) || negb (truthy (month req))
            || negb (truthy (email req)))%bool;
    [injection Hrun as <- _; discriminate|].
  pose proof (pipeline_delivery E fuel (ToString (email req)) parsedYear
                                (round_double (parsedMonth - 1)) w) as Hpipe.
  cbv zeta in Hpipe. rewrite index_monthNames_round in Hpipe.
  fold monthName in Hpipe. fold paths in Hpipe.
  destruct Hpipe
    as [(done & rest & _ & _ & _ & H500)
       |(uploadedUrls & Hup & Hurls & [[_ H500]|[Hmails _]])];
    rewrite Hrun in *; cbn [fst snd] in *.
  - specialize (H500 response eq_refl). subst response. discriminate.
  - injection H500 as ->. discriminate.
  - exists uploadedUrls. auto.
Qed.

(** X12.  The uploads go in the order of the output files and stop at the
    first that fails; no mail is sent before every file is uploaded; the
    requester's mail is the first one; and an answer other than 200 means
    that the administrator's mail was not sent, though the requester's may
    have been. *)
Theorem handler_mails_only_after_all_uploads :
  forall (fuel : nat) (req : Request) (parsedYear parsedMonth : Z) (w : World),
    parseInt (year req) = Some parsedYear ->
    parseInt (month req) = Some parsedMonth ->
    let monthName := index monthNames (parsedMonth - 1) in
    let paths := expectedPaths (map fst (config E)) monthName parsedYear in
    let userMail :=
      mailOptionsUser (ToString (email req)) monthName parsedYear paths in
    let run := handler E fuel req w in
    (exists done rest,
        paths = done ++ rest /\ uploads (snd run) = uploads w ++ done) /\
    (mails (snd run) <> mails w ->
     uploads (snd run) = uploads w ++ paths /\
     exists more, mails (snd run) = mails w ++ userMail :: more) /\
    (forall response, fst run = Ok response -> statusCode response <> 200%Z ->
       mails (snd run) = mails w \/ mails (snd run) = mails w ++ [userMail]).
Proof.
  intros fuel req parsedYear parsedMonth w Hy Hm monthName paths userMail run.
  assert (Hsame : snd run = w ->
    (exists done rest,
        paths = done ++ rest /\ uploads (snd run) = uploads w ++ done) /\
    (mails (snd run) <> mails w ->
     uploads (snd run) = uploads w ++ paths /\
     exists more, mails (snd run) = mails w ++ userMail :: more) /\
    (forall response, fst run = Ok response -> statusCode response <> 200%Z ->
       mails (snd run) = mails w \/ mails (snd run) = mails w ++ [userMail])).
  { intros ->. split; [|split].
    - exists [], paths. now rewrite app_nil_r.
    - congruence.
    - auto. }
  subst run. unfold handler in *. rewrite Hy, Hm in *. cbn [option_map] in *.
  destruct (negb (String.eqb (method req) "POST")); [now apply Hsame|].
  destruct (negb (truthy (year req)) || negb (truthy (month req))
            || negb (truthy (email req)))%bool; [now apply Hsame|].
  clear Hsame.
  pose proof (pipeline_delivery E fuel (ToString (email req)) parsedYear
                                (round_double (parsedMonth - 1)) w) as Hpipe.
  cbv zeta in Hpipe. rewrite index_monthNames_round in Hpipe.
  fold monthName in Hpipe. fold paths in Hpipe.
  fold userMail in Hpipe.
  destruct Hpipe
    as [(done & rest & Hsplit & Hup & Hmails & _)
       |(uploadedUrls & Hup & _ & [[Hmails Hr]|[Hmails Hr]])].
  - split; [|split]; eauto. congruence.
  - split; [|split].
    + exists paths, []. now rewrite app_nil_r.
    + intros _. split; [exact Hup|]. now exists [].
    + auto.
  - split; [|split].
    + exists paths, []. now rewrite app_nil_r.
    + intros _. split; [exact Hup|]. eauto.
    + rewrite Hr. intros response [= <-]. now cbn.
Qed.
End HandlerDelivers.

Lemma handler_200_means_all_delivered_witness :
  exists w' uploadedUrls,
    handler Demo.env 6 Demo.request Demo.world
    = (Ok (mkResponse 200 "All data is sent to admin email."), w') /\
    uploads w' = [["tmp"; "ACME-Paid_And_Open-March-2024.pdf"];
                  ["tmp"; "ACME-Other_Status-March-2024.pdf"]] /\
    mails w'
    = [mailOptionsUser "a@b.com" (Some "March") 2024
         [["tmp"; "ACME-Paid_And_Open-March-2024.pdf"];
          ["tmp"; "ACME-Other_Status-March-2024.pdf"]];
       mailOptionsAdmin Demo.env "a@b.com" (Some "March") 2024 uploadedUrls].
Proof.
  destruct (handler Demo.env 6 Demo.request Demo.world) as [r w'] eqn:Hrun.
  assert (Hr : r = Ok (mkResponse 200 "All data is sent to admin email."))
    by (apply (f_equal fst) in Hrun; vm_compute in Hrun; now symmetry).
  subst r.
  destruct (handler_200_means_all_delivered Demo.env 6 Demo.request 2024 3
              Demo.world _ w' eq_refl eq_refl Hrun eq_refl)
    as (uploadedUrls & Hup & _ & Hmails).
  exists w', uploadedUrls. split; [reflexivity|]. split; assumption.
Defined.

Lemma handler_mails_only_after_all_uploads_witness :
  let run := handler Demo.env 6 Demo.request Demo.world in
  uploads (snd run) = [["tmp"; "ACME-Paid_And_Open-March-2024.pdf"];
                       ["tmp"; "ACME-Other_Status-March-2024.pdf"]].
Proof.
  intros run.
  destruct (handler_mails_only_after_all_uploads Demo.env 6 Demo.request
              2024 3 Demo.world eq_refl eq_refl) as (_ & Hafter & _).
  apply Hafter. vm_compute. discriminate.
Defined.

(** ** The form and the handler *)

Lemma monthNames_defined (parsedMonth : Z) :
  (1 <= parsedMonth <= 12)%Z ->
  exists monthName, index monthNames (parsedMonth - 1) = Some monthName.
Proof.
  intros H.
  assert (Hcases : In parsedMonth [1; 2; 3; 4; 5; 6; 7; 8; 9; 10; 11; 12]%Z)
    by (cbn; lia).
  cbn in Hcases.
  repeat (destruct Hcases as [<- | Hcases]; [eexists; reflexivity|]).
  contradiction.
Qed.

(** X13.  What the form posts, the handler accepts: a submission that passes
    the form's validation and has an e-mail address passes the handler's
    checks too, and the handler's run is the pipeline's on the year and
    month the form parsed; the month, from 1 to 12, has a name.  The form
    does not look at the e-mail address: without one the handler answers
    400 and changes nothing. *)
Theorem posted_submission_reaches_pipeline :
  forall (E : Env) (fuel : nat) (y m e : string) (req : Request) (w : World),
    submission y m e = Posted req ->
    exists parsedYear parsedMonth monthName,
      parseInt_string y = Some parsedYear /\
      parseInt_string m = Some parsedMonth /\
      (1 <= parsedMonth <= 12)%Z /\
      index monthNames (parsedMonth - 1) = Some monthName /\
      (e <> "" ->
       handler E fuel req w
       = pipeline E fuel e parsedYear (parsedMonth - 1) w) /\
      (e = "" ->
       handler E fuel req w
       = (Ok (mkResponse 400 "Year, month, and email are required."), w)).
Proof.
  intros E fuel y m e req w. unfold submission.
  destruct (parseInt_string y) as [parsedYear|] eqn:Hy; [|discriminate].
  destruct (parseInt_string m) as [parsedMonth|] eqn:Hm; [|discriminate].
  destruct ((parsedMonth <? 1) || (parsedMonth >? 12))%Z eqn:Hrange;
    [discriminate|].
  intros [= <-].
  apply orb_false_elim in Hrange. destruct Hrange as [Hlo Hhi].
  apply Z.ltb_ge in Hlo. rewrite Z.gtb_ltb in Hhi. apply Z.ltb_ge in Hhi.
  destruct (monthNames_defined parsedMonth (conj Hlo Hhi)) as [monthName Hn].
  exists parsedYear, parsedMonth, monthName.
  assert (Hty : y <> "") by (intros ->; discriminate).
  assert (Htm : m <> "") by (intros ->; discriminate).
  apply String.eqb_neq in Hty, Htm.
  repeat split; auto; try lia.
  - intros He. apply String.eqb_neq in He.
    unfold handler, parseInt.
    cbn [method year month email truthy ToString String.eqb Ascii.eqb
         Bool.eqb negb].
    rewrite Hty, Htm, He, Hy, Hm. cbn [option_map negb orb].
    rewrite round_double_small; [reflexivity|].
    assert (2 ^ 53 = 9007199254740992)%Z by reflexivity. lia.
  - intros ->. unfold handler.
    cbn [method year month email truthy ToString String.eqb Ascii.eqb
         Bool.eqb negb].
    rewrite Hty, Htm. reflexivity.
Qed.

Lemma posted_submission_reaches_pipeline_witness :
  handler Demo.env 6 Demo.request Demo.world
  = pipeline Demo.env 6 "a@b.com" 2024 2 Demo.world.
Proof.
  destruct (posted_submission_reaches_pipeline Demo.env 6 "2024" "3" "a@b.com"
              Demo.request Demo.world eq_refl)
    as (parsedYear & parsedMonth & monthName & Hy & Hm & _ & _ & Hrun & _).
  injection Hy as <-. injection Hm as <-.
  apply Hrun. discriminate.
Defined.

(** ** Nothing outside the temporary directory *)

Lemma preserves_bind_post {X A B} (f : World -> X) (R : A -> Prop)
      (m : M A) (k : A -> M B) :
  preserves f m ->
  (forall w a w', m w = (Ok a, w') -> R a) ->
  (forall a, R a -> preserves f (k a)) ->
  preserves f (bind m k).
Proof.
  intros Hm HR Hk w. unfold bind. specialize (Hm w).
  destruct (m w) as [[a|e|] w1] eqn:Hrun; cbn [snd] in *; auto.
  rewrite <- Hm. apply Hk. eapply HR; eauto.
Qed.

Lemma monthNames_no_slash i m :
  index monthNames i = Some m -> no_slash m = true.
Proof.
  unfold index. destruct (i <? 0)%Z; [discriminate|]. intros H.
  apply nth_error_In in H.
  assert (Hall : Forall (fun m => no_slash m = true) monthNames)
    by (repeat constructor).
  exact (proj1 (Forall_forall _ _) Hall m H).
Qed.

Lemma demo_numbers_plain srv : numbers_plain (Demo.env_with srv).
Proof.
  intros secret n params data more invoice. cbn. unfold Demo.provider.
  destruct secret as [s|]; [|discriminate].
  destruct (String.eqb s "sk_test"); [|discriminate].
  destruct (starting_after params); intros [= <- _]; [intros []|].
  intros [<-|[<-|[<-|[]]]]; reflexivity.
Qed.

Section OutsideTmp.
Variable E : Env.
Variable c : string.
Variable q' : path.
Hypothesis outside : c <> "tmp".

Lemma tmp_apart name : apart ["tmp"; name] (c :: q').
Proof.
  exists [], "tmp", c, [name], q'. repeat split. congruence.
Qed.

Lemma processCategory_outside_tmp fuel name links configKey monthName year :
  no_slash name = true -> 3 <= String.length name ->
  no_slash configKey = true ->
  (forall m, monthName = Some m -> no_slash m = true) ->
  Forall (fun url => no_slash (template (Link.invoice_number url)) = true)
         links ->
  preserves (at_path (c :: q'))
            (processCategory E fuel (name, links) configKey monthName year).
Proof.
  intros Hname Hlen Hk Hm Hnum.
  pose proof (processCategory_apart E (c :: q') fuel (name, links) configKey
                                    monthName year) as Hframe.
  cbv zeta in Hframe. cbn [fst snd] in Hframe.
  rewrite (scratch_in_tmp name configKey Hname Hlen Hk) in Hframe.
  destruct (output_in_tmp configKey name monthName year Hk Hname Hm)
    as [rest Hout].
  rewrite Hout in Hframe.
  apply Hframe; try apply tmp_apart.
  eapply Forall_impl; [|exact Hnum]. intros u Hu. now left.
Qed.

Lemma collectAccounts_outside_tmp fuel startDate endDate monthName year
      configKeys :
  numbers_plain E ->
  Forall (fun k => no_slash k = true) configKeys ->
  (forall m, monthName = Some m -> no_slash m = true) ->
  forall acc,
    preserves (at_path (c :: q'))
      (collectAccounts E fuel configKeys startDate endDate monthName year acc).
Proof.
  intros Hplain Hkeys Hm.
  induction Hkeys as [|configKey rest Hk _ IH]; intros acc;
    cbn [collectAccounts]; [apply preserves_ret|].
  apply (preserves_bind_post _
           (fun lists =>
              Forall (fun url =>
                        no_slash (template (Link.invoice_number url)) = true)
                     (fst lists) /\
              Forall (fun url =>
                        no_slash (template (Link.invoice_number url)) = true)
                     (snd lists))).
  - apply same_fs_keeps_at_path, getInvoicesList_keeps_fs.
  - intros w lists w' Hrun.
    eapply (getInvoicesList_links E); [|exact Hrun].
    intros n params data more invoice Hpage Hi. cbn. eapply Hplain; eauto.
  - intros lists [Hpaid Hother].
    apply preserves_bind; [|intros ?; apply IH].
    unfold processInvoices, categories. cbn [processCategories].
    apply preserves_bind;
      [apply processCategory_outside_tmp; auto; cbn; lia|intros p1].
    apply preserves_bind;
      [apply processCategory_outside_tmp; auto; cbn; lia|intros p2].
    apply preserves_ret.
Qed.

Lemma uploadAll_keeps_fs pdfPaths uploadedUrls :
  preserves fs (uploadAll E pdfPaths uploadedUrls).
Proof. intros w. apply uploadAll_mails. Qed.

Lemma transporter_sendMail_keeps_fs m :
  preserves fs (transporter_sendMail E m).
Proof.
  intros w. unfold transporter_sendMail. now destruct (sendMail E m).
Qed.

Lemma pipeline_outside_tmp fuel email parsedYear parsedMonth :
  numbers_plain E ->
  Forall (fun k => no_slash k = true) (map fst (config E)) ->
  preserves (at_path (c :: q'))
            (pipeline E fuel email parsedYear parsedMonth).
Proof.
  intros Hplain Hkeys. unfold pipeline. cbv zeta. apply preserves_try_catch.
  - apply preserves_bind;
      [apply collectAccounts_outside_tmp; auto;
       intros m; apply monthNames_no_slash|intros all].
    apply same_fs_keeps_at_path.
    repeat first
      [ apply preserves_bind; [|intros ?]
      | apply uploadAll_keeps_fs
      | apply transporter_sendMail_keeps_fs
      | apply say_keeps_fs
      | apply preserves_ret ].
  - intros e. apply same_fs_keeps_at_path.
    apply preserves_bind; [apply say_keeps_fs|intros _; apply preserves_ret].
Qed.

(** X15.  When no key of a configured account and no invoice number of
    the provider holds a slash, then, whatever the request and however
    the run ends, the handler changes nothing outside the temporary
    directory.  (A key or an invoice number with a slash can lead a
    scratch directory, an output file or a downloaded file out of it.) *)
Theorem handler_changes_nothing_outside_tmp :
  numbers_plain E ->
  Forall (fun k => no_slash k = true) (map fst (config E)) ->
  forall (fuel : nat) (req : Request) (w : World),
    at_path (c :: q') (snd (handler E fuel req w)) = at_path (c :: q') w.
Proof.
  intros Hplain Hkeys fuel req w. unfold handler.
  destruct (negb (String.eqb (method req) "POST")); [reflexivity|].
  destruct (negb (truthy (year req)) || negb (truthy (month req))
            || negb (truthy (email req)))%bool; [reflexivity|].
  destruct (parseInt (year req)) as [parsedYear|]; [|reflexivity].
  destruct (option_map _ (parseInt (month req)))
    as [parsedMonth|]; [|reflexivity].
  now apply pipeline_outside_tmp.
Qed.
End OutsideTmp.

(** The demo run leaves [/etc] alone; and an invoice whose number leads
    out of [/tmp] does not. *)
Lemma handler_changes_nothing_outside_tmp_witness :
  at_path ["etc"] (snd (handler Demo.env 6 Demo.request Demo.world))
  = Some (File "cfg") /\
  destOf ["tmp"; "paid_and_open_acme"]
         (Link.mk (Some "https://pay/a") (Some "../../etc") 0 0)
  = ["etc.pdf"].
Proof.
  split; [|reflexivity].
  rewrite (handler_changes_nothing_outside_tmp Demo.env "etc" []).
  - reflexivity.
  - discriminate.
  - apply demo_numbers_plain.
  - repeat constructor.
Defined.

(** ** Months outside the calendar, and neighbouring months *)

Lemma MakeDay_carry (year month date k : Z) :
  MakeDay year (month + 12 * k) date = MakeDay (year + k) month date.
Proof.
  unfold MakeDay. cbv zeta.
  replace ((month + 12 * k) / 12)%Z with (month / 12 + k)%Z
    by (Z.div_mod_to_equations; lia).
  replace ((month + 12 * k) mod 12)%Z with (month mod 12)%Z
    by (Z.div_mod_to_equations; lia).
  now replace (year + (month / 12 + k))%Z with (year + k + month / 12)%Z by lia.
Qed.

Lemma literal_year (year : Z) :
  (year < 0 \/ 99 < year)%Z ->
  (if ((0 <=? year) && (year <=? 99))%Z then (1900 + year)%Z else year) = year.
Proof.
  intros H. destruct (Z.leb_spec 0 year), (Z.leb_spec year 99); cbn; lia.
Qed.



(** X17.  On a server whose clock keeps one offset from UTC, the ranges of
    neighbouring months leave no gap and do not overlap: the first second
    of a month is the one after the last second of the month before. *)
Theorem dateRange_months_abut :
  forall (E : Env) (offset y m endDate startDate : Z),
    (forall t, tz_offset E t = offset) ->
    snd (dateRange E y m) = Some endDate ->
    fst (dateRange E y (m + 1)) = Some startDate ->
    startDate = (endDate + 1)%Z.
Proof.
  intros E offset y m endDate startDate Htz.
  unfold dateRange, new_Date, seconds_of, UTC, MakeDate, MakeTime.
  cbn [fst snd]. rewrite !Htz.
  set (yr := if ((0 <=? y) && (y <=? 99))%Z then (1900 + y)%Z else y).
  replace (MakeDay yr (m + 1) 1) with (MakeDay yr (m + 1) 0 + 1)%Z
    by (unfold MakeDay; lia).
  set (D := MakeDay yr (m + 1) 0).
  remember (1000 * offset)%Z as shift eqn:Hshift.
  unfold TimeClip.
  destruct (Z.abs _ <=? _)%Z; [|discriminate].
  destruct (Z.abs _ <=? _)%Z; [|discriminate].
  cbn [option_map]. intros [= <-] [= <-].
  Z.div_mod_to_equations. lia.
Qed.

Lemma dateRange_months_abut_witness :
  fst (dateRange Demo.env 2024 3) = Some 1711926000%Z /\
  snd (dateRange Demo.env 2024 2) = Some 1711925999%Z.
Proof.
  assert (He : snd (dateRange Demo.env 2024 2) = Some 1711925999%Z)
    by (vm_compute; reflexivity).
  split; [|exact He].
  destruct (fst (dateRange Demo.env 2024 (2 + 1))) as [s|] eqn:Hs;
    [|vm_compute in Hs; discriminate].
  change (2 + 1)%Z with 3%Z in Hs. rewrite Hs. f_equal.
  apply (dateRange_months_abut Demo.env 3600 2024 2 1711925999 s);
    [intros t; reflexivity | exact He | exact Hs].
Defined.
